(** * Speech acquisition hooks: [useSpeechifyTTS] and [useHiggsAudio]

    A shallow embedding of the two React hooks of the repository and of the
    two service classes they drive ([SpeechifyService], [HiggsAudioService]).

    The hooks are asynchronous: [generateSpeech] runs synchronously up to its
    first [await], and is resumed later, once per settled promise.  Between
    two such segments React commits the state and may render.  The embedding
    keeps this structure:

    - an async function is a [Task], a tree whose nodes are the effects of
      the source (state setters, ref reads, [fetch], [decodeAudioData],
      [FileReader.readAsDataURL]) and whose leaves are [return] and [throw];
    - a hook instance ([Sched]) holds the committed React state, the refs,
      the suspended tasks, the pending file readers and the log of the
      requests handed to [fetch];
    - every event (a call, a promise that settles, a reader that ends, a
      render) runs one synchronous segment; the instance after an event is
      an observable point.

    Logging ([console.*]), the unmount cleanup ([audioContext.close()]) and
    the parts of [SpeechifyService] the hooks never call ([transcribeAudio],
    [getVoices], [useSpeechifyDictation]) are left out. *)

From Stdlib Require Import String Ascii List Bool Arith PeanoNat.
From Stdlib.Strings Require Import Byte.
From Stdlib Require Import ZArith QArith Lia DecimalString.
Import ListNotations.

Local Open Scope string_scope.
Local Open Scope list_scope.

(** ** JavaScript values used by the hooks *)

Module JS.

(** A thrown value.  [fetch] rejects with a [TypeError], [decodeAudioData]
    with a [DOMException], the services throw [new Error(...)]: all are
    instances of [Error] and carry a [message].  [JsOther] is any thrown
    value that is not an [Error]. *)
Inductive Thrown : Type :=
| JsError (message : string)
| JsOther.

(** [err instanceof Error ? err.message : 'Unknown error'] *)
Definition errorMessage (err : Thrown) : string :=
  match err with
  | JsError message => message
  | JsOther => "Unknown error"
  end.

(** Truthiness of a string: [""] is falsy. *)
Definition truthy (s : string) : bool :=
  match s with
  | EmptyString => false
  | String _ _ => true
  end.

(** Truthiness of an optional string parameter ([undefined] is falsy). *)
Definition truthy_opt (s : option string) : bool :=
  match s with
  | Some v => truthy v
  | None => false
  end.

(** [a || b] on an optional string with a string default. *)
Definition or_default (a : option string) (b : string) : string :=
  match a with
  | Some v => if truthy v then v else b
  | None => b
  end.

(** [a ?? b]: only [undefined] selects the default. *)
Definition nullish {A : Type} (a : option A) (b : A) : A :=
  match a with
  | Some v => v
  | None => b
  end.

(** [`${n}`] for a non-negative integer [n]: its decimal digits. *)
Definition Number_toString (n : nat) : string :=
  NilEmpty.string_of_uint (Nat.to_uint n).

(** [hay.includes(needle)] *)
Fixpoint includes (needle hay : string) : bool :=
  if String.prefix needle hay then true
  else match hay with
       | EmptyString => false
       | String _ rest => includes needle rest
       end.

(** The object handed to [JSON.stringify]: a flat object literal whose
    fields are kept in source order.  A field whose value is [undefined]
    is kept as [JUndefined] ([JSON.stringify] drops it from the text). *)
Inductive JSONValue : Type :=
| JString (s : string)
| JNumber (q : Q)
| JUndefined.

Definition JSONObject : Type := list (string * JSONValue).

Definition opt_string (s : option string) : JSONValue :=
  match s with Some v => JString v | None => JUndefined end.

(** The [init] argument of [fetch(url, init)] together with the url. *)
Record Request : Type := mkRequest {
  url : string;
  method : string;
  headers : list (string * string);
  body : option JSONObject
}.

Definition header (name : string) (r : Request) : option string :=
  match find (fun kv => String.eqb (fst kv) name) (headers r) with
  | Some kv => Some (snd kv)
  | None => None
  end.

(** A received response: status line, content type and body bytes. *)
Record Response : Type := mkResponse {
  status : nat;
  statusText : string;
  contentType : string;
  payload : list byte
}.

(** [response.ok]: the status is in the range 200-299. *)
Definition ok (r : Response) : bool :=
  ((200 <=? status r) && (status r <=? 299))%nat.

(** [response.text()]: the body read as text. *)
Definition text_of (r : Response) : string :=
  string_of_list_byte (payload r).

Record Blob : Type := mkBlob {
  blobType : string;
  blobBytes : list byte
}.

(** [response.blob()]: the body bytes, typed by the content type. *)
Definition blob_of (r : Response) : Blob :=
  {| blobType := contentType r; blobBytes := payload r |}.

(** A Web Audio [AudioBuffer]: it holds at least one sample frame, at a
    positive sample rate; [duration] is their quotient, in seconds. *)
Record AudioBuffer : Type := mkAudioBuffer {
  bufferLength : positive;
  sampleRate : positive
}.

Definition duration (b : AudioBuffer) : Q :=
  Z.pos (bufferLength b) # sampleRate b.

Inductive AudioContext : Type := mkAudioContext.

End JS.
Export JS.

(** ** Asynchronous functions as trees of effects *)

Module Async.

Section Tasks.

(** [St] is the React state of a hook (the values of its [useState]
    cells), [Refs] the current values of its [useRef] cells. *)
Variables St Refs : Type.

(** The body of an async function that returns an [A].

    - [Modify f k]: a state setter, then [k];
    - [Read k]: reads the refs ([ref.current]) at this point;
    - [Fetch req k]: [await fetch(req)]; the request is issued at once,
      the function is suspended until the promise settles, and resumes
      with the response or with the rejection;
    - [Decode buf k]: [await ctx.decodeAudioData(buf)], likewise;
    - [Tick k]: an [await] on a promise of the platform whose value the
      caller already determined ([response.text()], [response.blob()],
      [blob.arrayBuffer()]): a suspension point and nothing else;
    - [ReadAsDataURL b onloadend k]: [reader.onloadend = ...;
      reader.readAsDataURL(b)]; returns at once, the handler runs later
      with [reader.result]. *)
Inductive Task (A : Type) : Type :=
| Ret (a : A)
| Throw (e : Thrown)
| Modify (f : St -> St) (k : Task A)
| Read (k : Refs -> Task A)
| Fetch (req : Request) (k : Thrown + Response -> Task A)
| Decode (buf : list byte) (k : Thrown + AudioBuffer -> Task A)
| Tick (k : Task A)
| ReadAsDataURL (b : Blob) (onloadend : option string -> St -> St) (k : Task A).

Arguments Ret {A} a.
Arguments Throw {A} e.
Arguments Modify {A} f k.
Arguments Read {A} k.
Arguments Fetch {A} req k.
Arguments Decode {A} buf k.
Arguments Tick {A} k.
Arguments ReadAsDataURL {A} b onloadend k.

(** Sequencing: [t] then [k] on its result; a throw skips [k]. *)
Fixpoint bind {A B : Type} (t : Task A) (k : A -> Task B) : Task B :=
  match t with
  | Ret a => k a
  | Throw e => Throw e
  | Modify f t' => Modify f (bind t' k)
  | Read t' => Read (fun r => bind (t' r) k)
  | Fetch req t' => Fetch req (fun x => bind (t' x) k)
  | Decode buf t' => Decode buf (fun x => bind (t' x) k)
  | Tick t' => Tick (bind t' k)
  | ReadAsDataURL b h t' => ReadAsDataURL b h (bind t' k)
  end.

(** [try { t } catch (e) { handler e }].  The handler of a file reader
    registered inside [t] runs in a later task, outside the [try]. *)
Fixpoint try_catch {A : Type} (t : Task A) (handler : Thrown -> Task A) : Task A :=
  match t with
  | Ret a => Ret a
  | Throw e => handler e
  | Modify f t' => Modify f (try_catch t' handler)
  | Read t' => Read (fun r => try_catch (t' r) handler)
  | Fetch req t' => Fetch req (fun x => try_catch (t' x) handler)
  | Decode buf t' => Decode buf (fun x => try_catch (t' x) handler)
  | Tick t' => Tick (try_catch t' handler)
  | ReadAsDataURL b h t' => ReadAsDataURL b h (try_catch t' handler)
  end.

(** [try { t } finally { fin }]: [fin] runs on both exits and the
    completion of [t] is kept. *)
Definition finally {A : Type} (t : Task A) (fin : Task unit) : Task A :=
  bind (try_catch t (fun e => bind fin (fun _ => Throw e)))
       (fun a => bind fin (fun _ => Ret a)).

Definition try_catch_finally {A : Type}
    (t : Task A) (handler : Thrown -> Task A) (fin : Task unit) : Task A :=
  finally (try_catch t handler) fin.

(** [await p] for a promise that settles with [x]: a rejection is
    thrown at the [await]. *)
Definition settled {A : Type} (x : Thrown + A) : Task A :=
  match x with
  | inl e => Throw e
  | inr a => Ret a
  end.

Definition fetch (req : Request) : Task Response := Fetch req settled.
Definition decodeAudioData (buf : list byte) : Task AudioBuffer := Decode buf settled.
Definition await {A : Type} (a : A) : Task A := Tick (Ret a).
Definition set (f : St -> St) : Task unit := Modify f (Ret tt).
Definition throw {A : Type} (e : Thrown) : Task A := Throw e.

(** A suspended async function: what it waits for and how it resumes. *)
Inductive Suspended : Type :=
| OnFetch (req : Request) (k : Thrown + Response -> Task unit)
| OnDecode (buf : list byte) (k : Thrown + AudioBuffer -> Task unit)
| OnTick (k : Task unit).

(** A hook instance between two synchronous segments. *)
Record Sched : Type := mkSched {
  refs : Refs;
  state : St;
  suspended : list Suspended;
  readers : list (Blob * (option string -> St -> St));
  outbound : list Request
}.

Definition with_state (s : Sched) (st : St) : Sched :=
  {| refs := refs s; state := st; suspended := suspended s;
     readers := readers s; outbound := outbound s |}.

Definition with_refs (s : Sched) (r : Refs) : Sched :=
  {| refs := r; state := state s; suspended := suspended s;
     readers := readers s; outbound := outbound s |}.

Definition with_suspended (s : Sched) (l : list Suspended) : Sched :=
  {| refs := refs s; state := state s; suspended := l;
     readers := readers s; outbound := outbound s |}.

Definition with_readers (s : Sched) (l : list (Blob * (option string -> St -> St))) : Sched :=
  {| refs := refs s; state := state s; suspended := suspended s;
     readers := l; outbound := outbound s |}.

Definition suspend (s : Sched) (w : Suspended) : Sched :=
  with_suspended s (suspended s ++ [w]).

Definition issue (s : Sched) (req : Request) : Sched :=
  {| refs := refs s; state := state s; suspended := suspended s;
     readers := readers s; outbound := outbound s ++ [req] |}.

(** One synchronous segment: runs [t] up to its next suspension point.
    A throw that reaches the top rejects the promise of the async
    function; nobody awaits it, the instance is left as it is. *)
Fixpoint run_sync (t : Task unit) (s : Sched) : Sched :=
  match t with
  | Ret _ => s
  | Throw _ => s
  | Modify f k => run_sync k (with_state s (f (state s)))
  | Read k => run_sync (k (refs s)) s
  | Fetch req k => suspend (issue s req) (OnFetch req k)
  | Decode buf k => suspend s (OnDecode buf k)
  | Tick k => suspend s (OnTick k)
  | ReadAsDataURL b h k => run_sync k (with_readers s (readers s ++ [(b, h)]))
  end.

Fixpoint remove_nth {A : Type} (i : nat) (l : list A) : list A :=
  match i, l with
  | _, [] => []
  | O, _ :: l' => l'
  | S i', x :: l' => x :: remove_nth i' l'
  end.

(** The [i]-th suspended function is a [fetch] and its promise settles
    with [x]. *)
Definition fetch_settles (i : nat) (x : Thrown + Response) (s : Sched) : option Sched :=
  match nth_error (suspended s) i with
  | Some (OnFetch _ k) =>
      Some (run_sync (k x) (with_suspended s (remove_nth i (suspended s))))
  | _ => None
  end.

Definition decode_settles (i : nat) (x : Thrown + AudioBuffer) (s : Sched) : option Sched :=
  match nth_error (suspended s) i with
  | Some (OnDecode _ k) =>
      Some (run_sync (k x) (with_suspended s (remove_nth i (suspended s))))
  | _ => None
  end.

Definition resume (i : nat) (s : Sched) : option Sched :=
  match nth_error (suspended s) i with
  | Some (OnTick k) =>
      Some (run_sync k (with_suspended s (remove_nth i (suspended s))))
  | _ => None
  end.

End Tasks.

Arguments Ret {St Refs A} a.
Arguments Throw {St Refs A} e.
Arguments Modify {St Refs A} f k.
Arguments Read {St Refs A} k.
Arguments Fetch {St Refs A} req k.
Arguments Decode {St Refs A} buf k.
Arguments Tick {St Refs A} k.
Arguments ReadAsDataURL {St Refs A} b onloadend k.
Arguments bind {St Refs A B} t k.
Arguments try_catch {St Refs A} t handler.
Arguments finally {St Refs A} t fin.
Arguments try_catch_finally {St Refs A} t handler fin.
Arguments settled {St Refs A} x.
Arguments fetch {St Refs} req.
Arguments decodeAudioData {St Refs} buf.
Arguments await {St Refs A} a.
Arguments set {St Refs} f.
Arguments throw {St Refs A} e.
Arguments OnFetch {St Refs} req k.
Arguments OnDecode {St Refs} buf k.
Arguments OnTick {St Refs} k.
Arguments mkSched {St Refs}.
Arguments refs {St Refs} s.
Arguments state {St Refs} s.
Arguments suspended {St Refs} s.
Arguments readers {St Refs} s.
Arguments outbound {St Refs} s.
Arguments with_state {St Refs} s st.
Arguments with_refs {St Refs} s r.
Arguments with_suspended {St Refs} s l.
Arguments with_readers {St Refs} s l.
Arguments suspend {St Refs} s w.
Arguments issue {St Refs} s req.
Arguments run_sync {St Refs} t s.
Arguments fetch_settles {St Refs} i x s.
Arguments decode_settles {St Refs} i x s.
Arguments resume {St Refs} i s.

Declare Scope task_scope.
Delimit Scope task_scope with task.
Notation "x <- t ;; k" := (bind t (fun x => k))
  (at level 61, t at next level, right associativity) : task_scope.
Notation "t ;; k" := (bind t (fun _ => k))
  (at level 61, right associativity) : task_scope.

End Async.
Export Async.

(** ** [FileReader.readAsDataURL]: the blob embedded in a [data:] URL *)

Module DataURL.

(** A group of six bits, most significant first. *)
Definition Sextet : Type := (bool * bool * bool * bool * bool * bool)%type.

Definition bit (b : bool) : nat := if b then 1 else 0.

Definition sextet_index (s : Sextet) : nat :=
  let '(b5, b4, b3, b2, b1, b0) := s in
  (32 * bit b5 + 16 * bit b4 + 8 * bit b3 + 4 * bit b2 + 2 * bit b1 + bit b0)%nat.

Definition sextet_of_index (n : nat) : Sextet :=
  (Nat.testbit n 5, Nat.testbit n 4, Nat.testbit n 3,
   Nat.testbit n 2, Nat.testbit n 1, Nat.testbit n 0).

(** The base64 alphabet of RFC 4648. *)
Definition alphabet : string :=
  "ABCDEFGHIJKLMNOPQRSTUVWXYZabcdefghijklmnopqrstuvwxyz0123456789+/".

Definition pad : ascii := "="%char.

Definition encode_sextet (s : Sextet) : ascii :=
  match String.get (sextet_index s) alphabet with
  | Some c => c
  | None => pad
  end.

Fixpoint index_from (n : nat) (c : ascii) (s : string) : option nat :=
  match s with
  | EmptyString => None
  | String a rest => if Ascii.eqb a c then Some n else index_from (S n) c rest
  end.

Definition decode_char (c : ascii) : option Sextet :=
  match index_from 0 c alphabet with
  | Some n => Some (sextet_of_index n)
  | None => None
  end.

(** Three bytes are four sextets.  [Byte.to_bits] lists the bits of a
    byte least significant first. *)
Definition sextets3 (a b c : byte) : Sextet * Sextet * Sextet * Sextet :=
  let '(a0, (a1, (a2, (a3, (a4, (a5, (a6, a7))))))) := Byte.to_bits a in
  let '(b0, (b1, (b2, (b3, (b4, (b5, (b6, b7))))))) := Byte.to_bits b in
  let '(c0, (c1, (c2, (c3, (c4, (c5, (c6, c7))))))) := Byte.to_bits c in
  ((a7, a6, a5, a4, a3, a2),
   (a1, a0, b7, b6, b5, b4),
   (b3, b2, b1, b0, c7, c6),
   (c5, c4, c3, c2, c1, c0)).

Definition bytes3 (w x y z : Sextet) : byte * byte * byte :=
  let '(a7, a6, a5, a4, a3, a2) := w in
  let '(a1, a0, b7, b6, b5, b4) := x in
  let '(b3, b2, b1, b0, c7, c6) := y in
  let '(c5, c4, c3, c2, c1, c0) := z in
  (Byte.of_bits (a0, (a1, (a2, (a3, (a4, (a5, (a6, a7))))))),
   Byte.of_bits (b0, (b1, (b2, (b3, (b4, (b5, (b6, b7))))))),
   Byte.of_bits (c0, (c1, (c2, (c3, (c4, (c5, (c6, c7)))))))).

Definition zero : Sextet := (false, false, false, false, false, false).

(** Base64 with padding, as [readAsDataURL] writes it. *)
Fixpoint btoa (l : list byte) : string :=
  match l with
  | [] => EmptyString
  | [a] =>
      let '(w, x, _, _) := sextets3 a x00 x00 in
      String (encode_sextet w) (String (encode_sextet x) (String pad (String pad EmptyString)))
  | [a; b] =>
      let '(w, x, y, _) := sextets3 a b x00 in
      String (encode_sextet w) (String (encode_sextet x)
        (String (encode_sextet y) (String pad EmptyString)))
  | a :: b :: c :: rest =>
      let '(w, x, y, z) := sextets3 a b c in
      String (encode_sextet w) (String (encode_sextet x)
        (String (encode_sextet y) (String (encode_sextet z) (btoa rest))))
  end.

Definition is_empty (s : string) : bool :=
  match s with EmptyString => true | _ => false end.

(** The decoder: four characters give three bytes; a group that ends in
    one or two [=] is the last one and gives two bytes or one. *)
Fixpoint atob (s : string) : option (list byte) :=
  match s with
  | EmptyString => Some []
  | String c1 (String c2 (String c3 (String c4 rest))) =>
      match decode_char c1, decode_char c2 with
      | Some w, Some x =>
          match decode_char c3, decode_char c4 with
          | Some y, Some z =>
              match atob rest with
              | Some l => let '(a, b, c) := bytes3 w x y z in Some (a :: b :: c :: l)
              | None => None
              end
          | Some y, None =>
              if Ascii.eqb c4 pad && is_empty rest
              then let '(a, b, _) := bytes3 w x y zero in Some [a; b]
              else None
          | None, _ =>
              if Ascii.eqb c3 pad && Ascii.eqb c4 pad && is_empty rest
              then let '(a, _, _) := bytes3 w x zero zero in Some [a]
              else None
          end
      | _, _ => None
      end
  | _ => None
  end.

(** [reader.result] after a successful [readAsDataURL(b)], as the File API
    defines it: the media type of the blob and the base64 text of its
    bytes. *)
Definition readAsDataURL (b : Blob) : string :=
  "data:" ++ blobType b ++ ";base64," ++ btoa (blobBytes b).

(** The part of [s] after its last occurrence of [c], if [c] occurs. *)
Fixpoint after_last (c : ascii) (s : string) : option string :=
  match s with
  | EmptyString => None
  | String a rest =>
      match after_last c rest with
      | Some r => Some r
      | None => if Ascii.eqb a c then Some rest else None
      end
  end.

(** Re-extraction of the bytes of a [data:] URL with a base64 payload:
    the payload follows the last comma (no base64 character is a comma). *)
Definition dataUrlBytes (u : string) : option (list byte) :=
  if String.prefix "data:" u then
    match after_last ","%char u with
    | Some p => atob p
    | None => None
    end
  else None.

End DataURL.
Export DataURL.

(** ** The state machine of the specification *)

Inductive GenerationState : Type := Idle | InFlight | Ready | Failed.

Definition is_some {A : Type} (o : option A) : bool :=
  match o with Some _ => true | None => false end.

(** The state a consumer reads off the values a hook returns, in the order
    in which [TTSTestAnimation] tests them: the loading indicator while
    [isGenerating], the error box when [error] is set, the audio element
    when [narrationAudioPath] is set, the manual button otherwise. *)
Definition classify (isGenerating : bool) (error narrationAudioPath : option string)
  : GenerationState :=
  if isGenerating then InFlight
  else if is_some error then Failed
  else if is_some narrationAudioPath then Ready
  else Idle.

(** ** The cloud backend: [SpeechifyService] and [useSpeechifyTTS] *)

Module Speechify.

Local Open Scope string_scope.
Local Open Scope task_scope.

(** [SpeechifyConfig] (the optional [voiceId] and [language] are never
    read by the class). *)
Record SpeechifyConfig : Type := mkSpeechifyConfig {
  config_apiKey : string
}.

Record SpeechifyService : Type := mkSpeechifyService {
  apiKey : string;
  baseUrl : string
}.

(** [new SpeechifyService(config)] *)
Definition new_SpeechifyService (config : SpeechifyConfig) : SpeechifyService :=
  {| apiKey := config_apiKey config;
     baseUrl := "https://api.sws.speechify.com" |}.

Section Service.

Context {St Refs : Type}.

(** [SpeechifyService.textToSpeech(text, voiceId?, language?)].  The
    [catch] of the method logs and rethrows. *)
Definition textToSpeech (this : SpeechifyService)
    (text : string) (voiceId language : option string) : Task St Refs Blob :=
  try_catch
    (let url := baseUrl this ++ "/v1/audio/stream" in
     response <- fetch {|
       url := url;
       method := "POST";
       headers := [ ("Authorization", "Bearer " ++ apiKey this);
                    ("Content-Type", "application/json");
                    ("Accept", "audio/mpeg") ];
       body := Some [ ("input", JString text);
                      ("voice_id", JString (or_default voiceId "default"));
                      ("language", JString (or_default language "en-US")) ] |} ;;
     if negb (ok response) then
       errorText <- await (text_of response) ;;
       throw (JsError ("Speechify API error: " ++ Number_toString (status response)
                       ++ " " ++ statusText response ++ " - " ++ errorText))
     else
       await (blob_of response))
    (fun error => throw error).

End Service.

(** The [useState] cells of [useSpeechifyTTS]. *)
Record State : Type := mkState {
  narrationAudioPath : option string;
  isGenerating : bool;
  speechDuration : Q;
  error : option string
}.

(** The [useRef] cells. *)
Record Refs : Type := mkRefs {
  speechifyServiceRef : option SpeechifyService;
  audioContextRef : option AudioContext
}.

Definition setNarrationAudioPath (v : option string) (s : State) : State :=
  {| narrationAudioPath := v; isGenerating := isGenerating s;
     speechDuration := speechDuration s; error := error s |}.

Definition setIsGenerating (v : bool) (s : State) : State :=
  {| narrationAudioPath := narrationAudioPath s; isGenerating := v;
     speechDuration := speechDuration s; error := error s |}.

Definition setSpeechDuration (v : Q) (s : State) : State :=
  {| narrationAudioPath := narrationAudioPath s; isGenerating := isGenerating s;
     speechDuration := v; error := error s |}.

Definition setError (v : option string) (s : State) : State :=
  {| narrationAudioPath := narrationAudioPath s; isGenerating := isGenerating s;
     speechDuration := speechDuration s; error := v |}.

(** [UseSpeechifyTTSConfig]: the argument of the hook. *)
Record UseSpeechifyTTSConfig : Type := mkConfig {
  text : string;
  voiceId : option string;
  language : option string;
  autoGenerate : option bool
}.

(** The constants of one render of the hook: the destructured argument
    with its defaults ([voiceId = 'oliver'], [language = 'en-US'],
    [autoGenerate = true]) and the values [useState] returned.  The
    callbacks and effects created by a render read these constants; a
    setter never changes them, it changes what the next render sees. *)
Record Scope : Type := mkScope {
  r_text : string;
  r_voiceId : string;
  r_language : string;
  r_autoGenerate : bool;
  seen : State
}.

Definition render (cfg : UseSpeechifyTTSConfig) (st : State) : Scope :=
  {| r_text := text cfg;
     r_voiceId := nullish (voiceId cfg) "oliver";
     r_language := nullish (language cfg) "en-US";
     r_autoGenerate := nullish (autoGenerate cfg) true;
     seen := st |}.

(** [generateSpeech], as created by the render with constants [sc]:
    [useCallback] makes a new callback whenever [text], [voiceId],
    [language] or [isGenerating] changed, so the callback a render returns
    holds the constants of that render.  The guard reads the service ref as
    it is at the call, and [isGenerating] and [text] as the render saw
    them. *)
Definition generateSpeech (sc : Scope) : Task State Refs unit :=
  Read (fun r =>
    match speechifyServiceRef r with
    | None => Ret tt
    | Some service =>
      if isGenerating (seen sc) || negb (truthy (r_text sc)) then Ret tt else
      set (setIsGenerating true) ;;
      set (setError None) ;;
      try_catch_finally
        (audioBlob <- textToSpeech service (r_text sc)
                        (Some (r_voiceId sc)) (Some (r_language sc)) ;;
         arrayBuffer <- await (blobBytes audioBlob) ;;
         Read (fun r' =>
           match audioContextRef r' with
           | Some _ =>
               audioBuffer <- decodeAudioData arrayBuffer ;;
               set (setSpeechDuration (duration audioBuffer))
           | None => Ret tt
           end) ;;
         ReadAsDataURL audioBlob (fun result => setNarrationAudioPath result) (Ret tt))
        (fun err => set (setError (Some (errorMessage err))))
        (set (setIsGenerating false))
    end).

(** The first effect ([[]] dependencies): runs once, after the first
    render.  [SPEECHIFY_CONFIG] is the module-level configuration. *)
Definition initEffect (SPEECHIFY_CONFIG : SpeechifyConfig)
    (s : Sched State Refs) : Sched State Refs :=
  let s1 :=
    if truthy (config_apiKey SPEECHIFY_CONFIG) then
      with_refs s {| speechifyServiceRef :=
                       Some (new_SpeechifyService
                               {| config_apiKey := config_apiKey SPEECHIFY_CONFIG |});
                     audioContextRef := audioContextRef (refs s) |}
    else
      with_state s (setError (Some "Speechify API key not configured") (state s)) in
  with_refs s1 {| speechifyServiceRef := speechifyServiceRef (refs s1);
                  audioContextRef := Some mkAudioContext |}.

(** The condition under which the second effect calls [generateSpeech]. *)
Definition autoGenerateCondition (sc : Scope) (r : Refs) : bool :=
  r_autoGenerate sc && is_some (speechifyServiceRef r) && truthy (r_text sc)
  && negb (truthy_opt (narrationAudioPath (seen sc))) && negb (isGenerating (seen sc)).

Definition autoGenerateEffect (sc : Scope) (s : Sched State Refs) : Sched State Refs :=
  if autoGenerateCondition sc (refs s) then run_sync (generateSpeech sc) s else s.

Definition option_eqb {A : Type} (eqb : A -> A -> bool) (a b : option A) : bool :=
  match a, b with
  | Some x, Some y => eqb x y
  | None, None => true
  | _, _ => false
  end.

(** Whether the dependencies of the second effect, [[autoGenerate, text,
    narrationAudioPath, isGenerating, generateSpeech]], are the same in two
    renders; [generateSpeech] is the same callback when its own
    dependencies [[text, voiceId, language, isGenerating]] are. *)
Definition same_deps (a b : Scope) : bool :=
  Bool.eqb (r_autoGenerate a) (r_autoGenerate b)
  && String.eqb (r_text a) (r_text b)
  && option_eqb String.eqb (narrationAudioPath (seen a)) (narrationAudioPath (seen b))
  && Bool.eqb (isGenerating (seen a)) (isGenerating (seen b))
  && String.eqb (r_voiceId a) (r_voiceId b)
  && String.eqb (r_language a) (r_language b).

(** A mounted or not yet mounted instance of the hook: [scope] holds the
    constants of the latest render. *)
Record Hook : Type := mkHook {
  sched : Sched State Refs;
  scope : option Scope
}.

(** Before the first render: the initial values of the cells. *)
Definition initialState : State :=
  {| narrationAudioPath := None; isGenerating := false;
     speechDuration := 0; error := None |}.

Definition unmounted : Hook :=
  {| sched := {| refs := {| speechifyServiceRef := None; audioContextRef := None |};
                 state := initialState; suspended := []; readers := [];
                 outbound := [] |};
     scope := None |}.

Inductive Event : Type :=
| Mount (SPEECHIFY_CONFIG : SpeechifyConfig) (cfg : UseSpeechifyTTSConfig)
| Render (cfg : UseSpeechifyTTSConfig)
| Call
| FetchSettles (i : nat) (x : Thrown + Response)
| DecodeSettles (i : nat) (x : Thrown + AudioBuffer)
| Resume (i : nat)
| LoadEnd (j : nat) (success : bool).

(** The [j]-th pending reader ends: [onloadend] runs with [reader.result],
    the data URL, or [null] when the read failed. *)
Definition load_end (j : nat) (success : bool) (s : Sched State Refs)
  : option (Sched State Refs) :=
  match nth_error (readers s) j with
  | Some (b, onloadend) =>
      let result := if success then Some (readAsDataURL b) else None in
      Some (with_state (with_readers s (remove_nth j (readers s)))
                       (onloadend result (state s)))
  | None => None
  end.

Definition on_sched (h : Hook) (s : option (Sched State Refs)) : option Hook :=
  match s with
  | Some s' => Some {| sched := s'; scope := scope h |}
  | None => None
  end.

(** One event of the life of an instance.
    - [Mount]: the first render, then both effects, in source order.
    - [Render]: a later render; the second effect runs when one of its
      dependencies changed.
    - [Call]: the consumer calls the [generateSpeech] that the latest
      render returned. *)
Definition step (h : Hook) (e : Event) : option Hook :=
  match e, scope h with
  | Mount SPEECHIFY_CONFIG cfg, None =>
      let sc := render cfg (state (sched h)) in
      Some {| sched := autoGenerateEffect sc (initEffect SPEECHIFY_CONFIG (sched h));
              scope := Some sc |}
  | Mount _ _, Some _ => None
  | _, None => None
  | Render cfg, Some old =>
      let sc := render cfg (state (sched h)) in
      Some {| sched := if same_deps old sc then sched h
                       else autoGenerateEffect sc (sched h);
              scope := Some sc |}
  | Call, Some sc => on_sched h (Some (run_sync (generateSpeech sc) (sched h)))
  | FetchSettles i x, Some _ => on_sched h (fetch_settles i x (sched h))
  | DecodeSettles i x, Some _ => on_sched h (decode_settles i x (sched h))
  | Resume i, Some _ => on_sched h (resume i (sched h))
  | LoadEnd j success, Some _ => on_sched h (load_end j success (sched h))
  end.

Fixpoint run (h : Hook) (es : list Event) : option Hook :=
  match es with
  | [] => Some h
  | e :: es' =>
      match step h e with
      | Some h' => run h' es'
      | None => None
      end
  end.

(** The state of the specification, read off the committed cells. *)
Definition generationState (h : Hook) : GenerationState :=
  let st := state (sched h) in
  classify (isGenerating st) (error st) (narrationAudioPath st).

(** The requests to the synthesis endpoint among those handed to [fetch]. *)
Definition is_synthesize (req : Request) : bool :=
  String.eqb (method req) "POST".

Definition synthesize_calls (h : Hook) : list Request :=
  filter is_synthesize (outbound (sched h)).

End Speechify.

(** ** The local backend: [HiggsAudioService] and [useHiggsAudio] *)

Module Higgs.

Local Open Scope string_scope.
Local Open Scope task_scope.

(** [HiggsAudioConfig]; [None] is a property that is not given. *)
Record HiggsAudioConfig : Type := mkHiggsAudioConfig {
  config_baseUrl : option string;
  config_modelPath : option string;
  config_audioTokenizerPath : option string;
  config_temperature : option Q;
  config_topP : option Q;
  config_topK : option Q;
  config_maxNewTokens : option Q
}.

Record HiggsAudioService : Type := mkHiggsAudioService {
  baseUrl : string;
  modelPath : string;
  audioTokenizerPath : string;
  temperature : Q;
  topP : Q;
  topK : Q;
  maxNewTokens : Q
}.

(** [new HiggsAudioService(config)]: every missing option gets its
    default; the trailing [...config] writes the given ones again. *)
Definition new_HiggsAudioService (config : HiggsAudioConfig) : HiggsAudioService :=
  {| baseUrl := or_default (config_baseUrl config) "http://localhost:8000";
     modelPath := or_default (config_modelPath config)
                    "bosonai/higgs-audio-v2-generation-3B-base";
     audioTokenizerPath := or_default (config_audioTokenizerPath config)
                             "bosonai/higgs-audio-v2-tokenizer";
     temperature := nullish (config_temperature config) (3 # 10);
     topP := nullish (config_topP config) (95 # 100);
     topK := nullish (config_topK config) 50;
     maxNewTokens := nullish (config_maxNewTokens config) 1024 |}.

(** The [options] argument of [textToSpeech]. *)
Record Options : Type := mkOptions {
  opt_refAudio : option string;
  opt_temperature : option Q;
  opt_topP : option Q;
  opt_topK : option Q;
  opt_maxNewTokens : option Q
}.

Section Service.

Context {St Refs : Type}.

(** [HiggsAudioService.textToSpeech(text, options)].  The [catch] of
    the method logs and rethrows. *)
Definition textToSpeech (this : HiggsAudioService)
    (text : string) (options : Options) : Task St Refs Blob :=
  try_catch
    (let url := baseUrl this ++ "/v1/audio/generate" in
     let requestBody :=
       [ ("text", JString text);
         ("ref_audio", opt_string (opt_refAudio options));
         ("temperature", JNumber (nullish (opt_temperature options) (temperature this)));
         ("top_p", JNumber (nullish (opt_topP options) (topP this)));
         ("top_k", JNumber (nullish (opt_topK options) (topK this)));
         ("max_new_tokens",
           JNumber (nullish (opt_maxNewTokens options) (maxNewTokens this))) ] in
     response <- fetch {|
       url := url;
       method := "POST";
       headers := [ ("Content-Type", "application/json");
                    ("Accept", "audio/wav") ];
       body := Some requestBody |} ;;
     if negb (ok response) then
       errorText <- await (text_of response) ;;
       throw (JsError ("Higgs Audio API error: " ++ Number_toString (status response)
                       ++ " " ++ statusText response ++ " - " ++ errorText))
     else
       await (blob_of response))
    (fun error => throw error).

(** [HiggsAudioService.checkHealth()]: never throws. *)
Definition checkHealth (this : HiggsAudioService) : Task St Refs bool :=
  try_catch
    (response <- fetch {| url := baseUrl this ++ "/health";
                          method := "GET";
                          headers := [];
                          body := None |} ;;
     Ret (ok response))
    (fun _ => Ret false).

End Service.

(** The [useState] cells of [useHiggsAudio]. *)
Record State : Type := mkState {
  narrationAudioPath : option string;
  isGenerating : bool;
  speechDuration : Q;
  error : option string;
  isServerAvailable : bool
}.

Record Refs : Type := mkRefs {
  higgsServiceRef : option HiggsAudioService;
  audioContextRef : option AudioContext
}.

Definition setNarrationAudioPath (v : option string) (s : State) : State :=
  {| narrationAudioPath := v; isGenerating := isGenerating s;
     speechDuration := speechDuration s; error := error s;
     isServerAvailable := isServerAvailable s |}.

Definition setIsGenerating (v : bool) (s : State) : State :=
  {| narrationAudioPath := narrationAudioPath s; isGenerating := v;
     speechDuration := speechDuration s; error := error s;
     isServerAvailable := isServerAvailable s |}.

Definition setSpeechDuration (v : Q) (s : State) : State :=
  {| narrationAudioPath := narrationAudioPath s; isGenerating := isGenerating s;
     speechDuration := v; error := error s;
     isServerAvailable := isServerAvailable s |}.

Definition setError (v : option string) (s : State) : State :=
  {| narrationAudioPath := narrationAudioPath s; isGenerating := isGenerating s;
     speechDuration := speechDuration s; error := v;
     isServerAvailable := isServerAvailable s |}.

Definition setIsServerAvailable (v : bool) (s : State) : State :=
  {| narrationAudioPath := narrationAudioPath s; isGenerating := isGenerating s;
     speechDuration := speechDuration s; error := error s;
     isServerAvailable := v |}.

(** [UseHiggsAudioConfig]: the argument of the hook. *)
Record UseHiggsAudioConfig : Type := mkConfig {
  text : string;
  refAudio : option string;
  cfg_temperature : option Q;
  cfg_topP : option Q;
  cfg_topK : option Q;
  cfg_maxNewTokens : option Q;
  autoGenerate : option bool
}.

(** The constants of one render: the destructured argument (only
    [autoGenerate] has a default) and the values [useState] returned. *)
Record Scope : Type := mkScope {
  r_text : string;
  r_options : Options;
  r_autoGenerate : bool;
  seen : State
}.

Definition render (cfg : UseHiggsAudioConfig) (st : State) : Scope :=
  {| r_text := text cfg;
     r_options := {| opt_refAudio := refAudio cfg;
                     opt_temperature := cfg_temperature cfg;
                     opt_topP := cfg_topP cfg;
                     opt_topK := cfg_topK cfg;
                     opt_maxNewTokens := cfg_maxNewTokens cfg |};
     r_autoGenerate := nullish (autoGenerate cfg) true;
     seen := st |}.

Definition unavailable : string :=
  "Higgs Audio server is not available. Please ensure the local server is running.".

(** [generateSpeech], as created by the render with constants [sc] (its
    [useCallback] dependencies are [text], the five options and
    [isGenerating]). *)
Definition generateSpeech (sc : Scope) : Task State Refs unit :=
  Read (fun r =>
    match higgsServiceRef r with
    | None => Ret tt
    | Some service =>
      if isGenerating (seen sc) || negb (truthy (r_text sc)) then Ret tt else
      set (setIsGenerating true) ;;
      set (setError None) ;;
      try_catch_finally
        (isAvailable <- checkHealth service ;;
         (if negb isAvailable then throw (JsError unavailable) else Ret tt) ;;
         set (setIsServerAvailable true) ;;
         audioBlob <- textToSpeech service (r_text sc) (r_options sc) ;;
         arrayBuffer <- await (blobBytes audioBlob) ;;
         Read (fun r' =>
           match audioContextRef r' with
           | Some _ =>
               audioBuffer <- decodeAudioData arrayBuffer ;;
               set (setSpeechDuration (duration audioBuffer))
           | None => Ret tt
           end) ;;
         ReadAsDataURL audioBlob (fun result => setNarrationAudioPath result) (Ret tt))
        (fun err =>
           set (setError (Some (errorMessage err))) ;;
           set (setIsServerAvailable false))
        (set (setIsGenerating false))
    end).

(** The first effect ([[]] dependencies).  [HIGGS_CONFIG] is the
    module-level configuration ([config/higgs.config], not part of the
    sources): its five options are passed to the constructor. *)
Definition initEffect (HIGGS_CONFIG : HiggsAudioConfig)
    (s : Sched State Refs) : Sched State Refs :=
  let service :=
    new_HiggsAudioService
      {| config_baseUrl := config_baseUrl HIGGS_CONFIG;
         config_modelPath := None;
         config_audioTokenizerPath := None;
         config_temperature := config_temperature HIGGS_CONFIG;
         config_topP := config_topP HIGGS_CONFIG;
         config_topK := config_topK HIGGS_CONFIG;
         config_maxNewTokens := config_maxNewTokens HIGGS_CONFIG |} in
  let s1 := with_refs s {| higgsServiceRef := Some service;
                           audioContextRef := audioContextRef (refs s) |} in
  let s2 := with_refs s1 {| higgsServiceRef := higgsServiceRef (refs s1);
                            audioContextRef := Some mkAudioContext |} in
  run_sync (isAvailable <- checkHealth service ;;
            set (setIsServerAvailable isAvailable)) s2.

(** The condition under which the second effect calls [generateSpeech]. *)
Definition autoGenerateCondition (sc : Scope) (r : Refs) : bool :=
  r_autoGenerate sc && is_some (higgsServiceRef r) && truthy (r_text sc)
  && negb (truthy_opt (narrationAudioPath (seen sc))) && negb (isGenerating (seen sc))
  && isServerAvailable (seen sc).

Definition autoGenerateEffect (sc : Scope) (s : Sched State Refs) : Sched State Refs :=
  if autoGenerateCondition sc (refs s) then run_sync (generateSpeech sc) s else s.

Definition option_eqb {A : Type} (eqb : A -> A -> bool) (a b : option A) : bool :=
  match a, b with
  | Some x, Some y => eqb x y
  | None, None => true
  | _, _ => false
  end.

Definition same_options (a b : Options) : bool :=
  option_eqb String.eqb (opt_refAudio a) (opt_refAudio b)
  && option_eqb Qeq_bool (opt_temperature a) (opt_temperature b)
  && option_eqb Qeq_bool (opt_topP a) (opt_topP b)
  && option_eqb Qeq_bool (opt_topK a) (opt_topK b)
  && option_eqb Qeq_bool (opt_maxNewTokens a) (opt_maxNewTokens b).

(** Whether the dependencies of the second effect, [[autoGenerate, text,
    narrationAudioPath, isGenerating, isServerAvailable, generateSpeech]],
    are the same in two renders; [generateSpeech] is the same callback
    when [[text, refAudio, temperature, topP, topK, maxNewTokens,
    isGenerating]] are. *)
Definition same_deps (a b : Scope) : bool :=
  Bool.eqb (r_autoGenerate a) (r_autoGenerate b)
  && String.eqb (r_text a) (r_text b)
  && option_eqb String.eqb (narrationAudioPath (seen a)) (narrationAudioPath (seen b))
  && Bool.eqb (isGenerating (seen a)) (isGenerating (seen b))
  && Bool.eqb (isServerAvailable (seen a)) (isServerAvailable (seen b))
  && same_options (r_options a) (r_options b).

Record Hook : Type := mkHook {
  sched : Sched State Refs;
  scope : option Scope
}.

Definition initialState : State :=
  {| narrationAudioPath := None; isGenerating := false;
     speechDuration := 0; error := None; isServerAvailable := false |}.

Definition unmounted : Hook :=
  {| sched := {| refs := {| higgsServiceRef := None; audioContextRef := None |};
                 state := initialState; suspended := []; readers := [];
                 outbound := [] |};
     scope := None |}.

Inductive Event : Type :=
| Mount (HIGGS_CONFIG : HiggsAudioConfig) (cfg : UseHiggsAudioConfig)
| Render (cfg : UseHiggsAudioConfig)
| Call
| FetchSettles (i : nat) (x : Thrown + Response)
| DecodeSettles (i : nat) (x : Thrown + AudioBuffer)
| Resume (i : nat)
| LoadEnd (j : nat) (success : bool).

Definition load_end (j : nat) (success : bool) (s : Sched State Refs)
  : option (Sched State Refs) :=
  match nth_error (readers s) j with
  | Some (b, onloadend) =>
      let result := if success then Some (readAsDataURL b) else None in
      Some (with_state (with_readers s (remove_nth j (readers s)))
                       (onloadend result (state s)))
  | None => None
  end.

Definition on_sched (h : Hook) (s : option (Sched State Refs)) : option Hook :=
  match s with
  | Some s' => Some {| sched := s'; scope := scope h |}
  | None => None
  end.

(** One event of the life of an instance (see [Speechify.step]). *)
Definition step (h : Hook) (e : Event) : option Hook :=
  match e, scope h with
  | Mount HIGGS_CONFIG cfg, None =>
      let sc := render cfg (state (sched h)) in
      Some {| sched := autoGenerateEffect sc (initEffect HIGGS_CONFIG (sched h));
              scope := Some sc |}
  | Mount _ _, Some _ => None
  | _, None => None
  | Render cfg, Some old =>
      let sc := render cfg (state (sched h)) in
      Some {| sched := if same_deps old sc then sched h
                       else autoGenerateEffect sc (sched h);
              scope := Some sc |}
  | Call, Some sc => on_sched h (Some (run_sync (generateSpeech sc) (sched h)))
  | FetchSettles i x, Some _ => on_sched h (fetch_settles i x (sched h))
  | DecodeSettles i x, Some _ => on_sched h (decode_settles i x (sched h))
  | Resume i, Some _ => on_sched h (resume i (sched h))
  | LoadEnd j success, Some _ => on_sched h (load_end j success (sched h))
  end.

Fixpoint run (h : Hook) (es : list Event) : option Hook :=
  match es with
  | [] => Some h
  | e :: es' =>
      match step h e with
      | Some h' => run h' es'
      | None => None
      end
  end.

Definition generationState (h : Hook) : GenerationState :=
  let st := state (sched h) in
  classify (isGenerating st) (error st) (narrationAudioPath st).

(** The requests to the synthesis endpoint among those handed to
    [fetch]; the liveness probe is a [GET]. *)
Definition is_synthesize (req : Request) : bool :=
  String.eqb (method req) "POST".

Definition synthesize_calls (h : Hook) : list Request :=
  filter is_synthesize (outbound (sched h)).

End Higgs.

(** ** Predicates on tasks, used to state invariants of an instance *)

Module Invariant.

Section Stable.

Variables St Refs : Type.

(** A predicate on the React state that no setter of [t] can break:
    every state update in [t], at any depth and after any answer of the
    environment, maps a state where [P] holds to one where it holds. *)
Variable P : St -> Prop.

Fixpoint stable {A : Type} (t : Task St Refs A) : Prop :=
  match t with
  | Ret _ => True
  | Throw _ => True
  | Modify f k => (forall st, P st -> P (f st)) /\ stable k
  | Read k => forall r, stable (k r)
  | Fetch _ k => forall x, stable (k x)
  | Decode _ k => forall x, stable (k x)
  | Tick k => stable k
  | ReadAsDataURL _ h k => (forall result st, P st -> P (h result st)) /\ stable k
  end.

Definition stable_suspended (w : Suspended St Refs) : Prop :=
  match w with
  | OnFetch _ k => forall x, stable (k x)
  | OnDecode _ k => forall x, stable (k x)
  | OnTick k => stable k
  end.

Definition stable_reader (bh : Blob * (option string -> St -> St)) : Prop :=
  forall result st, P st -> P (snd bh result st).

(** [P] holds now and nothing that is pending can break it. *)
Definition Stable (s : Sched St Refs) : Prop :=
  P (state s)
  /\ Forall stable_suspended (suspended s)
  /\ Forall stable_reader (readers s).

(** No [fetch] anywhere in [t]. *)
Fixpoint no_fetch {A : Type} (t : Task St Refs A) : Prop :=
  match t with
  | Ret _ => True
  | Throw _ => True
  | Modify _ k => no_fetch k
  | Read k => forall r, no_fetch (k r)
  | Fetch _ _ => False
  | Decode _ k => forall x, no_fetch (k x)
  | Tick k => no_fetch k
  | ReadAsDataURL _ _ k => no_fetch k
  end.

End Stable.

Arguments stable {St Refs} P {A} t.
Arguments stable_suspended {St Refs} P w.
Arguments stable_reader {St} P bh.
Arguments Stable {St Refs} P s.
Arguments no_fetch {St Refs A} t.

End Invariant.
Export Invariant.

(** ** Attempts and reachable instances *)

Module SpeechifyRuns.

Import Speechify.

(** The instances a mounted component can be in. *)
Definition reachable (h : Hook) : Prop :=
  exists es, run unmounted es = Some h.

(** The index the next suspended function will get, and the index of the
    next file reader. *)
Definition next_task (h : Hook) : nat := List.length (suspended (sched h)).
Definition next_reader (h : Hook) : nat := List.length (readers (sched h)).

(** One generation attempt in which every step succeeds: the call, the
    response [resp], the two platform promises ([response.blob()],
    [blob.arrayBuffer()]), the decoded buffer [ab], the end of the reader. *)
Definition success (h : Hook) (resp : Response) (ab : AudioBuffer) : list Event :=
  [ Call;
    FetchSettles (next_task h) (inr resp);
    Resume (next_task h);
    Resume (next_task h);
    DecodeSettles (next_task h) (inr ab);
    LoadEnd (next_reader h) true ].

(** The same attempt up to the point where [generateSpeech] returns: the
    reader has not ended yet. *)
Definition decoded (h : Hook) (resp : Response) (ab : AudioBuffer) : list Event :=
  [ Call;
    FetchSettles (next_task h) (inr resp);
    Resume (next_task h);
    Resume (next_task h);
    DecodeSettles (next_task h) (inr ab) ].

(** An attempt whose request is answered by [resp], an error response. *)
Definition backend_error (h : Hook) (resp : Response) : list Event :=
  [ Call; FetchSettles (next_task h) (inr resp); Resume (next_task h) ].

(** An attempt whose request does not reach the backend. *)
Definition transport_error (h : Hook) (e : Thrown) : list Event :=
  [ Call; FetchSettles (next_task h) (inl e) ].

(** An attempt whose audio cannot be decoded. *)
Definition decode_error (h : Hook) (resp : Response) (e : Thrown) : list Event :=
  [ Call;
    FetchSettles (next_task h) (inr resp);
    Resume (next_task h);
    Resume (next_task h);
    DecodeSettles (next_task h) (inl e) ].

(** The admission guard of [generateSpeech], on the constants of the
    latest render and the current service ref. *)
Definition admitted (h : Hook) : bool :=
  match scope h with
  | Some sc =>
      is_some (speechifyServiceRef (refs (sched h)))
      && negb (isGenerating (seen sc)) && truthy (r_text sc)
  | None => false
  end.

(** The message of the error a non-2xx response is turned into. *)
Definition api_error (resp : Response) : string :=
  ("Speechify API error: " ++ Number_toString (status resp)
     ++ " " ++ statusText resp ++ " - " ++ text_of resp)%string.

(** What the duration cell can hold: its initial value or the duration
    of a decoded buffer. *)
Definition duration_written (st : State) : Prop :=
  speechDuration st = 0 \/ exists ab, speechDuration st = duration ab.

End SpeechifyRuns.

Module HiggsRuns.

Import Higgs.

Definition reachable (h : Hook) : Prop :=
  exists es, run unmounted es = Some h.

Definition next_task (h : Hook) : nat := List.length (suspended (sched h)).
Definition next_reader (h : Hook) : nat := List.length (readers (sched h)).

(** What [checkHealth] returns when its request settles with [x]. *)
Definition health (x : Thrown + Response) : bool :=
  match x with
  | inr response => ok response
  | inl _ => false
  end.

(** One attempt in which every step succeeds: the call, the answer
    [probe] of the liveness probe, then as for the cloud backend. *)
Definition success (h : Hook) (probe resp : Response) (ab : AudioBuffer) : list Event :=
  [ Call;
    FetchSettles (next_task h) (inr probe);
    FetchSettles (next_task h) (inr resp);
    Resume (next_task h);
    Resume (next_task h);
    DecodeSettles (next_task h) (inr ab);
    LoadEnd (next_reader h) true ].

Definition decoded (h : Hook) (probe resp : Response) (ab : AudioBuffer) : list Event :=
  [ Call;
    FetchSettles (next_task h) (inr probe);
    FetchSettles (next_task h) (inr resp);
    Resume (next_task h);
    Resume (next_task h);
    DecodeSettles (next_task h) (inr ab) ].

(** An attempt whose liveness probe settles with [x]. *)
Definition probed (h : Hook) (x : Thrown + Response) : list Event :=
  [ Call; FetchSettles (next_task h) x ].

Definition backend_error (h : Hook) (probe resp : Response) : list Event :=
  [ Call;
    FetchSettles (next_task h) (inr probe);
    FetchSettles (next_task h) (inr resp);
    Resume (next_task h) ].

Definition transport_error (h : Hook) (probe : Response) (e : Thrown) : list Event :=
  [ Call;
    FetchSettles (next_task h) (inr probe);
    FetchSettles (next_task h) (inl e) ].

Definition decode_error (h : Hook) (probe resp : Response) (e : Thrown) : list Event :=
  [ Call;
    FetchSettles (next_task h) (inr probe);
    FetchSettles (next_task h) (inr resp);
    Resume (next_task h);
    Resume (next_task h);
    DecodeSettles (next_task h) (inl e) ].

Definition admitted (h : Hook) : bool :=
  match scope h with
  | Some sc =>
      is_some (higgsServiceRef (refs (sched h)))
      && negb (isGenerating (seen sc)) && truthy (r_text sc)
  | None => false
  end.

Definition api_error (resp : Response) : string :=
  ("Higgs Audio API error: " ++ Number_toString (status resp)
     ++ " " ++ statusText resp ++ " - " ++ text_of resp)%string.

Definition duration_written (st : State) : Prop :=
  speechDuration st = 0 \/ exists ab, speechDuration st = duration ab.

End HiggsRuns.

(** ** The order of publication: the handle after the duration *)

Module Publication.

Section Safe.

Variables St Refs : Type.

(** [R] holds of the refs of a mounted instance.  [Q] is a fact about the
    state that, once true, stays true; [J] is the invariant that a file
    reader may only touch once [Q] holds. *)
Variable R : Refs -> Prop.
Variables Q J : St -> Prop.

(** [safe known t]: every setter of [t] keeps [J] and keeps [Q]; and [t]
    starts a file reader only at a point where [Q] is known to hold: it
    held at the start of the segment ([known]) or a setter of the segment
    has established it.  What is known is forgotten at a suspension. *)
Fixpoint safe {A : Type} (known : bool) (t : Task St Refs A) : Prop :=
  match t with
  | Ret _ => True
  | Throw _ => True
  | Modify f k =>
      (forall st, J st -> J (f st))
      /\ (forall st, Q st -> Q (f st))
      /\ (safe known k \/ ((forall st, Q (f st)) /\ safe true k))
  | Read k => forall r, R r -> safe known (k r)
  | Fetch _ k => forall x, safe false (k x)
  | Decode _ k => forall x, safe false (k x)
  | Tick k => safe false k
  | ReadAsDataURL _ h k =>
      known = true
      /\ (forall result st, Q st -> J (h result st) /\ Q (h result st))
      /\ safe known k
  end.

Definition safe_suspended (w : Suspended St Refs) : Prop :=
  match w with
  | OnFetch _ k => forall x, safe false (k x)
  | OnDecode _ k => forall x, safe false (k x)
  | OnTick k => safe false k
  end.

Definition safe_reader (bh : Blob * (option string -> St -> St)) : Prop :=
  forall result st, Q st -> J (snd bh result st) /\ Q (snd bh result st).

(** The invariant of a mounted instance. *)
Definition Safe (s : Sched St Refs) : Prop :=
  R (refs s)
  /\ J (state s)
  /\ (readers s <> [] -> Q (state s))
  /\ Forall safe_suspended (suspended s)
  /\ Forall safe_reader (readers s).

End Safe.

Arguments safe {St Refs} R Q J {A} known t.
Arguments safe_suspended {St Refs} R Q J w.
Arguments safe_reader {St} Q J bh.
Arguments Safe {St Refs} R Q J s.

End Publication.

Module SpeechifyPublication.

Import Publication Speechify SpeechifyRuns.

Definition mounted (r : Refs) : Prop := audioContextRef r <> None.
Definition timed (st : State) : Prop := 0 < speechDuration st.
Definition handle_timed (st : State) : Prop :=
  narrationAudioPath st <> None -> 0 < speechDuration st.

(** Before the mount nothing is pending; after it the instance is safe. *)
Definition publication_invariant (h : Hook) : Prop :=
  match scope h with
  | None => suspended (sched h) = [] /\ readers (sched h) = []
            /\ handle_timed (state (sched h))
  | Some _ => Safe mounted timed handle_timed (sched h)
  end.

End SpeechifyPublication.

Module HiggsPublication.

Import Publication Higgs HiggsRuns.

Definition mounted (r : Refs) : Prop := audioContextRef r <> None.
Definition timed (st : State) : Prop := 0 < speechDuration st.
Definition handle_timed (st : State) : Prop :=
  narrationAudioPath st <> None -> 0 < speechDuration st.

(** Before the mount nothing is pending; after it the instance is safe. *)
Definition publication_invariant (h : Hook) : Prop :=
  match scope h with
  | None => suspended (sched h) = [] /\ readers (sched h) = []
            /\ handle_timed (state (sched h))
  | Some _ => Safe mounted timed handle_timed (sched h)
  end.

End HiggsPublication.

(** ** Concrete instances *)

Module Examples.

Local Open Scope string_scope.

Definition key : Speechify.SpeechifyConfig :=
{| Speechify.config_apiKey := "sk-test" |}.

(** A component that triggers by hand ([autoGenerate: false]). *)
Definition manual : Speechify.UseSpeechifyTTSConfig :=
{| Speechify.text := "Hello, this is a test.";
   Speechify.voiceId := None;
   Speechify.language := None;
   Speechify.autoGenerate := Some false |}.

Definition local_config : Higgs.HiggsAudioConfig :=
{| Higgs.config_baseUrl := None;
   Higgs.config_modelPath := None;
   Higgs.config_audioTokenizerPath := None;
   Higgs.config_temperature := None;
   Higgs.config_topP := None;
   Higgs.config_topK := None;
   Higgs.config_maxNewTokens := None |}.

Definition local_manual : Higgs.UseHiggsAudioConfig :=
{| Higgs.text := "Hello, this is a test.";
   Higgs.refAudio := None;
   Higgs.cfg_temperature := None;
   Higgs.cfg_topP := None;
   Higgs.cfg_topK := None;
   Higgs.cfg_maxNewTokens := None;
   Higgs.autoGenerate := Some false |}.

(** A two-second clip and the responses of a stub backend. *)
Definition two_seconds : AudioBuffer :=
{| bufferLength := 96000; sampleRate := 48000 |}.

Definition audio : Response :=
{| status := 200; statusText := "OK"; contentType := "audio/mpeg";
   payload := list_byte_of_string "RIFF-fixture" |}.

Definition healthy : Response :=
{| status := 200; statusText := "OK"; contentType := "application/json";
   payload := [] |}.

Definition overloaded : Response :=
{| status := 500; statusText := "Internal Server Error"; contentType := "text/plain";
   payload := list_byte_of_string "model overloaded" |}.

(** The cloud hook after its mount. *)
Definition cloud : Speechify.Hook :=
match Speechify.run Speechify.unmounted [Speechify.Mount key manual] with
| Some h => h
| None => Speechify.unmounted
end.

(** The local hook after its mount, once the probe of the mount has
    answered. *)
Definition local_mount : list Higgs.Event :=
[Higgs.Mount local_config local_manual; Higgs.FetchSettles 0 (inr healthy)].

Definition local : Higgs.Hook :=
match Higgs.run Higgs.unmounted local_mount with
| Some h => h
| None => Higgs.unmounted
end.

(** The cloud hook after one successful generation and the render that
    follows it. *)
Definition cloud_ready_events : list Speechify.Event :=
Speechify.Mount key manual :: SpeechifyRuns.success cloud audio two_seconds
  ++ [Speechify.Render manual].

Definition cloud_ready : Speechify.Hook :=
match Speechify.run Speechify.unmounted cloud_ready_events with
| Some h => h
| None => Speechify.unmounted
end.

Definition local_ready_events : list Higgs.Event :=
local_mount ++ HiggsRuns.success local healthy audio two_seconds
  ++ [Higgs.Render local_manual].

Definition local_ready : Higgs.Hook :=
match Higgs.run Higgs.unmounted local_ready_events with
| Some h => h
| None => Higgs.unmounted
end.

End Examples.

(** ** Attempts by their answers, and the example configuration *)

Module SpeechifyAttempts.

Import Speechify SpeechifyRuns.

Local Open Scope string_scope.

(** [config/speechify.config.example.ts]: the key is
    [process.env.REMOTION_SPEECHIFY_API_KEY || '']. *)
Definition SPEECHIFY_CONFIG (REMOTION_SPEECHIFY_API_KEY : option string) : SpeechifyConfig :=
{| config_apiKey := or_default REMOTION_SPEECHIFY_API_KEY "" |}.

(** The events of one admitted attempt, as its answers decide them: the
    request settles with [x]; when it is a 2xx response the two platform
    promises follow and the decode settles with [d]; an error response is
    read as text and thrown; a rejection is thrown at once. *)
Definition attempt (h : Hook) (x : Thrown + Response) (d : Thrown + AudioBuffer)
  : list Event :=
match x with
| inl _ => [Call; FetchSettles (next_task h) x]
| inr resp =>
    if ok resp
    then [Call; FetchSettles (next_task h) x; Resume (next_task h);
          Resume (next_task h); DecodeSettles (next_task h) d]
    else [Call; FetchSettles (next_task h) x; Resume (next_task h)]
end.

(** What the [catch] block of the attempt stores, if it runs. *)
Definition caught (x : Thrown + Response) (d : Thrown + AudioBuffer) : option string :=
match x with
| inl e => Some (errorMessage e)
| inr resp =>
    if ok resp
    then match d with
         | inl e => Some (errorMessage e)
         | inr _ => None
         end
    else Some (api_error resp)
end.

(** The state an instance mounted without a key stays in. *)
Definition disabled : Sched State Refs :=
{| refs := {| speechifyServiceRef := None; audioContextRef := Some mkAudioContext |};
   state := setError (Some "Speechify API key not configured") initialState;
   suspended := [];
   readers := [];
   outbound := [] |}.

End SpeechifyAttempts.

Module HiggsAttempts.

Import Higgs HiggsRuns.

(** The events of one admitted attempt: the probe settles with [p]; when
    it passes, the synthesis request settles with [x] and the attempt goes
    on as for the cloud backend. *)
Definition attempt (h : Hook) (p x : Thrown + Response) (d : Thrown + AudioBuffer)
  : list Event :=
if health p then
  match x with
  | inl _ => [Call; FetchSettles (next_task h) p; FetchSettles (next_task h) x]
  | inr resp =>
      if ok resp
      then [Call; FetchSettles (next_task h) p; FetchSettles (next_task h) x;
            Resume (next_task h); Resume (next_task h); DecodeSettles (next_task h) d]
      else [Call; FetchSettles (next_task h) p; FetchSettles (next_task h) x;
            Resume (next_task h)]
  end
else [Call; FetchSettles (next_task h) p].

Definition caught (p x : Thrown + Response) (d : Thrown + AudioBuffer) : option string :=
if health p then
  match x with
  | inl e => Some (errorMessage e)
  | inr resp =>
      if ok resp
      then match d with
           | inl e => Some (errorMessage e)
           | inr _ => None
           end
      else Some (api_error resp)
  end
else Some unavailable.

(** The refs after the mount of the local hook, and its probe. *)
Definition mounted_refs (HC : HiggsAudioConfig) : Refs :=
{| higgsServiceRef :=
     Some (new_HiggsAudioService
             {| config_baseUrl := config_baseUrl HC;
                config_modelPath := None;
                config_audioTokenizerPath := None;
                config_temperature := config_temperature HC;
                config_topP := config_topP HC;
                config_topK := config_topK HC;
                config_maxNewTokens := config_maxNewTokens HC |});
   audioContextRef := Some mkAudioContext |}.

Definition probe (HC : HiggsAudioConfig) : Request :=
{| url := (or_default (config_baseUrl HC) "http://localhost:8000" ++ "/health")%string;
   method := "GET";
   headers := [];
   body := None |}.

End HiggsAttempts.

(** ** More instances *)

Module MoreExamples.

Local Open Scope string_scope.

(** The argument of a component that leaves [autoGenerate] on. *)
Definition auto : Speechify.UseSpeechifyTTSConfig :=
{| Speechify.text := "Hello, this is a test.";
   Speechify.voiceId := None;
   Speechify.language := None;
   Speechify.autoGenerate := None |}.

Definition local_auto : Higgs.UseHiggsAudioConfig :=
{| Higgs.text := "Hello, this is a test.";
   Higgs.refAudio := None;
   Higgs.cfg_temperature := None;
   Higgs.cfg_topP := None;
   Higgs.cfg_topK := None;
   Higgs.cfg_maxNewTokens := None;
   Higgs.autoGenerate := None |}.

End MoreExamples.

(** ** The requests a hook can hand to [fetch] *)

Module Traffic.

Section Requests.

Variables St Refs : Type.

(** [R]: what the refs hold whenever the task reads them; [Q]: a
    property of requests.  [sends t]: every [fetch] in [t], at any depth
    and after any answer of the environment, is given a request with
    [Q]. *)
Variable R : Refs -> Prop.
Variable Q : Request -> Prop.

Fixpoint sends {A : Type} (t : Task St Refs A) : Prop :=
  match t with
  | Ret _ => True
  | Throw _ => True
  | Modify _ k => sends k
  | Read k => forall r, R r -> sends (k r)
  | Fetch req k => Q req /\ forall x, sends (k x)
  | Decode _ k => forall x, sends (k x)
  | Tick k => sends k
  | ReadAsDataURL _ _ k => sends k
  end.

Definition sends_suspended (w : Suspended St Refs) : Prop :=
  match w with
  | OnFetch _ k => forall x, sends (k x)
  | OnDecode _ k => forall x, sends (k x)
  | OnTick k => sends k
  end.

(** Every request issued so far has [Q], and so has every request that
    what is pending can still issue. *)
Definition Sends (s : Sched St Refs) : Prop :=
  R (refs s)
  /\ Forall Q (outbound s)
  /\ Forall sends_suspended (suspended s).

End Requests.

Arguments sends {St Refs} R Q {A} t.
Arguments sends_suspended {St Refs} R Q w.
Arguments Sends {St Refs} R Q s.

End Traffic.

Module SpeechifyTraffic.
Import Speechify.

Local Open Scope string_scope.

(** The one request of the cloud hook: the stream endpoint of the fixed
    base URL, the key of the configuration as bearer token, and a body
    whose three fields are non-empty strings. *)
Definition stream_request (key : string) (req : Request) : Prop :=
  truthy key = true
  /\ url req = "https://api.sws.speechify.com/v1/audio/stream"
  /\ method req = "POST"
  /\ headers req = [ ("Authorization", "Bearer " ++ key);
                     ("Content-Type", "application/json");
                     ("Accept", "audio/mpeg") ]
  /\ exists input voice_id language,
       body req = Some [ ("input", JString input);
                         ("voice_id", JString voice_id);
                         ("language", JString language) ]
       /\ truthy input = true
       /\ truthy voice_id = true
       /\ truthy language = true.

(** The service ref is null or holds the service made from the key. *)
Definition service_of (key : string) (r : Refs) : Prop :=
  match speechifyServiceRef r with
  | None => True
  | Some service =>
      truthy key = true
      /\ service = new_SpeechifyService {| config_apiKey := key |}
  end.

End SpeechifyTraffic.

Module HiggsTraffic.
Import Higgs.

Local Open Scope string_scope.

(** The two requests of the local hook, both under the base URL of the
    service: the liveness probe and the generation request, whose text is
    non-empty. *)
Definition probe_request (base : string) (req : Request) : Prop :=
  req = {| url := base ++ "/health"; method := "GET"; headers := []; body := None |}.

Definition generate_request (base : string) (req : Request) : Prop :=
  url req = base ++ "/v1/audio/generate"
  /\ method req = "POST"
  /\ headers req = [ ("Content-Type", "application/json");
                     ("Accept", "audio/wav") ]
  /\ exists input ref_audio temperature top_p top_k max_new_tokens,
       body req = Some [ ("text", JString input);
                         ("ref_audio", opt_string ref_audio);
                         ("temperature", JNumber temperature);
                         ("top_p", JNumber top_p);
                         ("top_k", JNumber top_k);
                         ("max_new_tokens", JNumber max_new_tokens) ]
       /\ truthy input = true.

Definition local_request (base : string) (req : Request) : Prop :=
  probe_request base req \/ generate_request base req.

Definition service_of (base : string) (r : Refs) : Prop :=
  match higgsServiceRef r with
  | None => True
  | Some service => baseUrl service = base
  end.

End HiggsTraffic.

(** ** What holds between two synchronous segments *)

Module Segments.

Section Logic.

Variables St Refs : Type.

(** [P] is to hold whenever control is back at the event loop: at every
    suspension point and at the end of every segment.  Within a segment
    (between two setters that React batches) it may fail.

    [wp t Qr Qt st]: when [t] runs from the state [st], [P] holds at each
    of its suspension points, provided it holds again when [t] is
    resumed; [Qr] holds if [t] returns and [Qt] if it throws. *)
Variable P : St -> Prop.

Fixpoint wp {A : Type} (t : Task St Refs A)
    (Qr : A -> St -> Prop) (Qt : Thrown -> St -> Prop) (st : St) : Prop :=
  match t with
  | Ret a => Qr a st
  | Throw e => Qt e st
  | Modify f k => wp k Qr Qt (f st)
  | Read k => forall r, wp (k r) Qr Qt st
  | Fetch _ k => P st /\ forall x st', P st' -> wp (k x) Qr Qt st'
  | Decode _ k => P st /\ forall x st', P st' -> wp (k x) Qr Qt st'
  | Tick k => P st /\ forall st', P st' -> wp k Qr Qt st'
  | ReadAsDataURL _ h k =>
      (forall result st', P st' -> P (h result st')) /\ wp k Qr Qt st
  end.

Definition keeps (t : Task St Refs unit) (st : St) : Prop :=
  wp t (fun _ => P) (fun _ => P) st.

Definition keeps_suspended (w : Suspended St Refs) : Prop :=
  match w with
  | OnFetch _ k => forall x st, P st -> keeps (k x) st
  | OnDecode _ k => forall x st, P st -> keeps (k x) st
  | OnTick k => forall st, P st -> keeps k st
  end.

Definition Kept (s : Sched St Refs) : Prop :=
  P (state s)
  /\ Forall keeps_suspended (suspended s)
  /\ Forall (Invariant.stable_reader P) (readers s).

End Logic.

Arguments wp {St Refs} P {A} t Qr Qt st.
Arguments keeps {St Refs} P t st.
Arguments keeps_suspended {St Refs} P w.
Arguments Kept {St Refs} P s.

End Segments.

(** ** The two status cells *)

Module StatusCells.

(** While [isGenerating] is true, [error] is null. *)
Definition speechify_no_error_in_flight (st : Speechify.State) : Prop :=
  Speechify.isGenerating st = true -> Speechify.error st = None.

Definition higgs_no_error_in_flight (st : Higgs.State) : Prop :=
  Higgs.isGenerating st = true -> Higgs.error st = None.

End StatusCells.

(** ** What [TTSTestAnimation] shows *)

Module TTSTestAnimation.

(** The four elements that the component renders conditionally. *)
Record Overlays : Type := mkOverlays {
  audio : bool;
  generateButton : bool;
  loadingIndicator : bool;
  errorDisplay : bool
}.

Definition overlays (st : Speechify.State) : Overlays :=
  {| audio := truthy_opt (Speechify.narrationAudioPath st);
     generateButton :=
       negb (truthy_opt (Speechify.narrationAudioPath st))
       && negb (Speechify.isGenerating st)
       && negb (truthy_opt (Speechify.error st));
     loadingIndicator := Speechify.isGenerating st;
     errorDisplay := truthy_opt (Speechify.error st) |}.

End TTSTestAnimation.

(** ** How the promise of a service method settles *)

Module Completion.

(** The completion of a method that issues one request, when that
    request settles with [x]: what the method returns or throws once its
    remaining awaits are through.  [None] for a task that waits for
    something else. *)
Fixpoint completion {St Refs A : Type} (x : Thrown + Response)
    (t : Task St Refs A) : option (Thrown + A) :=
  match t with
  | Ret a => Some (inr a)
  | Throw e => Some (inl e)
  | Fetch _ k => completion x (k x)
  | Tick k => completion x k
  | Modify _ _ => None
  | Read _ => None
  | Decode _ _ => None
  | ReadAsDataURL _ _ _ => None
  end.

End Completion.

(** ** [SpeechifyService.getVoices] *)

Module Voices.
Import Speechify.

Local Open Scope string_scope.
Local Open Scope task_scope.

(** A value that [response.json()] resolves to.  The members of an
    object are its own properties. *)
#[warnings="-register-all"] Inductive Json : Type :=
| JsonNull
| JsonBoolean (b : bool)
| JsonNumber (q : Q)
| JsonString (s : string)
| JsonArray (items : list Json)
| JsonObject (members : list (string * Json)).

(** [Array.isArray(v)] *)
Definition isArray (v : Json) : bool :=
  match v with
  | JsonArray _ => true
  | _ => false
  end.

(** Truthiness: [null], [false], [0] and [""] are falsy. *)
Definition json_truthy (v : Json) : bool :=
  match v with
  | JsonNull => false
  | JsonBoolean b => b
  | JsonNumber q => negb (Qeq_bool q 0)
  | JsonString s => truthy s
  | JsonArray _ => true
  | JsonObject _ => true
  end.

Section Service.

Context {St Refs : Type}.

(** [response.json()]: the parsed body, or the [SyntaxError] of the
    parser. *)
Variable json : Response -> Thrown + Json.

(** The [TypeError] of a property read on [null]. *)
Variable TypeError_null : Thrown.

(** [v.name]: [undefined] ([None]) when [v] has no such property; no
    primitive value has a property [voices]. *)
Definition property (v : Json) (name : string) : Task St Refs (option Json) :=
  match v with
  | JsonNull => throw TypeError_null
  | JsonObject members =>
      Ret (match find (fun kv => String.eqb (fst kv) name) members with
           | Some kv => Some (snd kv)
           | None => None
           end)
  | _ => Ret None
  end.

(** [SpeechifyService.getVoices()].  The [catch] of the method logs and
    rethrows. *)
Definition getVoices (this : SpeechifyService) : Task St Refs Json :=
  try_catch
    (let url := baseUrl this ++ "/v1/voices" in
     response <- fetch {|
       url := url;
       method := "GET";
       headers := [ ("Authorization", "Bearer " ++ apiKey this);
                    ("Content-Type", "application/json") ];
       body := None |} ;;
     if negb (ok response) then
       errorText <- await (text_of response) ;;
       throw (JsError ("Failed to fetch voices: " ++ Number_toString (status response)
                       ++ " - " ++ errorText))
     else
       data <- Tick (settled (json response)) ;;
       if isArray data then Ret data
       else
         voices <- property data "voices" ;;
         Ret (match voices with
              | Some v => if json_truthy v then v else JsonArray []
              | None => JsonArray []
              end))
    (fun error => throw error).

End Service.

End Voices.

(** * Properties *)

(** ** The data URL embedding *)

Module DataURLFacts.

Lemma decode_encode_sextet (s : Sextet) : decode_char (encode_sextet s) = Some s.
Proof.
  destruct s as [[[[[b5 b4] b3] b2] b1] b0].
  destruct b5, b4, b3, b2, b1, b0; vm_compute; reflexivity.
Qed.

Lemma encode_sextet_not_comma (s : Sextet) : Ascii.eqb (encode_sextet s) ","%char = false.
Proof.
  destruct s as [[[[[b5 b4] b3] b2] b1] b0].
  destruct b5, b4, b3, b2, b1, b0; vm_compute; reflexivity.
Qed.

Lemma decode_pad : decode_char pad = None.
Proof. vm_compute. reflexivity. Qed.

(** Induction on a list of bytes, three at a time. *)
Lemma list_ind3 (A : Type) (P : list A -> Prop) :
  P [] -> (forall a, P [a]) -> (forall a b, P [a; b]) ->
  (forall a b c l, P l -> P (a :: b :: c :: l)) ->
  forall l, P l.
Proof.
  intros H0 H1 H2 H3.
  assert (forall l, P l /\ (forall a, P (a :: l)) /\ (forall a b, P (a :: b :: l))) as H.
  { induction l as [|x l [IH0 [IH1 IH2]]].
    - repeat split; auto.
    - repeat split; auto. }
  intro l. apply H.
Qed.

Lemma bytes3_sextets3 (a b c : byte) :
  let '(w, x, y, z) := sextets3 a b c in bytes3 w x y z = (a, b, c).
Proof.
  unfold sextets3.
  pose proof (Byte.of_bits_to_bits a) as Ha.
  pose proof (Byte.of_bits_to_bits b) as Hb.
  pose proof (Byte.of_bits_to_bits c) as Hc.
  destruct (Byte.to_bits a) as (a0, (a1, (a2, (a3, (a4, (a5, (a6, a7))))))).
  destruct (Byte.to_bits b) as (b0, (b1, (b2, (b3, (b4, (b5, (b6, b7))))))).
  destruct (Byte.to_bits c) as (c0, (c1, (c2, (c3, (c4, (c5, (c6, c7))))))).
  unfold bytes3. rewrite Ha, Hb, Hc. reflexivity.
Qed.

(** A group whose last byte (or last two) is padding: the first byte
    (the first two) is read back whatever the padding sextets are. *)
Lemma bytes3_first (a b c : byte) (y z : Sextet) :
  let '(w, x, _, _) := sextets3 a b c in
  let '(a', _, _) := bytes3 w x y z in a' = a.
Proof.
  unfold sextets3.
  pose proof (Byte.of_bits_to_bits a) as Ha.
  destruct (Byte.to_bits a) as (a0, (a1, (a2, (a3, (a4, (a5, (a6, a7))))))).
  destruct (Byte.to_bits b) as (b0, (b1, (b2, (b3, (b4, (b5, (b6, b7))))))).
  destruct (Byte.to_bits c) as (c0, (c1, (c2, (c3, (c4, (c5, (c6, c7))))))).
  destruct y as [[[[[y5 y4] y3] y2] y1] y0], z as [[[[[z5 z4] z3] z2] z1] z0].
  unfold bytes3. exact Ha.
Qed.

Lemma bytes3_first_two (a b : byte) (z : Sextet) :
  let '(w, x, y, _) := sextets3 a b x00 in
  let '(a', b', _) := bytes3 w x y z in (a', b') = (a, b).
Proof.
  unfold sextets3.
  pose proof (Byte.of_bits_to_bits a) as Ha.
  pose proof (Byte.of_bits_to_bits b) as Hb.
  destruct (Byte.to_bits a) as (a0, (a1, (a2, (a3, (a4, (a5, (a6, a7))))))).
  destruct (Byte.to_bits b) as (b0, (b1, (b2, (b3, (b4, (b5, (b6, b7))))))).
  cbn [Byte.to_bits].
  destruct z as [[[[[z5 z4] z3] z2] z1] z0].
  unfold bytes3. rewrite Ha, Hb. reflexivity.
Qed.

(** [atob] is a left inverse of [btoa]. *)
Lemma atob_btoa (l : list byte) : atob (btoa l) = Some l.
Proof.
  induction l as [| a | a b | a b c l IH] using list_ind3.
  - reflexivity.
  - cbn [btoa].
    pose proof (bytes3_first a x00 x00 zero zero) as H.
    destruct (sextets3 a x00 x00) as [[[w x] y] z].
    cbn [atob]. rewrite !decode_encode_sextet, decode_pad.
    cbn. destruct (bytes3 w x zero zero) as [[a' b'] c']. now subst.
  - cbn [btoa].
    pose proof (bytes3_first_two a b zero) as H.
    destruct (sextets3 a b x00) as [[[w x] y] z].
    cbn [atob]. rewrite !decode_encode_sextet, decode_pad.
    cbn. destruct (bytes3 w x y zero) as [[a' b'] c']. now inversion H.
  - cbn [btoa].
    pose proof (bytes3_sextets3 a b c) as H.
    destruct (sextets3 a b c) as [[[w x] y] z].
    cbn [atob]. rewrite !decode_encode_sextet, IH, H. reflexivity.
Qed.

Lemma after_last_none (c : ascii) (s : string) :
  (forall a, In a (list_ascii_of_string s) -> Ascii.eqb a c = false) ->
  after_last c s = None.
Proof.
  induction s as [| a s IH]; intro H; cbn.
  - reflexivity.
  - rewrite IH by (intros x Hx; apply H; now right).
    rewrite (H a) by now left. reflexivity.
Qed.

Lemma after_last_append (c : ascii) (pre s : string) :
  after_last c s = None ->
  after_last c (pre ++ String c s) = Some s.
Proof.
  intro H. induction pre as [| a pre IH]; cbn.
  - rewrite H, Ascii.eqb_refl. reflexivity.
  - rewrite IH. reflexivity.
Qed.

(** No character of a base64 text is a comma. *)
Lemma btoa_no_comma (l : list byte) :
  forall a, In a (list_ascii_of_string (btoa l)) -> Ascii.eqb a ","%char = false.
Proof.
  induction l as [| a | a b | a b c l IH] using list_ind3; cbn [btoa].
  - intros x [].
  - destruct (sextets3 a x00 x00) as [[[w x] y] z].
    intros k [<- | [<- | [<- | [<- | []]]]];
      auto using encode_sextet_not_comma.
  - destruct (sextets3 a b x00) as [[[w x] y] z].
    intros k [<- | [<- | [<- | [<- | []]]]];
      auto using encode_sextet_not_comma.
  - destruct (sextets3 a b c) as [[[w x] y] z].
    intros k [<- | [<- | [<- | [<- | H]]]];
      auto using encode_sextet_not_comma.
Qed.

Lemma append_assoc (a b c : string) : ((a ++ b) ++ c = a ++ (b ++ c))%string.
Proof. induction a as [| x a IH]; cbn; [reflexivity | now rewrite IH]. Qed.

Lemma prefix_append (p s : string) : String.prefix p (p ++ s) = true.
Proof.
  induction p as [| a p IH]; cbn.
  - now destruct s.
  - destruct (ascii_dec a a) as [_ | N]; [exact IH | now destruct N].
Qed.

Lemma readAsDataURL_split (b : Blob) :
  readAsDataURL b
  = (("data:" ++ blobType b ++ ";base64") ++ String "," (btoa (blobBytes b)))%string.
Proof.
  unfold readAsDataURL.
  rewrite append_assoc. f_equal.
  rewrite append_assoc. f_equal.
Qed.

(** Re-extraction reads back the bytes of the blob. *)
Lemma dataUrlBytes_readAsDataURL (b : Blob) :
  dataUrlBytes (readAsDataURL b) = Some (blobBytes b).
Proof.
  unfold dataUrlBytes.
  replace (String.prefix "data:" (readAsDataURL b)) with true
    by (symmetry; apply prefix_append).
  rewrite readAsDataURL_split, after_last_append.
  - apply atob_btoa.
  - apply after_last_none, btoa_no_comma.
Qed.

End DataURLFacts.

(** ** Synchronous segments and stable predicates *)

Module AsyncFacts.

Lemma nth_error_last {A : Type} (l : list A) (x : A) :
  nth_error (l ++ [x]) (List.length l) = Some x.
Proof. induction l as [| a l IH]; cbn; [reflexivity | exact IH]. Qed.

Lemma remove_nth_last {A : Type} (l : list A) (x : A) :
  remove_nth (List.length l) (l ++ [x]) = l.
Proof. induction l as [| a l IH]; cbn; [reflexivity | now rewrite IH]. Qed.

Lemma Forall_remove_nth {A : Type} (P : A -> Prop) (i : nat) (l : list A) :
  Forall P l -> Forall P (remove_nth i l).
Proof.
  intro H. revert i.
  induction H as [| a l Ha Hl IH]; intros [| i]; cbn; auto.
Qed.

Lemma Forall_nth_error {A : Type} (P : A -> Prop) (i : nat) (l : list A) (x : A) :
  Forall P l -> nth_error l i = Some x -> P x.
Proof.
  intros H E. apply nth_error_In in E.
  rewrite Forall_forall in H. auto.
Qed.

Section Generic.

Context {St Refs : Type}.

Lemma run_sync_refs (t : Task St Refs unit) :
  forall s, refs (run_sync t s) = refs s.
Proof.
  induction t as [a | e | f k IH | k IH | req k IH | buf k IH | k IH | b h k IH];
    intro s; cbn; try reflexivity.
  - now rewrite IH.
  - now rewrite IH.
  - now rewrite IH.
Qed.

Lemma fetch_settles_refs i x (s s' : Sched St Refs) :
  fetch_settles i x s = Some s' -> refs s' = refs s.
Proof.
  unfold fetch_settles.
  destruct (nth_error (suspended s) i) as [[req k | buf k | k] |]; try discriminate.
  intros [= <-]. now rewrite run_sync_refs.
Qed.

Lemma decode_settles_refs i x (s s' : Sched St Refs) :
  decode_settles i x s = Some s' -> refs s' = refs s.
Proof.
  unfold decode_settles.
  destruct (nth_error (suspended s) i) as [[req k | buf k | k] |]; try discriminate.
  intros [= <-]. now rewrite run_sync_refs.
Qed.

Lemma resume_refs i (s s' : Sched St Refs) :
  resume i s = Some s' -> refs s' = refs s.
Proof.
  unfold resume.
  destruct (nth_error (suspended s) i) as [[req k | buf k | k] |]; try discriminate.
  intros [= <-]. now rewrite run_sync_refs.
Qed.

Variable P : St -> Prop.

Lemma stable_bind {A B : Type} (t : Task St Refs A) (k : A -> Task St Refs B) :
  stable P t -> (forall a, stable P (k a)) -> stable P (bind t k).
Proof.
  intros Ht Hk.
  induction t as [a | e | f t IH | t IH | req t IH | buf t IH | t IH | b h t IH];
    cbn in *; auto.
  - destruct Ht; auto.
  - destruct Ht; auto.
Qed.

Lemma stable_try_catch {A : Type} (t : Task St Refs A) (h : Thrown -> Task St Refs A) :
  stable P t -> (forall e, stable P (h e)) -> stable P (try_catch t h).
Proof.
  intros Ht Hh.
  induction t as [a | e | f t IH | t IH | req t IH | buf t IH | t IH | b g t IH];
    cbn in *; auto.
  - destruct Ht; auto.
  - destruct Ht; auto.
Qed.

Lemma stable_finally {A : Type} (t : Task St Refs A) (fin : Task St Refs unit) :
  stable P t -> stable P fin -> stable P (finally t fin).
Proof.
  intros Ht Hf. unfold finally.
  apply stable_bind.
  - apply stable_try_catch; [exact Ht |].
    intro e. apply stable_bind; [exact Hf | intros; exact I].
  - intro a. apply stable_bind; [exact Hf | intros; exact I].
Qed.

Lemma stable_try_catch_finally {A : Type}
    (t : Task St Refs A) (h : Thrown -> Task St Refs A) (fin : Task St Refs unit) :
  stable P t -> (forall e, stable P (h e)) -> stable P fin ->
  stable P (try_catch_finally t h fin).
Proof.
  intros. unfold try_catch_finally.
  apply stable_finally; [apply stable_try_catch |]; assumption.
Qed.

Lemma stable_settled {A : Type} (x : Thrown + A) : stable P (settled (St := St) (Refs := Refs) x).
Proof. destruct x; exact I. Qed.

Lemma stable_fetch (req : Request) : stable P (fetch (St := St) (Refs := Refs) req).
Proof. intro x. apply stable_settled. Qed.

Lemma stable_decodeAudioData (buf : list byte) :
  stable P (decodeAudioData (St := St) (Refs := Refs) buf).
Proof. intro x. apply stable_settled. Qed.

Lemma stable_set (f : St -> St) :
  (forall st, P st -> P (f st)) -> stable P (set (Refs := Refs) f).
Proof. intro H. split; [exact H | exact I]. Qed.

(** A synchronous segment of a stable task keeps the instance stable. *)
Lemma run_sync_Stable (t : Task St Refs unit) :
  stable P t -> forall s, Stable P s -> Stable P (run_sync t s).
Proof.
  induction t as [a | e | f k IH | k IH | req k IH | buf k IH | k IH | b h k IH];
    cbn; intros Ht s Hs; auto.
  - destruct Ht as [Hf Hk]. apply IH; [exact Hk |].
    destruct Hs as (H1 & H2 & H3). repeat split; cbn; auto.
  - destruct Hs as (H1 & H2 & H3). repeat split; cbn; auto.
    apply Forall_app. split; [exact H2 | constructor; [exact Ht | constructor]].
  - destruct Hs as (H1 & H2 & H3). repeat split; cbn; auto.
    apply Forall_app. split; [exact H2 | constructor; [exact Ht | constructor]].
  - destruct Hs as (H1 & H2 & H3). repeat split; cbn; auto.
    apply Forall_app. split; [exact H2 | constructor; [exact Ht | constructor]].
  - destruct Ht as [Hh Hk]. apply IH; [exact Hk |].
    destruct Hs as (H1 & H2 & H3). repeat split; cbn; auto.
    apply Forall_app. split; [exact H3 | constructor; [exact Hh | constructor]].
Qed.

Lemma fetch_settles_Stable i x (s s' : Sched St Refs) :
  Stable P s -> fetch_settles i x s = Some s' -> Stable P s'.
Proof.
  intros Hs. unfold fetch_settles.
  destruct (nth_error (suspended s) i) as [[req k | buf k | k] |] eqn:E; try discriminate.
  intros [= <-]. destruct Hs as (H1 & H2 & H3).
  apply run_sync_Stable.
  - exact (Forall_nth_error _ _ _ _ H2 E x).
  - repeat split; cbn; auto using Forall_remove_nth.
Qed.

Lemma decode_settles_Stable i x (s s' : Sched St Refs) :
  Stable P s -> decode_settles i x s = Some s' -> Stable P s'.
Proof.
  intros Hs. unfold decode_settles.
  destruct (nth_error (suspended s) i) as [[req k | buf k | k] |] eqn:E; try discriminate.
  intros [= <-]. destruct Hs as (H1 & H2 & H3).
  apply run_sync_Stable.
  - exact (Forall_nth_error _ _ _ _ H2 E x).
  - repeat split; cbn; auto using Forall_remove_nth.
Qed.

Lemma resume_Stable i (s s' : Sched St Refs) :
  Stable P s -> resume i s = Some s' -> Stable P s'.
Proof.
  intros Hs. unfold resume.
  destruct (nth_error (suspended s) i) as [[req k | buf k | k] |] eqn:E; try discriminate.
  intros [= <-]. destruct Hs as (H1 & H2 & H3).
  apply run_sync_Stable.
  - exact (Forall_nth_error _ _ _ _ H2 E).
  - repeat split; cbn; auto using Forall_remove_nth.
Qed.

End Generic.

(** A decoded buffer lasts a positive time. *)
Lemma duration_positive (ab : AudioBuffer) : 0 < duration ab.
Proof. unfold duration, Qlt. cbn. lia. Qed.

End AsyncFacts.

(** ** Attempts of [useSpeechifyTTS] *)

Module SpeechifyFacts.
Import AsyncFacts Speechify SpeechifyRuns.

Local Arguments ok : simpl never.
Local Arguments Number_toString : simpl never.
Local Arguments text_of : simpl never.
Local Arguments blob_of : simpl never.
Local Arguments readAsDataURL : simpl never.
Local Arguments duration : simpl never.
Local Arguments append : simpl never.

(** Runs the events of an attempt on a symbolic instance. *)
Ltac settle :=
  repeat (progress (unfold on_sched, fetch_settles, decode_settles, resume, load_end,
                      suspend, issue, with_state, with_suspended, with_readers, with_refs;
                    cbn;
                    rewrite ?nth_error_last, ?remove_nth_last)).

Lemma speechify_admitted_inv (h : Hook) :
  admitted h = true ->
  exists sc svc, scope h = Some sc
    /\ speechifyServiceRef (refs (sched h)) = Some svc
    /\ isGenerating (seen sc) = false /\ truthy (r_text sc) = true.
Proof.
  unfold admitted. destruct (scope h) as [sc |]; [| discriminate].
  destruct (speechifyServiceRef (refs (sched h))) as [svc |]; [| discriminate].
  cbn. intro H. apply andb_prop in H as [H1 H2].
  exists sc, svc. repeat split; auto. now destruct (isGenerating (seen sc)).
Qed.

(** Opens an admitted instance: names its parts and rewrites the guard. *)
Ltac open_admitted h Ha :=
  let sc := fresh "sc" in let svc := fresh "svc" in
  let Hsc := fresh "Hsc" in let Hsvc := fresh "Hsvc" in
  let Hgen := fresh "Hgen" in let Htxt := fresh "Htxt" in
  destruct (speechify_admitted_inv h Ha) as (sc & svc & Hsc & Hsvc & Hgen & Htxt);
  destruct h as [[[sv ctx] st susp rds out] scp]; cbn in Hsc, Hsvc; subst;
  unfold success, decoded, backend_error, transport_error, decode_error,
    next_task, next_reader;
  cbn; rewrite ?Hgen, ?Htxt.

(** A call that the guard rejects has no effect at all. *)
Lemma speechify_call_rejected (h : Hook) :
  admitted h = false -> scope h <> None -> step h Call = Some h.
Proof.
  unfold admitted. destruct h as [[[sv ctx] st susp rds out] [sc |]]; cbn;
    [| intros _ H; now destruct H].
  intros H _. destruct sv as [svc |]; cbn in *; [| reflexivity].
  destruct (isGenerating (seen sc)); cbn in *; [reflexivity |].
  destruct (truthy (r_text sc)); [discriminate | reflexivity].
Qed.

(** A call that the guard admits: the two setters, then the request. *)
Lemma speechify_call_admitted (h : Hook) :
  admitted h = true ->
  exists h' req k,
    step h Call = Some h'
    /\ state (sched h') = setError None (setIsGenerating true (state (sched h)))
    /\ outbound (sched h') = outbound (sched h) ++ [req]
    /\ is_synthesize req = true
    /\ suspended (sched h') = suspended (sched h) ++ [OnFetch req k]
    /\ readers (sched h') = readers (sched h)
    /\ scope h' = scope h.
Proof.
  intro Ha. open_admitted h Ha. settle.
  do 3 eexists. repeat split.
Qed.

Lemma speechify_success_run (h : Hook) (resp : Response) (ab : AudioBuffer) :
  admitted h = true ->
  audioContextRef (refs (sched h)) <> None ->
  ok resp = true ->
  exists h',
    run h (success h resp ab) = Some h'
    /\ state (sched h')
       = {| narrationAudioPath := Some (readAsDataURL (blob_of resp));
            isGenerating := false;
            speechDuration := duration ab;
            error := None |}
    /\ suspended (sched h') = suspended (sched h)
    /\ readers (sched h') = readers (sched h).
Proof.
  intros Ha Hc Hok. open_admitted h Ha.
  destruct ctx as [ctx |]; [| now destruct Hc].
  settle. rewrite Hok. settle.
  eexists. repeat split.
Qed.

(** The same attempt when [generateSpeech] has returned and the reader
    has not ended: the duration is written, the handle is not. *)
Lemma speechify_decoded_run (h : Hook) (resp : Response) (ab : AudioBuffer) :
  admitted h = true ->
  audioContextRef (refs (sched h)) <> None ->
  ok resp = true ->
  exists h',
    run h (decoded h resp ab) = Some h'
    /\ state (sched h')
       = {| narrationAudioPath := narrationAudioPath (state (sched h));
            isGenerating := false;
            speechDuration := duration ab;
            error := None |}
    /\ suspended (sched h') = suspended (sched h)
    /\ readers (sched h')
       = readers (sched h) ++ [(blob_of resp, setNarrationAudioPath)].
Proof.
  intros Ha Hc Hok. open_admitted h Ha.
  destruct ctx as [ctx |]; [| now destruct Hc].
  settle. rewrite Hok. settle.
  eexists. repeat split.
Qed.

Lemma speechify_backend_error_run (h : Hook) (resp : Response) :
  admitted h = true ->
  ok resp = false ->
  exists h',
    run h (backend_error h resp) = Some h'
    /\ state (sched h')
       = {| narrationAudioPath := narrationAudioPath (state (sched h));
            isGenerating := false;
            speechDuration := speechDuration (state (sched h));
            error := Some (api_error resp) |}
    /\ suspended (sched h') = suspended (sched h)
    /\ readers (sched h') = readers (sched h).
Proof.
  intros Ha Hok. open_admitted h Ha.
  settle. rewrite Hok. settle.
  eexists. repeat split.
Qed.

Lemma speechify_transport_error_run (h : Hook) (e : Thrown) :
  admitted h = true ->
  exists h',
    run h (transport_error h e) = Some h'
    /\ state (sched h')
       = {| narrationAudioPath := narrationAudioPath (state (sched h));
            isGenerating := false;
            speechDuration := speechDuration (state (sched h));
            error := Some (errorMessage e) |}
    /\ suspended (sched h') = suspended (sched h)
    /\ readers (sched h') = readers (sched h).
Proof.
  intros Ha. open_admitted h Ha.
  settle.
  eexists. repeat split.
Qed.

Lemma speechify_decode_error_run (h : Hook) (resp : Response) (e : Thrown) :
  admitted h = true ->
  audioContextRef (refs (sched h)) <> None ->
  ok resp = true ->
  exists h',
    run h (decode_error h resp e) = Some h'
    /\ state (sched h')
       = {| narrationAudioPath := narrationAudioPath (state (sched h));
            isGenerating := false;
            speechDuration := speechDuration (state (sched h));
            error := Some (errorMessage e) |}
    /\ suspended (sched h') = suspended (sched h)
    /\ readers (sched h') = readers (sched h).
Proof.
  intros Ha Hc Hok. open_admitted h Ha.
  destruct ctx as [ctx |]; [| now destruct Hc].
  settle. rewrite Hok. settle.
  eexists. repeat split.
Qed.

(** *** Invariants of the reachable instances *)

Lemma speechify_run_app (h : Hook) (es1 es2 : list Event) :
  run h (es1 ++ es2)
  = match run h es1 with Some h' => run h' es2 | None => None end.
Proof.
  revert h. induction es1 as [| e es1 IH]; intro h; cbn; [reflexivity |].
  destruct (step h e); [apply IH | reflexivity].
Qed.

(** A property that holds before the mount and that every event keeps
    holds of every reachable instance. *)
Lemma speechify_reachable_ind (I : Hook -> Prop) :
  I unmounted ->
  (forall h e h', I h -> step h e = Some h' -> I h') ->
  forall h, reachable h -> I h.
Proof.
  intros H0 Hstep h [es Hes].
  assert (forall es h0 h1, I h0 -> run h0 es = Some h1 -> I h1) as G.
  { clear - Hstep. induction es as [| e es IH]; cbn; intros h0 h1 Hi Hr.
    - now inversion Hr; subst.
    - destruct (step h0 e) as [h0' |] eqn:E; [| discriminate].
      eapply IH; [| exact Hr]. eauto. }
  exact (G es unmounted h H0 Hes).
Qed.

Lemma speechify_reachable_run (h h' : Hook) (es : list Event) :
  reachable h -> run h es = Some h' -> reachable h'.
Proof.
  intros [es0 H0] H. exists (es0 ++ es). now rewrite speechify_run_app, H0.
Qed.

Lemma speechify_on_sched_inv (h h' : Hook) (o : option (Sched State Refs)) :
  on_sched h o = Some h' ->
  exists s', o = Some s' /\ h' = {| sched := s'; scope := scope h |}.
Proof. destruct o as [s' |]; cbn; [| discriminate]. intros [= <-]. eauto. Qed.

Lemma speechify_load_end_refs j success (s s' : Sched State Refs) :
  load_end j success s = Some s' -> refs s' = refs s.
Proof.
  unfold load_end. destruct (nth_error (readers s) j) as [[b g] |]; [| discriminate].
  now intros [= <-].
Qed.

Lemma speechify_autoGenerateEffect_refs (sc : Scope) (s : Sched State Refs) :
  refs (autoGenerateEffect sc s) = refs s.
Proof.
  unfold autoGenerateEffect. destruct (autoGenerateCondition sc (refs s));
    [apply run_sync_refs | reflexivity].
Qed.

(** After the mount the audio context ref is set, for good. *)
Lemma speechify_reachable_audioContext (h : Hook) :
  reachable h -> scope h <> None ->
  audioContextRef (refs (sched h)) = Some mkAudioContext.
Proof.
  intro Hr. pattern h. revert h Hr. apply speechify_reachable_ind.
  - intros H. now destruct H.
  - intros h e h' IH Hs _. unfold step in Hs.
    destruct e, (scope h) as [sc |] eqn:Esc; try discriminate.
    + inversion Hs; subst; clear Hs. cbn.
      rewrite speechify_autoGenerateEffect_refs. unfold initEffect. cbn. reflexivity.
    + inversion Hs; subst; clear Hs. cbn.
      destruct (same_deps sc _); [| rewrite speechify_autoGenerateEffect_refs];
        apply IH; discriminate.
    + apply speechify_on_sched_inv in Hs as (s' & [= <-] & ->). cbn.
      rewrite run_sync_refs. apply IH; discriminate.
    + apply speechify_on_sched_inv in Hs as (s' & E & ->). cbn.
      rewrite (fetch_settles_refs _ _ _ _ E). apply IH; discriminate.
    + apply speechify_on_sched_inv in Hs as (s' & E & ->). cbn.
      rewrite (decode_settles_refs _ _ _ _ E). apply IH; discriminate.
    + apply speechify_on_sched_inv in Hs as (s' & E & ->). cbn.
      rewrite (resume_refs _ _ _ E). apply IH; discriminate.
    + apply speechify_on_sched_inv in Hs as (s' & E & ->). cbn.
      rewrite (speechify_load_end_refs _ _ _ _ E). apply IH; discriminate.
Qed.

Lemma speechify_admitted_scope (h : Hook) : admitted h = true -> scope h <> None.
Proof. unfold admitted. destruct (scope h); [discriminate | discriminate]. Qed.

(** *** The duration cell *)

Lemma speechify_duration_written_nonneg (st : State) :
  duration_written st -> 0 <= speechDuration st.
Proof.
  intros [-> | [ab ->]]; [apply Qle_refl |].
  unfold duration, Qle. cbn. lia.
Qed.

Lemma speechify_textToSpeech_stable (P : State -> Prop) svc t v l :
  stable P (textToSpeech (St := State) (Refs := Refs) svc t v l).
Proof.
  unfold textToSpeech. apply stable_try_catch; [| intro; exact I].
  apply stable_bind; [apply stable_fetch |].
  intro response. destruct (negb (ok response)); cbn; auto.
Qed.

Lemma speechify_generateSpeech_stable (sc : Scope) :
  stable duration_written (generateSpeech sc).
Proof.
  unfold generateSpeech. intro r.
  destruct (speechifyServiceRef r) as [svc |]; [| exact I].
  destruct (isGenerating (seen sc) || negb (truthy (r_text sc))); [exact I |].
  apply stable_bind; [apply stable_set; auto | intros _].
  apply stable_bind; [apply stable_set; auto | intros _].
  apply stable_try_catch_finally.
  - apply stable_bind; [apply speechify_textToSpeech_stable | intro audioBlob].
    apply stable_bind; [exact I | intro arrayBuffer].
    apply stable_bind.
    + intro r'. destruct (audioContextRef r'); [| exact I].
      apply stable_bind; [apply stable_decodeAudioData | intro audioBuffer].
      apply stable_set. intros st _. right. now exists audioBuffer.
    + intros _. split; [auto | exact I].
  - intro e. apply stable_set; auto.
  - apply stable_set; auto.
Qed.

Lemma speechify_autoGenerateEffect_Stable (sc : Scope) (s : Sched State Refs) :
  Stable duration_written s -> Stable duration_written (autoGenerateEffect sc s).
Proof.
  intro H. unfold autoGenerateEffect.
  destruct (autoGenerateCondition sc (refs s)); [| exact H].
  apply run_sync_Stable; [apply speechify_generateSpeech_stable | exact H].
Qed.

Lemma speechify_load_end_Stable j success (s s' : Sched State Refs) :
  Stable duration_written s -> load_end j success s = Some s' ->
  Stable duration_written s'.
Proof.
  intros (H1 & H2 & H3). unfold load_end.
  destruct (nth_error (readers s) j) as [[b g] |] eqn:E; [| discriminate].
  intros [= <-]. repeat split; cbn; auto using Forall_remove_nth.
  exact (Forall_nth_error _ _ _ _ H3 E _ _ H1).
Qed.

(** In every reachable instance the duration cell holds what a decode
    wrote, or its initial value, and nothing pending can change that. *)
Lemma speechify_reachable_Stable (h : Hook) :
  reachable h -> Stable duration_written (sched h).
Proof.
  revert h. apply speechify_reachable_ind.
  - repeat split; cbn; auto. now left.
  - intros h e h' IH Hs. unfold step in Hs.
    destruct e, (scope h) as [sc |] eqn:Esc; try discriminate.
    + inversion Hs; subst; clear Hs. cbn.
      apply speechify_autoGenerateEffect_Stable.
      destruct IH as (H1 & H2 & H3). unfold initEffect.
      destruct (truthy (config_apiKey SPEECHIFY_CONFIG)); repeat split; cbn; auto.
    + inversion Hs; subst; clear Hs. cbn.
      destruct (same_deps sc _); [exact IH | now apply speechify_autoGenerateEffect_Stable].
    + apply speechify_on_sched_inv in Hs as (s' & [= <-] & ->). cbn.
      apply run_sync_Stable; [apply speechify_generateSpeech_stable | exact IH].
    + apply speechify_on_sched_inv in Hs as (s' & E & ->). cbn.
      exact (fetch_settles_Stable _ _ _ _ _ IH E).
    + apply speechify_on_sched_inv in Hs as (s' & E & ->). cbn.
      exact (decode_settles_Stable _ _ _ _ _ IH E).
    + apply speechify_on_sched_inv in Hs as (s' & E & ->). cbn.
      exact (resume_Stable _ _ _ _ IH E).
    + apply speechify_on_sched_inv in Hs as (s' & E & ->). cbn.
      exact (speechify_load_end_Stable _ _ _ _ IH E).
Qed.

End SpeechifyFacts.

(** ** Attempts of [useHiggsAudio] *)

Module HiggsFacts.
Import AsyncFacts Higgs HiggsRuns.

Local Arguments ok : simpl never.
Local Arguments Number_toString : simpl never.
Local Arguments text_of : simpl never.
Local Arguments blob_of : simpl never.
Local Arguments readAsDataURL : simpl never.
Local Arguments duration : simpl never.
Local Arguments append : simpl never.
Local Arguments unavailable : simpl never.

Ltac settle :=
  repeat (progress (unfold on_sched, fetch_settles, decode_settles, resume, load_end,
                      suspend, issue, with_state, with_suspended, with_readers, with_refs;
                    cbn;
                    rewrite ?nth_error_last, ?remove_nth_last)).

Lemma higgs_admitted_inv (h : Hook) :
  admitted h = true ->
  exists sc svc, scope h = Some sc
    /\ higgsServiceRef (refs (sched h)) = Some svc
    /\ isGenerating (seen sc) = false /\ truthy (r_text sc) = true.
Proof.
  unfold admitted. destruct (scope h) as [sc |]; [| discriminate].
  destruct (higgsServiceRef (refs (sched h))) as [svc |]; [| discriminate].
  cbn. intro H. apply andb_prop in H as [H1 H2].
  exists sc, svc. repeat split; auto. now destruct (isGenerating (seen sc)).
Qed.

Ltac open_admitted h Ha :=
  let sc := fresh "sc" in let svc := fresh "svc" in
  let Hsc := fresh "Hsc" in let Hsvc := fresh "Hsvc" in
  let Hgen := fresh "Hgen" in let Htxt := fresh "Htxt" in
  destruct (higgs_admitted_inv h Ha) as (sc & svc & Hsc & Hsvc & Hgen & Htxt);
  destruct h as [[[sv ctx] st susp rds out] scp]; cbn in Hsc, Hsvc; subst;
  unfold success, decoded, probed, backend_error, transport_error, decode_error,
    next_task, next_reader;
  cbn; rewrite ?Hgen, ?Htxt.

Lemma higgs_call_rejected (h : Hook) :
  admitted h = false -> scope h <> None -> step h Call = Some h.
Proof.
  unfold admitted. destruct h as [[[sv ctx] st susp rds out] [sc |]]; cbn;
    [| intros _ H; now destruct H].
  intros H _. destruct sv as [svc |]; cbn in *; [| reflexivity].
  destruct (isGenerating (seen sc)); cbn in *; [reflexivity |].
  destruct (truthy (r_text sc)); [discriminate | reflexivity].
Qed.

(** A call that the guard admits: the two setters, then the liveness
    probe; no synthesis request yet. *)
Lemma higgs_call_admitted (h : Hook) :
  admitted h = true ->
  exists h' req k,
    step h Call = Some h'
    /\ state (sched h') = setError None (setIsGenerating true (state (sched h)))
    /\ outbound (sched h') = outbound (sched h) ++ [req]
    /\ is_synthesize req = false
    /\ suspended (sched h') = suspended (sched h) ++ [OnFetch req k]
    /\ readers (sched h') = readers (sched h)
    /\ scope h' = scope h.
Proof.
  intro Ha. open_admitted h Ha. settle.
  do 3 eexists. repeat split.
Qed.

Lemma higgs_synthesize_calls_probe (out : list Request) (req : Request) :
  is_synthesize req = false ->
  filter is_synthesize (out ++ [req]) = filter is_synthesize out.
Proof. intro H. rewrite filter_app. cbn. rewrite H. apply app_nil_r. Qed.

(** The liveness probe answers no: the attempt ends there. *)
Lemma higgs_probed_run (h : Hook) (x : Thrown + Response) :
  admitted h = true ->
  health x = false ->
  exists h',
    run h (probed h x) = Some h'
    /\ state (sched h')
       = {| narrationAudioPath := narrationAudioPath (state (sched h));
            isGenerating := false;
            speechDuration := speechDuration (state (sched h));
            error := Some unavailable;
            isServerAvailable := false |}
    /\ suspended (sched h') = suspended (sched h)
    /\ readers (sched h') = readers (sched h)
    /\ synthesize_calls h' = synthesize_calls h.
Proof.
  intros Ha Hx. open_admitted h Ha. settle.
  destruct x as [e | response]; cbn in Hx; settle.
  - eexists. repeat split. unfold synthesize_calls. cbn.
    now apply higgs_synthesize_calls_probe.
  - rewrite Hx. settle.
    eexists. repeat split. unfold synthesize_calls. cbn.
    now apply higgs_synthesize_calls_probe.
Qed.

Lemma higgs_success_run (h : Hook) (probe resp : Response) (ab : AudioBuffer) :
  admitted h = true ->
  audioContextRef (refs (sched h)) <> None ->
  ok probe = true ->
  ok resp = true ->
  exists h',
    run h (success h probe resp ab) = Some h'
    /\ state (sched h')
       = {| narrationAudioPath := Some (readAsDataURL (blob_of resp));
            isGenerating := false;
            speechDuration := duration ab;
            error := None;
            isServerAvailable := true |}
    /\ suspended (sched h') = suspended (sched h)
    /\ readers (sched h') = readers (sched h).
Proof.
  intros Ha Hc Hp Hok. open_admitted h Ha.
  destruct ctx as [ctx |]; [| now destruct Hc].
  settle. rewrite Hp. settle. rewrite Hok. settle.
  eexists. repeat split.
Qed.

Lemma higgs_decoded_run (h : Hook) (probe resp : Response) (ab : AudioBuffer) :
  admitted h = true ->
  audioContextRef (refs (sched h)) <> None ->
  ok probe = true ->
  ok resp = true ->
  exists h',
    run h (decoded h probe resp ab) = Some h'
    /\ state (sched h')
       = {| narrationAudioPath := narrationAudioPath (state (sched h));
            isGenerating := false;
            speechDuration := duration ab;
            error := None;
            isServerAvailable := true |}
    /\ suspended (sched h') = suspended (sched h)
    /\ readers (sched h')
       = readers (sched h) ++ [(blob_of resp, setNarrationAudioPath)].
Proof.
  intros Ha Hc Hp Hok. open_admitted h Ha.
  destruct ctx as [ctx |]; [| now destruct Hc].
  settle. rewrite Hp. settle. rewrite Hok. settle.
  eexists. repeat split.
Qed.

Lemma higgs_backend_error_run (h : Hook) (probe resp : Response) :
  admitted h = true ->
  ok probe = true ->
  ok resp = false ->
  exists h',
    run h (backend_error h probe resp) = Some h'
    /\ state (sched h')
       = {| narrationAudioPath := narrationAudioPath (state (sched h));
            isGenerating := false;
            speechDuration := speechDuration (state (sched h));
            error := Some (api_error resp);
            isServerAvailable := false |}
    /\ suspended (sched h') = suspended (sched h)
    /\ readers (sched h') = readers (sched h).
Proof.
  intros Ha Hp Hok. open_admitted h Ha.
  settle. rewrite Hp. settle. rewrite Hok. settle.
  eexists. repeat split.
Qed.

Lemma higgs_transport_error_run (h : Hook) (probe : Response) (e : Thrown) :
  admitted h = true ->
  ok probe = true ->
  exists h',
    run h (transport_error h probe e) = Some h'
    /\ state (sched h')
       = {| narrationAudioPath := narrationAudioPath (state (sched h));
            isGenerating := false;
            speechDuration := speechDuration (state (sched h));
            error := Some (errorMessage e);
            isServerAvailable := false |}
    /\ suspended (sched h') = suspended (sched h)
    /\ readers (sched h') = readers (sched h).
Proof.
  intros Ha Hp. open_admitted h Ha.
  settle. rewrite Hp. settle.
  eexists. repeat split.
Qed.

Lemma higgs_decode_error_run (h : Hook) (probe resp : Response) (e : Thrown) :
  admitted h = true ->
  audioContextRef (refs (sched h)) <> None ->
  ok probe = true ->
  ok resp = true ->
  exists h',
    run h (decode_error h probe resp e) = Some h'
    /\ state (sched h')
       = {| narrationAudioPath := narrationAudioPath (state (sched h));
            isGenerating := false;
            speechDuration := speechDuration (state (sched h));
            error := Some (errorMessage e);
            isServerAvailable := false |}
    /\ suspended (sched h') = suspended (sched h)
    /\ readers (sched h') = readers (sched h).
Proof.
  intros Ha Hc Hp Hok. open_admitted h Ha.
  destruct ctx as [ctx |]; [| now destruct Hc].
  settle. rewrite Hp. settle. rewrite Hok. settle.
  eexists. repeat split.
Qed.

(** *** Invariants of the reachable instances *)

Lemma higgs_run_app (h : Hook) (es1 es2 : list Event) :
  run h (es1 ++ es2)
  = match run h es1 with Some h' => run h' es2 | None => None end.
Proof.
  revert h. induction es1 as [| e es1 IH]; intro h; cbn; [reflexivity |].
  destruct (step h e); [apply IH | reflexivity].
Qed.

(** A property that holds before the mount and that every event keeps
    holds of every reachable instance. *)
Lemma higgs_reachable_ind (I : Hook -> Prop) :
  I unmounted ->
  (forall h e h', I h -> step h e = Some h' -> I h') ->
  forall h, reachable h -> I h.
Proof.
  intros H0 Hstep h [es Hes].
  assert (forall es h0 h1, I h0 -> run h0 es = Some h1 -> I h1) as G.
  { clear - Hstep. induction es as [| e es IH]; cbn; intros h0 h1 Hi Hr.
    - now inversion Hr; subst.
    - destruct (step h0 e) as [h0' |] eqn:E; [| discriminate].
      eapply IH; [| exact Hr]. eauto. }
  exact (G es unmounted h H0 Hes).
Qed.

Lemma higgs_reachable_run (h h' : Hook) (es : list Event) :
  reachable h -> run h es = Some h' -> reachable h'.
Proof.
  intros [es0 H0] H. exists (es0 ++ es). now rewrite higgs_run_app, H0.
Qed.

Lemma higgs_on_sched_inv (h h' : Hook) (o : option (Sched State Refs)) :
  on_sched h o = Some h' ->
  exists s', o = Some s' /\ h' = {| sched := s'; scope := scope h |}.
Proof. destruct o as [s' |]; cbn; [| discriminate]. intros [= <-]. eauto. Qed.

Lemma higgs_load_end_refs j success (s s' : Sched State Refs) :
  load_end j success s = Some s' -> refs s' = refs s.
Proof.
  unfold load_end. destruct (nth_error (readers s) j) as [[b g] |]; [| discriminate].
  now intros [= <-].
Qed.

Lemma higgs_autoGenerateEffect_refs (sc : Scope) (s : Sched State Refs) :
  refs (autoGenerateEffect sc s) = refs s.
Proof.
  unfold autoGenerateEffect. destruct (autoGenerateCondition sc (refs s));
    [apply run_sync_refs | reflexivity].
Qed.

(** After the mount the audio context ref is set, for good. *)
Lemma higgs_reachable_audioContext (h : Hook) :
  reachable h -> scope h <> None ->
  audioContextRef (refs (sched h)) = Some mkAudioContext.
Proof.
  intro Hr. pattern h. revert h Hr. apply higgs_reachable_ind.
  - intros H. now destruct H.
  - intros h e h' IH Hs _. unfold step in Hs.
    destruct e, (scope h) as [sc |] eqn:Esc; try discriminate.
    + inversion Hs; subst; clear Hs. cbn [sched].
      rewrite higgs_autoGenerateEffect_refs. unfold initEffect.
      rewrite run_sync_refs. reflexivity.
    + inversion Hs; subst; clear Hs. cbn.
      destruct (same_deps sc _); [| rewrite higgs_autoGenerateEffect_refs];
        apply IH; discriminate.
    + apply higgs_on_sched_inv in Hs as (s' & [= <-] & ->). cbn.
      rewrite run_sync_refs. apply IH; discriminate.
    + apply higgs_on_sched_inv in Hs as (s' & E & ->). cbn.
      rewrite (fetch_settles_refs _ _ _ _ E). apply IH; discriminate.
    + apply higgs_on_sched_inv in Hs as (s' & E & ->). cbn.
      rewrite (decode_settles_refs _ _ _ _ E). apply IH; discriminate.
    + apply higgs_on_sched_inv in Hs as (s' & E & ->). cbn.
      rewrite (resume_refs _ _ _ E). apply IH; discriminate.
    + apply higgs_on_sched_inv in Hs as (s' & E & ->). cbn.
      rewrite (higgs_load_end_refs _ _ _ _ E). apply IH; discriminate.
Qed.

Lemma higgs_admitted_scope (h : Hook) : admitted h = true -> scope h <> None.
Proof. unfold admitted. destruct (scope h); [discriminate | discriminate]. Qed.

(** *** The duration cell *)

Lemma higgs_duration_written_nonneg (st : State) :
  duration_written st -> 0 <= speechDuration st.
Proof.
  intros [-> | [ab ->]]; [apply Qle_refl |].
  unfold duration, Qle. cbn. lia.
Qed.

Lemma higgs_checkHealth_stable (P : State -> Prop) svc :
  stable P (checkHealth (St := State) (Refs := Refs) svc).
Proof.
  unfold checkHealth. apply stable_try_catch; [| intro; exact I].
  apply stable_bind; [apply stable_fetch | intro; exact I].
Qed.

Lemma higgs_textToSpeech_stable (P : State -> Prop) svc t o :
  stable P (textToSpeech (St := State) (Refs := Refs) svc t o).
Proof.
  unfold textToSpeech. apply stable_try_catch; [| intro; exact I].
  apply stable_bind; [apply stable_fetch |].
  intro response. destruct (negb (ok response)); cbn; auto.
Qed.

Lemma higgs_generateSpeech_stable (sc : Scope) :
  stable duration_written (generateSpeech sc).
Proof.
  unfold generateSpeech. intro r.
  destruct (higgsServiceRef r) as [svc |]; [| exact I].
  destruct (isGenerating (seen sc) || negb (truthy (r_text sc))); [exact I |].
  apply stable_bind; [apply stable_set; auto | intros _].
  apply stable_bind; [apply stable_set; auto | intros _].
  apply stable_try_catch_finally.
  - apply stable_bind; [apply higgs_checkHealth_stable | intro isAvailable].
    apply stable_bind; [destruct (negb isAvailable); exact I | intros _].
    apply stable_bind; [apply stable_set; auto | intros _].
    apply stable_bind; [apply higgs_textToSpeech_stable | intro audioBlob].
    apply stable_bind; [exact I | intro arrayBuffer].
    apply stable_bind.
    + intro r'. destruct (audioContextRef r'); [| exact I].
      apply stable_bind; [apply stable_decodeAudioData | intro audioBuffer].
      apply stable_set. intros st _. right. now exists audioBuffer.
    + intros _. split; [auto | exact I].
  - intro e. apply stable_bind; [apply stable_set; auto | intros _].
    apply stable_set; auto.
  - apply stable_set; auto.
Qed.

Lemma higgs_autoGenerateEffect_Stable (sc : Scope) (s : Sched State Refs) :
  Stable duration_written s -> Stable duration_written (autoGenerateEffect sc s).
Proof.
  intro H. unfold autoGenerateEffect.
  destruct (autoGenerateCondition sc (refs s)); [| exact H].
  apply run_sync_Stable; [apply higgs_generateSpeech_stable | exact H].
Qed.

Lemma higgs_load_end_Stable j success (s s' : Sched State Refs) :
  Stable duration_written s -> load_end j success s = Some s' ->
  Stable duration_written s'.
Proof.
  intros (H1 & H2 & H3). unfold load_end.
  destruct (nth_error (readers s) j) as [[b g] |] eqn:E; [| discriminate].
  intros [= <-]. repeat split; cbn; auto using Forall_remove_nth.
  exact (Forall_nth_error _ _ _ _ H3 E _ _ H1).
Qed.

(** In every reachable instance the duration cell holds what a decode
    wrote, or its initial value, and nothing pending can change that. *)
Lemma higgs_reachable_Stable (h : Hook) :
  reachable h -> Stable duration_written (sched h).
Proof.
  revert h. apply higgs_reachable_ind.
  - repeat split; cbn; auto. now left.
  - intros h e h' IH Hs. unfold step in Hs.
    destruct e, (scope h) as [sc |] eqn:Esc; try discriminate.
    + inversion Hs; subst; clear Hs. cbn [sched].
      apply higgs_autoGenerateEffect_Stable.
      unfold initEffect. apply run_sync_Stable.
      * apply stable_bind; [apply higgs_checkHealth_stable | intro b].
        apply stable_set; auto.
      * destruct IH as (H1 & H2 & H3). repeat split; cbn; auto.
    + inversion Hs; subst; clear Hs. cbn.
      destruct (same_deps sc _); [exact IH | now apply higgs_autoGenerateEffect_Stable].
    + apply higgs_on_sched_inv in Hs as (s' & [= <-] & ->). cbn.
      apply run_sync_Stable; [apply higgs_generateSpeech_stable | exact IH].
    + apply higgs_on_sched_inv in Hs as (s' & E & ->). cbn.
      exact (fetch_settles_Stable _ _ _ _ _ IH E).
    + apply higgs_on_sched_inv in Hs as (s' & E & ->). cbn.
      exact (decode_settles_Stable _ _ _ _ _ IH E).
    + apply higgs_on_sched_inv in Hs as (s' & E & ->). cbn.
      exact (resume_Stable _ _ _ _ IH E).
    + apply higgs_on_sched_inv in Hs as (s' & E & ->). cbn.
      exact (higgs_load_end_Stable _ _ _ _ IH E).
Qed.

End HiggsFacts.

(** ** Publication safety of synchronous segments *)

Module PublicationFacts.

Import Publication AsyncFacts.

Section Safe.

Context {St Refs : Type}.
Variable R : Refs -> Prop.
Variables Q J : St -> Prop.

(** A synchronous segment of a safe task keeps the invariant. *)
Lemma run_sync_Safe (t : Task St Refs unit) :
  forall known s,
    safe R Q J known t ->
    (known = true -> Q (state s)) ->
    Safe R Q J s ->
    Safe R Q J (run_sync t s).
Proof.
  induction t as [a | e | f k IH | k IH | req k IH | buf k IH | k IH | b h k IH];
    cbn; intros known s Ht Hk Hs; auto.
  - destruct Ht as (HJ & HQ & Hd). destruct Hs as (H1 & H2 & H3 & H4 & H5).
    assert (Safe R Q J (with_state s (f (state s)))) as Hs'.
    { repeat split; cbn; auto. }
    destruct Hd as [Hd | [He Hd]].
    + apply (IH known); auto. cbn. auto.
    + apply (IH true); auto. intros _. cbn. apply He.
  - apply (IH (refs s) known); auto. apply Ht. apply Hs.
  - destruct Hs as (H1 & H2 & H3 & H4 & H5). repeat split; cbn; auto.
    apply Forall_app. split; [exact H4 | constructor; [exact Ht | constructor]].
  - destruct Hs as (H1 & H2 & H3 & H4 & H5). repeat split; cbn; auto.
    apply Forall_app. split; [exact H4 | constructor; [exact Ht | constructor]].
  - destruct Hs as (H1 & H2 & H3 & H4 & H5). repeat split; cbn; auto.
    apply Forall_app. split; [exact H4 | constructor; [exact Ht | constructor]].
  - destruct Ht as (Hkn & Hh & Ht). destruct Hs as (H1 & H2 & H3 & H4 & H5).
    apply (IH known); auto.
    repeat split; cbn; auto.
    apply Forall_app. split; [exact H5 | constructor; [exact Hh | constructor]].
Qed.

Lemma Safe_remove (s : Sched St Refs) (i : nat) :
  Safe R Q J s -> Safe R Q J (with_suspended s (remove_nth i (suspended s))).
Proof.
  intros (H1 & H2 & H3 & H4 & H5). repeat split; cbn; auto using Forall_remove_nth.
Qed.

Lemma fetch_settles_Safe i x (s s' : Sched St Refs) :
  Safe R Q J s -> fetch_settles i x s = Some s' -> Safe R Q J s'.
Proof.
  intros Hs. unfold fetch_settles.
  destruct (nth_error (suspended s) i) as [[req k | buf k | k] |] eqn:E; try discriminate.
  intros [= <-]. apply (run_sync_Safe _ false).
  - destruct Hs as (_ & _ & _ & H4 & _). exact (Forall_nth_error _ _ _ _ H4 E x).
  - discriminate.
  - now apply Safe_remove.
Qed.

Lemma decode_settles_Safe i x (s s' : Sched St Refs) :
  Safe R Q J s -> decode_settles i x s = Some s' -> Safe R Q J s'.
Proof.
  intros Hs. unfold decode_settles.
  destruct (nth_error (suspended s) i) as [[req k | buf k | k] |] eqn:E; try discriminate.
  intros [= <-]. apply (run_sync_Safe _ false).
  - destruct Hs as (_ & _ & _ & H4 & _). exact (Forall_nth_error _ _ _ _ H4 E x).
  - discriminate.
  - now apply Safe_remove.
Qed.

Lemma resume_Safe i (s s' : Sched St Refs) :
  Safe R Q J s -> resume i s = Some s' -> Safe R Q J s'.
Proof.
  intros Hs. unfold resume.
  destruct (nth_error (suspended s) i) as [[req k | buf k | k] |] eqn:E; try discriminate.
  intros [= <-]. apply (run_sync_Safe _ false).
  - destruct Hs as (_ & _ & _ & H4 & _). exact (Forall_nth_error _ _ _ _ H4 E).
  - discriminate.
  - now apply Safe_remove.
Qed.

(** The end of a pending reader: its handler runs where [Q] holds. *)
Lemma reader_end_Safe (s : Sched St Refs) (j : nat) b h result :
  Safe R Q J s ->
  nth_error (readers s) j = Some (b, h) ->
  Safe R Q J (with_state (with_readers s (remove_nth j (readers s))) (h result (state s))).
Proof.
  intros (H1 & H2 & H3 & H4 & H5) E.
  assert (Q (state s)) as Hq.
  { apply H3. intro N. rewrite N in E. now destruct j. }
  pose proof (Forall_nth_error _ _ _ _ H5 E result (state s) Hq) as [HJ HQ].
  repeat split; cbn; auto using Forall_remove_nth.
Qed.

End Safe.

End PublicationFacts.

(** ** The handle is published after the duration *)

Module SpeechifyPublicationFacts.

Import Publication PublicationFacts AsyncFacts.
Import Speechify SpeechifyRuns SpeechifyFacts SpeechifyPublication.

Lemma speechify_generateSpeech_safe (sc : Scope) :
  safe mounted timed handle_timed false (generateSpeech sc).
Proof.
  unfold generateSpeech. cbn. intros r Hr.
  destruct (speechifyServiceRef r) as [svc |]; [| exact I].
  destruct (isGenerating (seen sc) || negb (truthy (r_text sc))); [exact I |].
  cbn. unfold handle_timed, timed, mounted.
  repeat (split; [now auto |]). left.
  repeat (split; [now auto |]). left.
  intros [e | response]; cbn.
  - repeat (split; [now auto |]). left.
    repeat (split; [now auto |]). left. exact I.
  - destruct (negb (ok response)); cbn.
    + repeat (split; [now auto |]). left.
      repeat (split; [now auto |]). left. exact I.
    + intros r' Hr'. destruct (audioContextRef r') as [ctx |]; [| now destruct Hr'].
      cbn. intros [e | audioBuffer]; cbn.
      * repeat (split; [now auto |]). left.
        repeat (split; [now auto |]). left. exact I.
      * split; [intros; apply duration_positive |].
        split; [intros; apply duration_positive |]. right.
        split; [intros; apply duration_positive |].
        split; [reflexivity |]. split; [cbn; now auto |].
        repeat (split; [now auto |]). left. exact I.
Qed.

Lemma speechify_autoGenerateEffect_Safe (sc : Scope) (s : Sched State Refs) :
  Safe mounted timed handle_timed s ->
  Safe mounted timed handle_timed (autoGenerateEffect sc s).
Proof.
  intro H. unfold autoGenerateEffect.
  destruct (autoGenerateCondition sc (refs s)); [| exact H].
  apply (run_sync_Safe _ _ _ (generateSpeech sc) false);
    [exact (speechify_generateSpeech_safe sc) | discriminate | exact H].
Qed.

Lemma speechify_publication (h : Hook) :
  reachable h -> publication_invariant h.
Proof.
  revert h. apply speechify_reachable_ind.
  - cbn. repeat split. intro H. now destruct H.
  - intros h e h' IH Hs. unfold publication_invariant in *. unfold step in Hs.
    destruct e, (scope h) as [sc |] eqn:Esc; try discriminate.
    + inversion Hs; subst; clear Hs. cbn [scope sched].
      apply speechify_autoGenerateEffect_Safe.
      destruct IH as (H1 & H2 & H3). unfold initEffect.
      destruct (truthy (config_apiKey SPEECHIFY_CONFIG));
        repeat split; cbn; try rewrite H1; try rewrite H2; auto; try discriminate;
        try (intro N; now destruct N).
    + inversion Hs; subst; clear Hs. cbn [scope sched].
      destruct (same_deps sc _); [exact IH | now apply speechify_autoGenerateEffect_Safe].
    + apply speechify_on_sched_inv in Hs as (s' & [= <-] & ->). cbn [scope sched]. rewrite Esc.
      apply (run_sync_Safe _ _ _ (generateSpeech sc) false);
        [exact (speechify_generateSpeech_safe sc) | discriminate | exact IH].
    + apply speechify_on_sched_inv in Hs as (s' & E & ->). cbn [scope sched]. rewrite Esc.
      exact (fetch_settles_Safe _ _ _ _ _ _ _ IH E).
    + apply speechify_on_sched_inv in Hs as (s' & E & ->). cbn [scope sched]. rewrite Esc.
      exact (decode_settles_Safe _ _ _ _ _ _ _ IH E).
    + apply speechify_on_sched_inv in Hs as (s' & E & ->). cbn [scope sched]. rewrite Esc.
      exact (resume_Safe _ _ _ _ _ _ IH E).
    + apply speechify_on_sched_inv in Hs as (s' & E & ->). cbn [scope sched]. rewrite Esc.
      unfold load_end in E.
      destruct (nth_error (readers (sched h)) j) as [[b g] |] eqn:En; [| discriminate].
      injection E as <-. now apply reader_end_Safe with (b := b).
Qed.

(** In every reachable instance a handle that is set comes with a
    duration that is set. *)
Lemma speechify_handle_timed (h : Hook) :
  reachable h ->
  narrationAudioPath (state (sched h)) <> None -> 0 < speechDuration (state (sched h)).
Proof.
  intro Hr. pose proof (speechify_publication h Hr) as H.
  unfold publication_invariant in H.
  destruct (scope h); [apply H | apply H].
Qed.

End SpeechifyPublicationFacts.

Module HiggsPublicationFacts.

Import Publication PublicationFacts AsyncFacts.
Import Higgs HiggsRuns HiggsFacts HiggsPublication.

Ltac safe_tac :=
  repeat (cbn; first
    [ exact I
    | reflexivity
    | match goal with |- _ /\ _ => split end
    | match goal with
      | |- _ \/ _ =>
          first [ right; split; [solve [intros; cbn; apply duration_positive] |] | left ]
      end
    | match goal with |- forall _ : sum _ _, _ => intros [? | ?] end
    | match goal with
      | |- forall _ : Refs, _ =>
          let r := fresh "r" in let H := fresh "H" in
          intros r H; unfold mounted in H;
          destruct (audioContextRef r); [| now destruct H]
      end
    | solve [intros; cbn in *; auto using duration_positive]
    | match goal with |- context [if negb ?b then _ else _] => destruct b end ]).

Lemma higgs_generateSpeech_safe (sc : Scope) :
  safe mounted timed handle_timed false (generateSpeech sc).
Proof.
  unfold generateSpeech. cbn. intros r Hr.
  destruct (higgsServiceRef r) as [svc |]; [| exact I].
  destruct (isGenerating (seen sc) || negb (truthy (r_text sc))); [exact I |].
  unfold handle_timed, timed. safe_tac.
Qed.

Lemma higgs_autoGenerateEffect_Safe (sc : Scope) (s : Sched State Refs) :
  Safe mounted timed handle_timed s ->
  Safe mounted timed handle_timed (autoGenerateEffect sc s).
Proof.
  intro H. unfold autoGenerateEffect.
  destruct (autoGenerateCondition sc (refs s)); [| exact H].
  apply (run_sync_Safe _ _ _ (generateSpeech sc) false);
    [exact (higgs_generateSpeech_safe sc) | discriminate | exact H].
Qed.

Lemma higgs_publication (h : Hook) :
  reachable h -> publication_invariant h.
Proof.
  revert h. apply higgs_reachable_ind.
  - cbn. repeat split. intro H. now destruct H.
  - intros h e h' IH Hs. unfold publication_invariant in *. unfold step in Hs.
    destruct e, (scope h) as [sc |] eqn:Esc; try discriminate.
    + inversion Hs; subst; clear Hs. cbn [scope sched].
      apply higgs_autoGenerateEffect_Safe.
      destruct IH as (H1 & H2 & H3). unfold initEffect.
      match goal with
      | |- Safe _ _ _ (run_sync ?t _) => apply (run_sync_Safe _ _ _ t false)
      end.
      * unfold handle_timed, timed. safe_tac.
      * discriminate.
      * repeat split; cbn; try rewrite H1; try rewrite H2; auto; try discriminate;
          try (intro N; now destruct N).
    + inversion Hs; subst; clear Hs. cbn [scope sched].
      destruct (same_deps sc _); [exact IH | now apply higgs_autoGenerateEffect_Safe].
    + apply higgs_on_sched_inv in Hs as (s' & [= <-] & ->). cbn [scope sched]. rewrite Esc.
      apply (run_sync_Safe _ _ _ (generateSpeech sc) false);
        [exact (higgs_generateSpeech_safe sc) | discriminate | exact IH].
    + apply higgs_on_sched_inv in Hs as (s' & E & ->). cbn [scope sched]. rewrite Esc.
      exact (fetch_settles_Safe _ _ _ _ _ _ _ IH E).
    + apply higgs_on_sched_inv in Hs as (s' & E & ->). cbn [scope sched]. rewrite Esc.
      exact (decode_settles_Safe _ _ _ _ _ _ _ IH E).
    + apply higgs_on_sched_inv in Hs as (s' & E & ->). cbn [scope sched]. rewrite Esc.
      exact (resume_Safe _ _ _ _ _ _ IH E).
    + apply higgs_on_sched_inv in Hs as (s' & E & ->). cbn [scope sched]. rewrite Esc.
      unfold load_end in E.
      destruct (nth_error (readers (sched h)) j) as [[b g] |] eqn:En; [| discriminate].
      injection E as <-. now apply reader_end_Safe with (b := b).
Qed.

(** In every reachable instance a handle that is set comes with a
    duration that is set. *)
Lemma higgs_handle_timed (h : Hook) :
  reachable h ->
  narrationAudioPath (state (sched h)) <> None -> 0 < speechDuration (state (sched h)).
Proof.
  intro Hr. pose proof (higgs_publication h Hr) as H.
  unfold publication_invariant in H.
  destruct (scope h); [apply H | apply H].
Qed.

End HiggsPublicationFacts.

(** ** Error messages *)

Module MessageFacts.

Import DataURLFacts.

Lemma includes_prefix (needle hay : string) :
  String.prefix needle hay = true -> includes needle hay = true.
Proof. intro H. destruct hay; cbn [includes]; now rewrite H. Qed.

Lemma includes_here (needle rest : string) :
  includes needle (needle ++ rest) = true.
Proof. apply includes_prefix, DataURLFacts.prefix_append. Qed.

(** A text includes each of the parts it is concatenated from. *)
Lemma includes_append (needle before rest : string) :
  includes needle (before ++ needle ++ rest) = true.
Proof.
  induction before as [| a before IH].
  - cbn [append]. apply includes_here.
  - cbn [append includes]. rewrite IH. now destruct (String.prefix needle _).
Qed.

Lemma append_empty (s : string) : (s ++ "")%string = s.
Proof. induction s as [| a s IH]; cbn; [reflexivity | now rewrite IH]. Qed.

Lemma includes_suffix (needle before : string) :
  includes needle (before ++ needle) = true.
Proof.
  rewrite <- (append_empty needle) at 2. apply includes_append.
Qed.

Lemma speechify_api_error_status (resp : Response) :
  includes (Number_toString (status resp)) (SpeechifyRuns.api_error resp) = true.
Proof. unfold SpeechifyRuns.api_error. apply includes_append. Qed.

Lemma speechify_api_error_body (resp : Response) :
  includes (text_of resp) (SpeechifyRuns.api_error resp) = true.
Proof.
  unfold SpeechifyRuns.api_error.
  rewrite <- !append_assoc. apply includes_suffix.
Qed.

Lemma higgs_api_error_status (resp : Response) :
  includes (Number_toString (status resp)) (HiggsRuns.api_error resp) = true.
Proof. unfold HiggsRuns.api_error. apply includes_append. Qed.

Lemma higgs_api_error_body (resp : Response) :
  includes (text_of resp) (HiggsRuns.api_error resp) = true.
Proof.
  unfold HiggsRuns.api_error.
  rewrite <- !append_assoc. apply includes_suffix.
Qed.

(** A status of 400 or more is not in the range of [response.ok]. *)
Lemma error_status_not_ok (resp : Response) :
  (400 <= status resp)%nat -> ok resp = false.
Proof.
  intro H. unfold ok. apply andb_false_intro2.
  apply Nat.leb_gt. lia.
Qed.

End MessageFacts.


(** ** Calls, renders and the admission guard *)

Module GuardFacts.

Lemma nth_error_before_last {A : Type} (l : list A) (x y : A) :
  nth_error ((l ++ [x]) ++ [y]) (List.length l) = Some x.
Proof. induction l as [| a l IH]; cbn; [reflexivity | exact IH]. Qed.

Lemma remove_nth_before_last {A : Type} (l : list A) (x y : A) :
  remove_nth (List.length l) ((l ++ [x]) ++ [y]) = l ++ [y].
Proof. induction l as [| a l IH]; cbn; [reflexivity | now rewrite IH]. Qed.

Local Arguments ok : simpl never.
Local Arguments append : simpl never.
Local Arguments readAsDataURL : simpl never.
Local Arguments duration : simpl never.

(** Two calls of the callback of one render: the guard reads the
    [isGenerating] of that render both times, and admits both. *)
Lemma speechify_two_calls (h : Speechify.Hook) :
  SpeechifyRuns.admitted h = true ->
  exists h' req,
    Speechify.run h [Speechify.Call; Speechify.Call] = Some h'
    /\ outbound (Speechify.sched h') = (outbound (Speechify.sched h) ++ [req]) ++ [req]
    /\ Speechify.is_synthesize req = true.
Proof.
  intro Ha. SpeechifyFacts.open_admitted h Ha. SpeechifyFacts.settle.
  do 2 eexists. repeat split.
Qed.

(** When a render separates the two calls, the second callback has read
    [isGenerating = true] and the guard rejects the call. *)
Lemma speechify_call_render_call (h : Speechify.Hook) (cfg : Speechify.UseSpeechifyTTSConfig) :
  SpeechifyRuns.admitted h = true ->
  exists h1 h2,
    Speechify.step h Speechify.Call = Some h1
    /\ Speechify.step h1 (Speechify.Render cfg) = Some h2
    /\ Speechify.sched h2 = Speechify.sched h1
    /\ Speechify.step h2 Speechify.Call = Some h2.
Proof.
  intro Ha. SpeechifyFacts.open_admitted h Ha. SpeechifyFacts.settle.
  do 2 eexists. split; [reflexivity |].
  unfold Speechify.autoGenerateEffect, Speechify.autoGenerateCondition. cbn.
  rewrite !andb_false_r.
  split; [reflexivity |]. split; [now destruct (Speechify.same_deps _ _) |].
  destruct (Speechify.same_deps _ _); reflexivity.
Qed.

Lemma higgs_two_calls (h : Higgs.Hook) (p1 p2 : Response) :
  HiggsRuns.admitted h = true ->
  ok p1 = true -> ok p2 = true ->
  exists h' req,
    Higgs.run h [Higgs.Call; Higgs.Call;
                 Higgs.FetchSettles (HiggsRuns.next_task h) (inr p1);
                 Higgs.FetchSettles (HiggsRuns.next_task h) (inr p2)] = Some h'
    /\ Higgs.synthesize_calls h' = (Higgs.synthesize_calls h ++ [req]) ++ [req]
    /\ Higgs.is_synthesize req = true.
Proof.
  intros Ha H1 H2. HiggsFacts.open_admitted h Ha.
  unfold Higgs.on_sched, fetch_settles, suspend, issue, with_state, with_suspended,
    with_readers, with_refs. cbn.
  rewrite nth_error_before_last, remove_nth_before_last. cbn. rewrite H1. cbn.
  unfold suspend, issue, with_state, with_suspended. cbn.
  rewrite nth_error_before_last, remove_nth_before_last. cbn. rewrite H2. cbn.
  do 2 eexists. split; [reflexivity |].
  unfold Higgs.synthesize_calls, suspend, issue, with_state, with_suspended. cbn.
  rewrite !filter_app. cbn. rewrite !app_nil_r. split; reflexivity.
Qed.

Lemma higgs_call_render_call (h : Higgs.Hook) (cfg : Higgs.UseHiggsAudioConfig) :
  HiggsRuns.admitted h = true ->
  exists h1 h2,
    Higgs.step h Higgs.Call = Some h1
    /\ Higgs.step h1 (Higgs.Render cfg) = Some h2
    /\ Higgs.sched h2 = Higgs.sched h1
    /\ Higgs.step h2 Higgs.Call = Some h2.
Proof.
  intro Ha. HiggsFacts.open_admitted h Ha. HiggsFacts.settle.
  do 2 eexists. split; [reflexivity |].
  unfold Higgs.autoGenerateEffect, Higgs.autoGenerateCondition. cbn.
  rewrite !andb_false_r. cbn.
  split; [reflexivity |]. split; [now destruct (Higgs.same_deps _ _) |].
  destruct (Higgs.same_deps _ _); reflexivity.
Qed.

(** The auto-trigger of the local hook needs [isServerAvailable]. *)
Lemma higgs_autoGenerate_available (sc : Higgs.Scope) (r : Higgs.Refs) :
  Higgs.autoGenerateCondition sc r = true -> Higgs.isServerAvailable (Higgs.seen sc) = true.
Proof.
  unfold Higgs.autoGenerateCondition. intro H.
  now apply andb_prop in H as [_ H].
Qed.

(** A render that sees [isServerAvailable = false] triggers nothing. *)
Lemma higgs_render_unavailable (h : Higgs.Hook) (cfg : Higgs.UseHiggsAudioConfig) :
  Higgs.scope h <> None ->
  Higgs.isServerAvailable (state (Higgs.sched h)) = false ->
  exists h',
    Higgs.step h (Higgs.Render cfg) = Some h' /\ Higgs.sched h' = Higgs.sched h.
Proof.
  intros Hs Hf. unfold Higgs.step.
  destruct (Higgs.scope h) as [old |]; [| now destruct Hs].
  eexists. split; [reflexivity |]. cbn.
  destruct (Higgs.same_deps _ _); [reflexivity |].
  unfold Higgs.autoGenerateEffect, Higgs.autoGenerateCondition. cbn.
  rewrite Hf, andb_false_r. reflexivity.
Qed.

(** A probe that passes makes the server available again. *)
Lemma higgs_probe_passes (h : Higgs.Hook) (probe : Response) :
  HiggsRuns.admitted h = true ->
  ok probe = true ->
  exists h',
    Higgs.run h (HiggsRuns.probed h (inr probe)) = Some h'
    /\ Higgs.isServerAvailable (state (Higgs.sched h')) = true.
Proof.
  intros Ha Hp. HiggsFacts.open_admitted h Ha. HiggsFacts.settle.
  rewrite Hp. HiggsFacts.settle.
  eexists. split; reflexivity.
Qed.

End GuardFacts.

(** * The claims *)

Import MessageFacts DataURLFacts AsyncFacts GuardFacts.

Local Open Scope string_scope.
Local Open Scope list_scope.

(** The instances of [Examples] are reachable. *)
Lemma cloud_reachable : SpeechifyRuns.reachable Examples.cloud.
Proof. exists [Speechify.Mount Examples.key Examples.manual]. reflexivity. Defined.

Lemma local_reachable : HiggsRuns.reachable Examples.local.
Proof. exists Examples.local_mount. reflexivity. Defined.

Lemma cloud_ready_reachable : SpeechifyRuns.reachable Examples.cloud_ready.
Proof. exists Examples.cloud_ready_events. vm_compute. reflexivity. Defined.

Lemma local_ready_reachable : HiggsRuns.reachable Examples.local_ready.
Proof. exists Examples.local_ready_events. vm_compute. reflexivity. Defined.



(** C2, as stated, fails: when [generateSpeech] has returned, the duration
    is published and the reader has not ended, so the handle is still
    null.  First attempt of a fresh instance of either hook. *)
Lemma C2_duration_before_handle :
  (exists h,
     Speechify.run Speechify.unmounted
       (Speechify.Mount Examples.key Examples.manual
          :: SpeechifyRuns.decoded Examples.cloud Examples.audio Examples.two_seconds)
     = Some h
     /\ Speechify.narrationAudioPath (state (Speechify.sched h)) = None
     /\ Speechify.speechDuration (state (Speechify.sched h)) = 96000 # 48000
     /\ 0 < Speechify.speechDuration (state (Speechify.sched h))
     /\ Speechify.generationState h = Idle)
  /\
  (exists h,
     Higgs.run Higgs.unmounted
       (Examples.local_mount
          ++ HiggsRuns.decoded Examples.local Examples.healthy Examples.audio
               Examples.two_seconds)
     = Some h
     /\ Higgs.narrationAudioPath (state (Higgs.sched h)) = None
     /\ Higgs.speechDuration (state (Higgs.sched h)) = 96000 # 48000
     /\ 0 < Higgs.speechDuration (state (Higgs.sched h))
     /\ Higgs.generationState h = Idle).
Proof.
  split; eexists; (split; [vm_compute; reflexivity |]); repeat split.
Qed.

(** C2, amended.  In every reachable instance a handle that is set comes
    with a duration that is set; the converse fails, because an attempt
    publishes its two results in two steps: [speechDuration] when the
    decode settles, [narrationAudioPath] when the file reader ends, and in
    between the duration is set while the handle is as it was.  An attempt
    that fails, at any step, changes neither. *)
Theorem C2_publication_in_two_steps :
  (forall (h : Speechify.Hook),
     SpeechifyRuns.reachable h ->
     Speechify.narrationAudioPath (state (Speechify.sched h)) <> None ->
     0 < Speechify.speechDuration (state (Speechify.sched h)))
  /\
  (forall (h : Higgs.Hook),
     HiggsRuns.reachable h ->
     Higgs.narrationAudioPath (state (Higgs.sched h)) <> None ->
     0 < Higgs.speechDuration (state (Higgs.sched h)))
  /\
  (forall (h : Speechify.Hook) (resp : Response) (ab : AudioBuffer) (e : Thrown),
     SpeechifyRuns.reachable h ->
     SpeechifyRuns.admitted h = true ->
     (ok resp = true ->
      exists h1 h2,
        Speechify.run h (SpeechifyRuns.decoded h resp ab) = Some h1
        /\ Speechify.speechDuration (state (Speechify.sched h1)) = duration ab
        /\ Speechify.narrationAudioPath (state (Speechify.sched h1))
           = Speechify.narrationAudioPath (state (Speechify.sched h))
        /\ Speechify.step h1 (Speechify.LoadEnd (SpeechifyRuns.next_reader h) true) = Some h2
        /\ Speechify.speechDuration (state (Speechify.sched h2)) = duration ab
        /\ Speechify.narrationAudioPath (state (Speechify.sched h2))
           = Some (readAsDataURL (blob_of resp)))
     /\ (ok resp = false ->
      exists h',
        Speechify.run h (SpeechifyRuns.backend_error h resp) = Some h'
        /\ Speechify.speechDuration (state (Speechify.sched h'))
           = Speechify.speechDuration (state (Speechify.sched h))
        /\ Speechify.narrationAudioPath (state (Speechify.sched h'))
           = Speechify.narrationAudioPath (state (Speechify.sched h)))
     /\ (exists h',
        Speechify.run h (SpeechifyRuns.transport_error h e) = Some h'
        /\ Speechify.speechDuration (state (Speechify.sched h'))
           = Speechify.speechDuration (state (Speechify.sched h))
        /\ Speechify.narrationAudioPath (state (Speechify.sched h'))
           = Speechify.narrationAudioPath (state (Speechify.sched h)))
     /\ (ok resp = true ->
      exists h',
        Speechify.run h (SpeechifyRuns.decode_error h resp e) = Some h'
        /\ Speechify.speechDuration (state (Speechify.sched h'))
           = Speechify.speechDuration (state (Speechify.sched h))
        /\ Speechify.narrationAudioPath (state (Speechify.sched h'))
           = Speechify.narrationAudioPath (state (Speechify.sched h))))
  /\
  (forall (h : Higgs.Hook) (probe resp : Response) (ab : AudioBuffer) (e : Thrown)
          (x : Thrown + Response),
     HiggsRuns.reachable h ->
     HiggsRuns.admitted h = true ->
     ok probe = true ->
     (ok resp = true ->
      exists h1 h2,
        Higgs.run h (HiggsRuns.decoded h probe resp ab) = Some h1
        /\ Higgs.speechDuration (state (Higgs.sched h1)) = duration ab
        /\ Higgs.narrationAudioPath (state (Higgs.sched h1))
           = Higgs.narrationAudioPath (state (Higgs.sched h))
        /\ Higgs.step h1 (Higgs.LoadEnd (HiggsRuns.next_reader h) true) = Some h2
        /\ Higgs.speechDuration (state (Higgs.sched h2)) = duration ab
        /\ Higgs.narrationAudioPath (state (Higgs.sched h2))
           = Some (readAsDataURL (blob_of resp)))
     /\ (HiggsRuns.health x = false ->
      exists h',
        Higgs.run h (HiggsRuns.probed h x) = Some h'
        /\ Higgs.speechDuration (state (Higgs.sched h'))
           = Higgs.speechDuration (state (Higgs.sched h))
        /\ Higgs.narrationAudioPath (state (Higgs.sched h'))
           = Higgs.narrationAudioPath (state (Higgs.sched h)))
     /\ (ok resp = false ->
      exists h',
        Higgs.run h (HiggsRuns.backend_error h probe resp) = Some h'
        /\ Higgs.speechDuration (state (Higgs.sched h'))
           = Higgs.speechDuration (state (Higgs.sched h))
        /\ Higgs.narrationAudioPath (state (Higgs.sched h'))
           = Higgs.narrationAudioPath (state (Higgs.sched h)))
     /\ (exists h',
        Higgs.run h (HiggsRuns.transport_error h probe e) = Some h'
        /\ Higgs.speechDuration (state (Higgs.sched h'))
           = Higgs.speechDuration (state (Higgs.sched h))
        /\ Higgs.narrationAudioPath (state (Higgs.sched h'))
           = Higgs.narrationAudioPath (state (Higgs.sched h)))
     /\ (ok resp = true ->
      exists h',
        Higgs.run h (HiggsRuns.decode_error h probe resp e) = Some h'
        /\ Higgs.speechDuration (state (Higgs.sched h'))
           = Higgs.speechDuration (state (Higgs.sched h))
        /\ Higgs.narrationAudioPath (state (Higgs.sched h'))
           = Higgs.narrationAudioPath (state (Higgs.sched h)))).
Proof.
  split; [exact SpeechifyPublicationFacts.speechify_handle_timed |].
  split; [exact HiggsPublicationFacts.higgs_handle_timed |].
  split.
  - intros h resp ab e Hr Ha.
    assert (Speechify.audioContextRef (refs (Speechify.sched h)) <> None) as Hc.
    { rewrite (SpeechifyFacts.speechify_reachable_audioContext h Hr
                 (SpeechifyFacts.speechify_admitted_scope h Ha)). discriminate. }
    repeat apply conj.
    + intro Hok.
      destruct (SpeechifyFacts.speechify_decoded_run h resp ab Ha Hc Hok)
        as (h1 & Hrun1 & Hst1 & _).
      destruct (SpeechifyFacts.speechify_success_run h resp ab Ha Hc Hok)
        as (h2 & Hrun2 & Hst2 & _).
      exists h1, h2. rewrite Hst1, Hst2.
      change (SpeechifyRuns.success h resp ab)
        with (SpeechifyRuns.decoded h resp ab
                ++ [Speechify.LoadEnd (SpeechifyRuns.next_reader h) true]) in Hrun2.
      rewrite SpeechifyFacts.speechify_run_app, Hrun1 in Hrun2. cbn [Speechify.run] in Hrun2.
      destruct (Speechify.step h1 _) as [h2' |]; [| discriminate Hrun2].
      injection Hrun2 as ->. repeat split; auto.
    + intro Hok.
      destruct (SpeechifyFacts.speechify_backend_error_run h resp Ha Hok)
        as (h' & Hrun & Hst & _).
      exists h'. rewrite Hst. repeat split; auto.
    + destruct (SpeechifyFacts.speechify_transport_error_run h e Ha)
        as (h' & Hrun & Hst & _).
      exists h'. rewrite Hst. repeat split; auto.
    + intro Hok.
      destruct (SpeechifyFacts.speechify_decode_error_run h resp e Ha Hc Hok)
        as (h' & Hrun & Hst & _).
      exists h'. rewrite Hst. repeat split; auto.
  - intros h probe resp ab e x Hr Ha Hp.
    assert (Higgs.audioContextRef (refs (Higgs.sched h)) <> None) as Hc.
    { rewrite (HiggsFacts.higgs_reachable_audioContext h Hr
                 (HiggsFacts.higgs_admitted_scope h Ha)). discriminate. }
    repeat apply conj.
    + intro Hok.
      destruct (HiggsFacts.higgs_decoded_run h probe resp ab Ha Hc Hp Hok)
        as (h1 & Hrun1 & Hst1 & _).
      destruct (HiggsFacts.higgs_success_run h probe resp ab Ha Hc Hp Hok)
        as (h2 & Hrun2 & Hst2 & _).
      exists h1, h2. rewrite Hst1, Hst2.
      change (HiggsRuns.success h probe resp ab)
        with (HiggsRuns.decoded h probe resp ab
                ++ [Higgs.LoadEnd (HiggsRuns.next_reader h) true]) in Hrun2.
      rewrite HiggsFacts.higgs_run_app, Hrun1 in Hrun2. cbn [Higgs.run] in Hrun2.
      destruct (Higgs.step h1 _) as [h2' |]; [| discriminate Hrun2].
      injection Hrun2 as ->. repeat split; auto.
    + intro Hx.
      destruct (HiggsFacts.higgs_probed_run h x Ha Hx) as (h' & Hrun & Hst & _).
      exists h'. rewrite Hst. repeat split; auto.
    + intro Hok.
      destruct (HiggsFacts.higgs_backend_error_run h probe resp Ha Hp Hok)
        as (h' & Hrun & Hst & _).
      exists h'. rewrite Hst. repeat split; auto.
    + destruct (HiggsFacts.higgs_transport_error_run h probe e Ha Hp)
        as (h' & Hrun & Hst & _).
      exists h'. rewrite Hst. repeat split; auto.
    + intro Hok.
      destruct (HiggsFacts.higgs_decode_error_run h probe resp e Ha Hc Hp Hok)
        as (h' & Hrun & Hst & _).
      exists h'. rewrite Hst. repeat split; auto.
Qed.

(** The amended C2 at the instances of [Examples]. *)
Lemma C2_witness :
  0 < Speechify.speechDuration (state (Speechify.sched Examples.cloud_ready))
  /\
  (exists h1 h2,
     Speechify.run Examples.cloud
       (SpeechifyRuns.decoded Examples.cloud Examples.audio Examples.two_seconds) = Some h1
     /\ Speechify.speechDuration (state (Speechify.sched h1)) = duration Examples.two_seconds
     /\ Speechify.narrationAudioPath (state (Speechify.sched h1))
        = Speechify.narrationAudioPath (state (Speechify.sched Examples.cloud))
     /\ Speechify.step h1 (Speechify.LoadEnd (SpeechifyRuns.next_reader Examples.cloud) true)
        = Some h2
     /\ Speechify.speechDuration (state (Speechify.sched h2)) = duration Examples.two_seconds
     /\ Speechify.narrationAudioPath (state (Speechify.sched h2))
        = Some (readAsDataURL (blob_of Examples.audio)))
  /\
  (exists h',
     Speechify.run Examples.cloud
       (SpeechifyRuns.backend_error Examples.cloud Examples.overloaded) = Some h'
     /\ Speechify.speechDuration (state (Speechify.sched h'))
        = Speechify.speechDuration (state (Speechify.sched Examples.cloud))
     /\ Speechify.narrationAudioPath (state (Speechify.sched h'))
        = Speechify.narrationAudioPath (state (Speechify.sched Examples.cloud))).
Proof.
  split; [| split].
  - apply (proj1 C2_publication_in_two_steps Examples.cloud_ready);
      [exact cloud_ready_reachable | vm_compute; discriminate].
  - apply (proj1 (proj2 (proj2 C2_publication_in_two_steps)) Examples.cloud Examples.audio
             Examples.two_seconds JsOther); [exact cloud_reachable | reflexivity | reflexivity].
  - apply (proj1 (proj2 (proj2 C2_publication_in_two_steps)) Examples.cloud
             Examples.overloaded Examples.two_seconds JsOther);
      [exact cloud_reachable | reflexivity | reflexivity].
Defined.

(** C3.  A response whose status is 400 or more makes [textToSpeech] throw
    an error whose message carries the status code and the text of the
    body; the hook ends in [Failed] with that message, which includes the
    status code.  Both backends (the local one once its probe passed). *)
Theorem C3_error_status_ends_in_Failed :
  (forall (h : Speechify.Hook) (resp : Response),
     SpeechifyRuns.admitted h = true ->
     (400 <= status resp)%nat ->
     (forall this t v l, exists req k,
        Speechify.textToSpeech (St := Speechify.State) (Refs := Speechify.Refs) this t v l
          = Fetch req k
        /\ k (inr resp) = Tick (Throw (JsError (SpeechifyRuns.api_error resp))))
     /\ exists h',
       Speechify.run h (SpeechifyRuns.backend_error h resp) = Some h'
       /\ Speechify.generationState h' = Failed
       /\ Speechify.error (state (Speechify.sched h'))
          = Some (SpeechifyRuns.api_error resp)
       /\ includes (Number_toString (status resp)) (SpeechifyRuns.api_error resp) = true
       /\ includes (text_of resp) (SpeechifyRuns.api_error resp) = true)
  /\
  (forall (h : Higgs.Hook) (probe resp : Response),
     HiggsRuns.admitted h = true ->
     ok probe = true ->
     (400 <= status resp)%nat ->
     (forall this t o, exists req k,
        Higgs.textToSpeech (St := Higgs.State) (Refs := Higgs.Refs) this t o
          = Fetch req k
        /\ k (inr resp) = Tick (Throw (JsError (HiggsRuns.api_error resp))))
     /\ exists h',
       Higgs.run h (HiggsRuns.backend_error h probe resp) = Some h'
       /\ Higgs.generationState h' = Failed
       /\ Higgs.error (state (Higgs.sched h')) = Some (HiggsRuns.api_error resp)
       /\ includes (Number_toString (status resp)) (HiggsRuns.api_error resp) = true
       /\ includes (text_of resp) (HiggsRuns.api_error resp) = true).
Proof.
  split.
  - intros h resp Ha Hs. pose proof (error_status_not_ok resp Hs) as Hok. split.
    + intros this t v l. do 2 eexists. split; [reflexivity |].
      cbn. rewrite Hok. reflexivity.
    + destruct (SpeechifyFacts.speechify_backend_error_run h resp Ha Hok)
        as (h' & Hrun & Hst & _).
      exists h'. split; [exact Hrun |].
      unfold Speechify.generationState. rewrite Hst.
      split; [reflexivity | split; [reflexivity | split]];
        [apply speechify_api_error_status | apply speechify_api_error_body].
  - intros h probe resp Ha Hp Hs. pose proof (error_status_not_ok resp Hs) as Hok. split.
    + intros this t o. do 2 eexists. split; [reflexivity |].
      cbn. rewrite Hok. reflexivity.
    + destruct (HiggsFacts.higgs_backend_error_run h probe resp Ha Hp Hok)
        as (h' & Hrun & Hst & _).
      exists h'. split; [exact Hrun |].
      unfold Higgs.generationState. rewrite Hst.
      split; [reflexivity | split; [reflexivity | split]];
        [apply higgs_api_error_status | apply higgs_api_error_body].
Qed.

(** C3 at the scenario of the specification: HTTP 500 with body
    [model overloaded]. *)
Lemma C3_witness :
  ((forall this t v l, exists req k,
      Speechify.textToSpeech (St := Speechify.State) (Refs := Speechify.Refs) this t v l
        = Fetch req k
      /\ k (inr Examples.overloaded)
         = Tick (Throw (JsError (SpeechifyRuns.api_error Examples.overloaded))))
   /\ exists h',
     Speechify.run Examples.cloud
       (SpeechifyRuns.backend_error Examples.cloud Examples.overloaded) = Some h'
     /\ Speechify.generationState h' = Failed
     /\ Speechify.error (state (Speechify.sched h'))
        = Some (SpeechifyRuns.api_error Examples.overloaded)
     /\ includes (Number_toString (status Examples.overloaded))
          (SpeechifyRuns.api_error Examples.overloaded) = true
     /\ includes (text_of Examples.overloaded)
          (SpeechifyRuns.api_error Examples.overloaded) = true)
  /\
  ((forall this t o, exists req k,
      Higgs.textToSpeech (St := Higgs.State) (Refs := Higgs.Refs) this t o = Fetch req k
      /\ k (inr Examples.overloaded)
         = Tick (Throw (JsError (HiggsRuns.api_error Examples.overloaded))))
   /\ exists h',
     Higgs.run Examples.local
       (HiggsRuns.backend_error Examples.local Examples.healthy Examples.overloaded)
       = Some h'
     /\ Higgs.generationState h' = Failed
     /\ Higgs.error (state (Higgs.sched h'))
        = Some (HiggsRuns.api_error Examples.overloaded)
     /\ includes (Number_toString (status Examples.overloaded))
          (HiggsRuns.api_error Examples.overloaded) = true
     /\ includes (text_of Examples.overloaded)
          (HiggsRuns.api_error Examples.overloaded) = true).
Proof.
  split.
  - apply (proj1 C3_error_status_ends_in_Failed Examples.cloud Examples.overloaded);
      [reflexivity | cbn; lia].
  - apply (proj2 C3_error_status_ends_in_Failed Examples.local Examples.healthy
             Examples.overloaded); [reflexivity | reflexivity | cbn; lia].
Defined.

(** The scenario of the specification: HTTP 500 with body
    [model overloaded]. *)
Example overloaded_message :
  SpeechifyRuns.api_error Examples.overloaded
  = "Speechify API error: 500 Internal Server Error - model overloaded".
Proof. reflexivity. Qed.

(** C4.  The guard of [generateSpeech] reads the [isGenerating] of the
    render that created the callback.  Called twice with no render in
    between, the callback is admitted twice although the first generation
    is in flight: the cloud hook hands two synthesis requests to [fetch],
    and so does the local hook once its two probes have passed. *)
Theorem C4_two_calls_two_requests :
  (exists h1 h2,
     Speechify.step Examples.cloud Speechify.Call = Some h1
     /\ Speechify.generationState h1 = InFlight
     /\ List.length (Speechify.synthesize_calls h1) = 1%nat
     /\ Speechify.step h1 Speechify.Call = Some h2
     /\ List.length (Speechify.synthesize_calls h2) = 2%nat)
  /\
  (exists h1 h2,
     Higgs.step Examples.local Higgs.Call = Some h1
     /\ Higgs.generationState h1 = InFlight
     /\ Higgs.run h1 [Higgs.Call;
                      Higgs.FetchSettles 0 (inr Examples.healthy);
                      Higgs.FetchSettles 0 (inr Examples.healthy)] = Some h2
     /\ List.length (Higgs.synthesize_calls Examples.local) = 0%nat
     /\ List.length (Higgs.synthesize_calls h2) = 2%nat).
Proof.
  split.
  - eexists. eexists.
    split; [vm_compute; reflexivity |].
    split; [reflexivity |].
    split; [reflexivity |].
    split; [vm_compute; reflexivity |].
    reflexivity.
  - eexists. eexists.
    split; [vm_compute; reflexivity |].
    split; [reflexivity |].
    split; [vm_compute; reflexivity |].
    split; reflexivity.
Qed.

(** C5.  Local backend: when [checkHealth] returns false (an error status
    or no answer at all), the attempt issues no synthesis request and ends
    in [Failed] with the message of the unavailable server, which mentions
    [not available]. *)
Theorem C5_probe_fails_no_synthesis :
  forall (h : Higgs.Hook) (x : Thrown + Response),
    HiggsRuns.admitted h = true ->
    HiggsRuns.health x = false ->
    exists h',
      Higgs.run h (HiggsRuns.probed h x) = Some h'
      /\ Higgs.synthesize_calls h' = Higgs.synthesize_calls h
      /\ suspended (Higgs.sched h') = suspended (Higgs.sched h)
      /\ Higgs.generationState h' = Failed
      /\ Higgs.error (state (Higgs.sched h')) = Some Higgs.unavailable
      /\ includes "not available" Higgs.unavailable = true.
Proof.
  intros h x Ha Hx.
  destruct (HiggsFacts.higgs_probed_run h x Ha Hx) as (h' & Hrun & Hst & Hsus & _ & Hcalls).
  exists h'. unfold Higgs.generationState. rewrite Hst. cbn.
  repeat split; auto.
Qed.

(** C5 when the probe gets no answer at all. *)
Lemma C5_witness :
  exists h',
    Higgs.run Examples.local
      (HiggsRuns.probed Examples.local (inl (JsError "Failed to fetch"))) = Some h'
    /\ Higgs.synthesize_calls h' = Higgs.synthesize_calls Examples.local
    /\ suspended (Higgs.sched h') = suspended (Higgs.sched Examples.local)
    /\ Higgs.generationState h' = Failed
    /\ Higgs.error (state (Higgs.sched h')) = Some Higgs.unavailable
    /\ includes "not available" Higgs.unavailable = true.
Proof.
  apply (C5_probe_fails_no_synthesis Examples.local (inl (JsError "Failed to fetch")));
    reflexivity.
Defined.

(** C6, as stated, fails: a call that enters [InFlight] after a successful
    generation keeps the handle of that generation. *)
Lemma C6_handle_kept_on_entry :
  (exists h u,
     SpeechifyRuns.admitted Examples.cloud_ready = true
     /\ Speechify.step Examples.cloud_ready Speechify.Call = Some h
     /\ Speechify.generationState h = InFlight
     /\ Speechify.narrationAudioPath (state (Speechify.sched h)) = Some u)
  /\
  (exists h u,
     HiggsRuns.admitted Examples.local_ready = true
     /\ Higgs.step Examples.local_ready Higgs.Call = Some h
     /\ Higgs.generationState h = InFlight
     /\ Higgs.narrationAudioPath (state (Higgs.sched h)) = Some u).
Proof.
  split; do 2 eexists; (split; [reflexivity |]); (split; [vm_compute; reflexivity |]);
    split; reflexivity.
Qed.

(** C6, amended.  A call that the guard admits sets [isGenerating] and
    clears [error]; the first request is issued on the state so updated;
    the handle and the duration are left as they were. *)
Theorem C6_entry_clears_error_only :
  (forall (h : Speechify.Hook),
     SpeechifyRuns.admitted h = true ->
     exists h' req k,
       Speechify.step h Speechify.Call = Some h'
       /\ Speechify.sched h'
          = suspend
              (issue
                 (with_state (Speechify.sched h)
                    (Speechify.setError None
                       (Speechify.setIsGenerating true (state (Speechify.sched h)))))
                 req)
              (OnFetch req k)
       /\ Speechify.generationState h' = InFlight
       /\ Speechify.error (state (Speechify.sched h')) = None
       /\ Speechify.narrationAudioPath (state (Speechify.sched h'))
          = Speechify.narrationAudioPath (state (Speechify.sched h))
       /\ Speechify.speechDuration (state (Speechify.sched h'))
          = Speechify.speechDuration (state (Speechify.sched h)))
  /\
  (forall (h : Higgs.Hook),
     HiggsRuns.admitted h = true ->
     exists h' req k,
       Higgs.step h Higgs.Call = Some h'
       /\ Higgs.sched h'
          = suspend
              (issue
                 (with_state (Higgs.sched h)
                    (Higgs.setError None
                       (Higgs.setIsGenerating true (state (Higgs.sched h)))))
                 req)
              (OnFetch req k)
       /\ Higgs.generationState h' = InFlight
       /\ Higgs.error (state (Higgs.sched h')) = None
       /\ Higgs.narrationAudioPath (state (Higgs.sched h'))
          = Higgs.narrationAudioPath (state (Higgs.sched h))
       /\ Higgs.speechDuration (state (Higgs.sched h'))
          = Higgs.speechDuration (state (Higgs.sched h))
       /\ Higgs.is_synthesize req = false).
Proof.
  split.
  - intros h Ha. SpeechifyFacts.open_admitted h Ha.
    do 3 eexists. repeat split.
  - intros h Ha. HiggsFacts.open_admitted h Ha.
    do 3 eexists. repeat split.
Qed.

(** The amended C6 at a re-trigger after a successful generation. *)
Lemma C6_witness :
  (exists h' req k,
     Speechify.step Examples.cloud_ready Speechify.Call = Some h'
     /\ Speechify.sched h'
        = suspend
            (issue
               (with_state (Speechify.sched Examples.cloud_ready)
                  (Speechify.setError None
                     (Speechify.setIsGenerating true
                        (state (Speechify.sched Examples.cloud_ready)))))
               req)
            (OnFetch req k)
     /\ Speechify.generationState h' = InFlight
     /\ Speechify.error (state (Speechify.sched h')) = None
     /\ Speechify.narrationAudioPath (state (Speechify.sched h'))
        = Speechify.narrationAudioPath (state (Speechify.sched Examples.cloud_ready))
     /\ Speechify.speechDuration (state (Speechify.sched h'))
        = Speechify.speechDuration (state (Speechify.sched Examples.cloud_ready)))
  /\ SpeechifyRuns.admitted Examples.cloud_ready = true.
Proof.
  split; [| reflexivity].
  apply (proj1 C6_entry_clears_error_only Examples.cloud_ready). reflexivity.
Defined.




(** C8.  The bytes of the response are read back from the published
    handle: on a successful attempt [narrationAudioPath] is a data URL
    whose re-extraction gives exactly the body of the response. *)
Theorem C8_handle_round_trip :
  (forall b : Blob, dataUrlBytes (readAsDataURL b) = Some (blobBytes b))
  /\
  (forall (h : Speechify.Hook) (resp : Response) (ab : AudioBuffer),
     SpeechifyRuns.reachable h ->
     SpeechifyRuns.admitted h = true ->
     ok resp = true ->
     exists h' u,
       Speechify.run h (SpeechifyRuns.success h resp ab) = Some h'
       /\ Speechify.narrationAudioPath (state (Speechify.sched h')) = Some u
       /\ dataUrlBytes u = Some (payload resp))
  /\
  (forall (h : Higgs.Hook) (probe resp : Response) (ab : AudioBuffer),
     HiggsRuns.reachable h ->
     HiggsRuns.admitted h = true ->
     ok probe = true ->
     ok resp = true ->
     exists h' u,
       Higgs.run h (HiggsRuns.success h probe resp ab) = Some h'
       /\ Higgs.narrationAudioPath (state (Higgs.sched h')) = Some u
       /\ dataUrlBytes u = Some (payload resp)).
Proof.
  split; [exact dataUrlBytes_readAsDataURL | split].
  - intros h resp ab Hr Ha Hok.
    destruct (SpeechifyFacts.speechify_success_run h resp ab Ha) as (h' & Hrun & Hst & _).
    + rewrite (SpeechifyFacts.speechify_reachable_audioContext h Hr
                 (SpeechifyFacts.speechify_admitted_scope h Ha)).
      discriminate.
    + exact Hok.
    + exists h', (readAsDataURL (blob_of resp)). rewrite Hst. cbn [Speechify.narrationAudioPath].
      repeat split; [exact Hrun |]. apply dataUrlBytes_readAsDataURL.
  - intros h probe resp ab Hr Ha Hp Hok.
    destruct (HiggsFacts.higgs_success_run h probe resp ab Ha) as (h' & Hrun & Hst & _).
    + rewrite (HiggsFacts.higgs_reachable_audioContext h Hr
                 (HiggsFacts.higgs_admitted_scope h Ha)).
      discriminate.
    + exact Hp.
    + exact Hok.
    + exists h', (readAsDataURL (blob_of resp)). rewrite Hst. cbn [Higgs.narrationAudioPath].
      repeat split; [exact Hrun |]. apply dataUrlBytes_readAsDataURL.
Qed.

(** C8 for the bytes of the stub response. *)
Lemma C8_witness :
  dataUrlBytes (readAsDataURL (blob_of Examples.audio)) = Some (payload Examples.audio)
  /\
  (exists h' u,
     Speechify.run Examples.cloud
       (SpeechifyRuns.success Examples.cloud Examples.audio Examples.two_seconds) = Some h'
     /\ Speechify.narrationAudioPath (state (Speechify.sched h')) = Some u
     /\ dataUrlBytes u = Some (payload Examples.audio))
  /\
  (exists h' u,
     Higgs.run Examples.local
       (HiggsRuns.success Examples.local Examples.healthy Examples.audio
          Examples.two_seconds) = Some h'
     /\ Higgs.narrationAudioPath (state (Higgs.sched h')) = Some u
     /\ dataUrlBytes u = Some (payload Examples.audio)).
Proof.
  split; [| split].
  - exact (proj1 C8_handle_round_trip (blob_of Examples.audio)).
  - apply (proj1 (proj2 C8_handle_round_trip));
      [exact cloud_reachable | reflexivity | reflexivity].
  - apply (proj2 (proj2 C8_handle_round_trip));
      [exact local_reachable | reflexivity | reflexivity | reflexivity].
Defined.

(** C9, as stated, fails for a voice or a language that is given and
    empty: [voiceId || 'default'] and [language || 'en-US'] replace the
    empty string too, so the body does not carry the given values. *)
Lemma C9_empty_voice_replaced :
  exists req k,
    Speechify.textToSpeech (St := Speechify.State) (Refs := Speechify.Refs)
      (Speechify.new_SpeechifyService Examples.key) "Hi" (Some "") (Some "")
    = Fetch req k
    /\ body req = Some [ ("input", JString "Hi");
                         ("voice_id", JString "default");
                         ("language", JString "en-US") ].
Proof. do 2 eexists. split; reflexivity. Qed.

(** C9, amended.  [textToSpeech] builds exactly one request, [POST
    {base}/v1/audio/stream] with the bearer key and [Accept: audio/mpeg];
    its JSON body has [input = t], [voice_id = v] when [v] is given and not
    empty and ["default"] otherwise, [language = l] when [l] is given and
    not empty and ["en-US"] otherwise; on a 2xx response it returns the
    body bytes as they are. *)
Theorem C9_stream_request :
  forall (this : Speechify.SpeechifyService) (t : string) (v l : option string),
  exists req k,
    Speechify.textToSpeech (St := Speechify.State) (Refs := Speechify.Refs) this t v l
    = Fetch req k
    /\ url req = (Speechify.baseUrl this ++ "/v1/audio/stream")%string
    /\ method req = "POST"
    /\ header "Authorization" req = Some ("Bearer " ++ Speechify.apiKey this)%string
    /\ header "Accept" req = Some "audio/mpeg"
    /\ body req
       = Some [ ("input", JString t);
                ("voice_id",
                  JString (match v with
                           | Some s => if truthy s then s else "default"
                           | None => "default"
                           end));
                ("language",
                  JString (match l with
                           | Some s => if truthy s then s else "en-US"
                           | None => "en-US"
                           end)) ]
    /\ (forall x, no_fetch (k x))
    /\ (forall resp, ok resp = true ->
          k (inr resp) = await (blob_of resp)
          /\ blobBytes (blob_of resp) = payload resp).
Proof.
  intros this t v l. do 2 eexists.
  split; [reflexivity |].
  repeat apply conj; try reflexivity.
  - intros [e | resp]; cbn; [exact I |].
    destruct (negb (ok resp)); exact I.
  - intros resp Hok. cbn. rewrite Hok. split; reflexivity.
Qed.

(** The service of the hook talks to the Speechify endpoint. *)
Example stream_url :
  (Speechify.baseUrl (Speechify.new_SpeechifyService Examples.key) ++ "/v1/audio/stream")%string
  = "https://api.sws.speechify.com/v1/audio/stream".
Proof. reflexivity. Qed.



(** * Further properties of the hooks and services *)

(** ** Every way an attempt can end *)

Module AttemptFacts.

Local Arguments ok : simpl never.
Local Arguments Number_toString : simpl never.
Local Arguments text_of : simpl never.
Local Arguments blob_of : simpl never.
Local Arguments readAsDataURL : simpl never.
Local Arguments duration : simpl never.
Local Arguments append : simpl never.
Local Arguments Higgs.unavailable : simpl never.

Lemma speechify_attempt_run (h : Speechify.Hook)
    (x : Thrown + Response) (d : Thrown + AudioBuffer) :
  SpeechifyRuns.admitted h = true ->
  Speechify.audioContextRef (refs (Speechify.sched h)) <> None ->
  exists h' req,
    Speechify.run h (SpeechifyAttempts.attempt h x d) = Some h'
    /\ outbound (Speechify.sched h') = outbound (Speechify.sched h) ++ [req]
    /\ Speechify.is_synthesize req = true
    /\ suspended (Speechify.sched h') = suspended (Speechify.sched h)
    /\ Speechify.isGenerating (state (Speechify.sched h')) = false
    /\ Speechify.error (state (Speechify.sched h')) = SpeechifyAttempts.caught x d
    /\ Speechify.narrationAudioPath (state (Speechify.sched h'))
       = Speechify.narrationAudioPath (state (Speechify.sched h)).
Proof.
  intros Ha Hc. SpeechifyFacts.open_admitted h Ha.
  destruct ctx as [ctx |]; [| now destruct Hc].
  unfold SpeechifyAttempts.attempt, SpeechifyAttempts.caught, SpeechifyRuns.next_task.
  destruct x as [e | resp].
  - cbn. rewrite ?Hgen, ?Htxt. SpeechifyFacts.settle.
    do 2 eexists. repeat split.
  - destruct (ok resp) eqn:Hok.
    + cbn. rewrite ?Hgen, ?Htxt. SpeechifyFacts.settle. rewrite Hok. SpeechifyFacts.settle.
      destruct d as [e | ab]; SpeechifyFacts.settle; do 2 eexists; repeat split.
    + cbn. rewrite ?Hgen, ?Htxt. SpeechifyFacts.settle. rewrite Hok. SpeechifyFacts.settle.
      do 2 eexists. repeat split.
Qed.

Lemma higgs_attempt_run (h : Higgs.Hook)
    (p x : Thrown + Response) (d : Thrown + AudioBuffer) :
  HiggsRuns.admitted h = true ->
  Higgs.audioContextRef (refs (Higgs.sched h)) <> None ->
  exists h' probe,
    Higgs.run h (HiggsAttempts.attempt h p x d) = Some h'
    /\ (if HiggsRuns.health p
        then exists req,
               outbound (Higgs.sched h') = (outbound (Higgs.sched h) ++ [probe]) ++ [req]
               /\ Higgs.is_synthesize req = true
        else outbound (Higgs.sched h') = outbound (Higgs.sched h) ++ [probe])
    /\ Higgs.is_synthesize probe = false
    /\ suspended (Higgs.sched h') = suspended (Higgs.sched h)
    /\ Higgs.isGenerating (state (Higgs.sched h')) = false
    /\ Higgs.error (state (Higgs.sched h')) = HiggsAttempts.caught p x d
    /\ Higgs.isServerAvailable (state (Higgs.sched h'))
       = negb (is_some (HiggsAttempts.caught p x d))
    /\ Higgs.narrationAudioPath (state (Higgs.sched h'))
       = Higgs.narrationAudioPath (state (Higgs.sched h)).
Proof.
  intros Ha Hc. HiggsFacts.open_admitted h Ha.
  destruct ctx as [ctx |]; [| now destruct Hc].
  unfold HiggsAttempts.attempt, HiggsAttempts.caught, HiggsRuns.next_task.
  destruct p as [pe | probe]; cbn [HiggsRuns.health].
  - cbn. rewrite ?Hgen, ?Htxt. HiggsFacts.settle.
    do 2 eexists. repeat (first [reflexivity | split | eexists]).
  - destruct (ok probe) eqn:Hp.
    + destruct x as [e | resp].
      * cbn. rewrite ?Hgen, ?Htxt. HiggsFacts.settle. rewrite Hp. HiggsFacts.settle.
        do 2 eexists. repeat (first [reflexivity | split | eexists]).
      * destruct (ok resp) eqn:Hok.
        -- cbn. rewrite ?Hgen, ?Htxt. HiggsFacts.settle. rewrite Hp. HiggsFacts.settle.
           rewrite Hok. HiggsFacts.settle.
           destruct d as [e | ab]; HiggsFacts.settle; do 2 eexists;
             repeat (first [reflexivity | split | eexists]).
        -- cbn. rewrite ?Hgen, ?Htxt. HiggsFacts.settle. rewrite Hp. HiggsFacts.settle.
           rewrite Hok. HiggsFacts.settle.
           do 2 eexists. repeat (first [reflexivity | split | eexists]).
    + cbn. rewrite ?Hgen, ?Htxt. HiggsFacts.settle. rewrite Hp. HiggsFacts.settle.
      do 2 eexists. repeat (first [reflexivity | split | eexists]).
Qed.

End AttemptFacts.

(** ** Mount, renders and the automatic trigger *)

Module MountFacts.

Local Arguments ok : simpl never.
Local Arguments append : simpl never.
Local Arguments readAsDataURL : simpl never.
Local Arguments duration : simpl never.

(** A property of the start that every event keeps holds at the end. *)
Lemma speechify_run_invariant (I : Speechify.Hook -> Prop) :
  (forall h e h', I h -> Speechify.step h e = Some h' -> I h') ->
  forall es h h', I h -> Speechify.run h es = Some h' -> I h'.
Proof.
  intro Hstep. induction es as [| e es IH]; cbn; intros h h' Hi Hr.
  - now injection Hr as <-.
  - destruct (Speechify.step h e) as [h1 |] eqn:E; [| discriminate].
    eapply IH; [| exact Hr]. eauto.
Qed.

Lemma higgs_run_invariant (I : Higgs.Hook -> Prop) :
  (forall h e h', I h -> Higgs.step h e = Some h' -> I h') ->
  forall es h h', I h -> Higgs.run h es = Some h' -> I h'.
Proof.
  intro Hstep. induction es as [| e es IH]; cbn; intros h h' Hi Hr.
  - now injection Hr as <-.
  - destruct (Higgs.step h e) as [h1 |] eqn:E; [| discriminate].
    eapply IH; [| exact Hr]. eauto.
Qed.

(** Without a key the mount leaves the hook disabled, and no event
    changes anything afterwards. *)
Lemma speechify_disabled_step (h h' : Speechify.Hook) (e : Speechify.Event) :
  Speechify.scope h <> None ->
  Speechify.sched h = SpeechifyAttempts.disabled ->
  Speechify.step h e = Some h' ->
  Speechify.scope h' <> None /\ Speechify.sched h' = SpeechifyAttempts.disabled.
Proof.
  intros Hs Hd. destruct h as [s [sc |]]; [| now destruct Hs]. cbn in Hd. subst s.
  destruct e; cbn; try discriminate.
  - intros [= <-]. cbn. split; [discriminate |].
    destruct (Speechify.same_deps _ _); [reflexivity |].
    unfold Speechify.autoGenerateEffect, Speechify.autoGenerateCondition. cbn.
    now rewrite andb_false_r.
  - intros [= <-]. cbn. split; [discriminate | reflexivity].
  - destruct i; discriminate.
  - destruct i; discriminate.
  - destruct i; discriminate.
  - destruct j; discriminate.
Qed.

Lemma speechify_mount_without_key (K : Speechify.SpeechifyConfig)
    (cfg : Speechify.UseSpeechifyTTSConfig) :
  truthy (Speechify.config_apiKey K) = false ->
  exists h,
    Speechify.step Speechify.unmounted (Speechify.Mount K cfg) = Some h
    /\ Speechify.scope h <> None
    /\ Speechify.sched h = SpeechifyAttempts.disabled.
Proof.
  intro Hk. eexists. split; [reflexivity |]. split; [discriminate |].
  cbn. unfold Speechify.initEffect. rewrite Hk. cbn.
  unfold Speechify.autoGenerateEffect, Speechify.autoGenerateCondition. cbn.
  now rewrite andb_false_r.
Qed.

End MountFacts.

Import AttemptFacts MountFacts.

(** X1.  [useSpeechifyTTS] mounted without an API key (the example
    configuration with [REMOTION_SPEECHIFY_API_KEY] unset or empty gives
    such a key) publishes the configuration error and is disabled for
    good: whatever happens afterwards (renders with any argument, calls of
    [generateSpeech]), the instance stays as the mount left it and nothing
    is ever handed to [fetch]. *)
Theorem X1_missing_key_disables_generation :
  forall (K : Speechify.SpeechifyConfig) (cfg : Speechify.UseSpeechifyTTSConfig)
         (es : list Speechify.Event) (h : Speechify.Hook),
    truthy (Speechify.config_apiKey K) = false ->
    Speechify.run Speechify.unmounted (Speechify.Mount K cfg :: es) = Some h ->
    Speechify.sched h = SpeechifyAttempts.disabled
    /\ Speechify.error (state (Speechify.sched h)) = Some "Speechify API key not configured"
    /\ Speechify.generationState h = Failed
    /\ outbound (Speechify.sched h) = [].
Proof.
  intros K cfg es h Hk Hr. cbn [Speechify.run] in Hr.
  destruct (speechify_mount_without_key K cfg Hk) as (h0 & E & Hs & Hd).
  rewrite E in Hr.
  assert (Speechify.scope h <> None /\ Speechify.sched h = SpeechifyAttempts.disabled)
    as [_ H].
  { apply (speechify_run_invariant
             (fun h => Speechify.scope h <> None
                       /\ Speechify.sched h = SpeechifyAttempts.disabled))
      with (es := es) (h := h0); auto.
    intros h1 e h2 [H1 H2]. now apply speechify_disabled_step. }
  unfold Speechify.generationState. rewrite H. repeat split.
Qed.

(** X1 for the example configuration with the variable unset, after a
    render and two calls. *)
Lemma X1_witness :
  truthy (Speechify.config_apiKey (SpeechifyAttempts.SPEECHIFY_CONFIG None)) = false
  /\ exists h,
       Speechify.run Speechify.unmounted
         [Speechify.Mount (SpeechifyAttempts.SPEECHIFY_CONFIG None) Examples.manual;
          Speechify.Render Examples.manual; Speechify.Call; Speechify.Call] = Some h
       /\ Speechify.sched h = SpeechifyAttempts.disabled
       /\ Speechify.error (state (Speechify.sched h))
          = Some "Speechify API key not configured"
       /\ Speechify.generationState h = Failed
       /\ outbound (Speechify.sched h) = [].
Proof.
  split; [reflexivity |].
  eexists. split; [vm_compute; reflexivity |].
  apply (X1_missing_key_disables_generation
           (SpeechifyAttempts.SPEECHIFY_CONFIG None) Examples.manual
           [Speechify.Render Examples.manual; Speechify.Call; Speechify.Call]);
    [reflexivity | vm_compute; reflexivity].
Defined.

(** X2.  With a key, a non-empty text and [autoGenerate] not switched
    off, the mount of [useSpeechifyTTS] starts one generation by itself:
    exactly one request is issued, to the stream endpoint with the bearer
    key, and its body carries the text, the voice of the argument or
    ['oliver'] when none is given (['default'] when it is given empty), and
    the language or ['en-US']. *)
Theorem X2_mount_generates_once :
  forall (K : Speechify.SpeechifyConfig) (cfg : Speechify.UseSpeechifyTTSConfig),
    truthy (Speechify.config_apiKey K) = true ->
    truthy (Speechify.text cfg) = true ->
    Speechify.autoGenerate cfg <> Some false ->
    exists h req,
      Speechify.run Speechify.unmounted [Speechify.Mount K cfg] = Some h
      /\ outbound (Speechify.sched h) = [req]
      /\ url req = "https://api.sws.speechify.com/v1/audio/stream"
      /\ method req = "POST"
      /\ header "Authorization" req = Some ("Bearer " ++ Speechify.config_apiKey K)%string
      /\ body req
         = Some [ ("input", JString (Speechify.text cfg));
                  ("voice_id",
                    JString (match Speechify.voiceId cfg with
                             | None => "oliver"
                             | Some v => if truthy v then v else "default"
                             end));
                  ("language",
                    JString (match Speechify.language cfg with
                             | None => "en-US"
                             | Some l => if truthy l then l else "en-US"
                             end)) ]
      /\ Speechify.generationState h = InFlight
      /\ List.length (suspended (Speechify.sched h)) = 1%nat.
Proof.
  intros K [t v l a] Hk Ht Ha. cbn in Ht, Ha.
  assert (nullish a true = true) as Hauto.
  { destruct a as [[|] |]; cbn; auto; now destruct Ha. }
  do 2 eexists. cbn [Speechify.run Speechify.step Speechify.unmounted Speechify.scope].
  unfold Speechify.initEffect. cbn. rewrite Hk. cbn.
  unfold Speechify.autoGenerateEffect, Speechify.autoGenerateCondition. cbn.
  repeat (progress (rewrite ?Hauto, ?Ht; cbn)).
  split; [reflexivity |]. split; [reflexivity |].
  split; [reflexivity |]. split; [reflexivity |]. split; [reflexivity |].
  split; [| split; reflexivity].
  destruct v as [v |], l as [l |]; reflexivity.
Qed.

Lemma X2_witness :
  exists h req,
    Speechify.run Speechify.unmounted
      [Speechify.Mount Examples.key
         {| Speechify.text := "Hello"; Speechify.voiceId := Some "";
            Speechify.language := None; Speechify.autoGenerate := None |}] = Some h
    /\ outbound (Speechify.sched h) = [req]
    /\ url req = "https://api.sws.speechify.com/v1/audio/stream"
    /\ method req = "POST"
    /\ header "Authorization" req = Some "Bearer sk-test"
    /\ body req
       = Some [ ("input", JString "Hello"); ("voice_id", JString "default");
                ("language", JString "en-US") ]
    /\ Speechify.generationState h = InFlight
    /\ List.length (suspended (Speechify.sched h)) = 1%nat.
Proof.
  apply (X2_mount_generates_once Examples.key
           {| Speechify.text := "Hello"; Speechify.voiceId := Some "";
              Speechify.language := None; Speechify.autoGenerate := None |});
    [reflexivity | reflexivity | discriminate].
Defined.

Module RetryFacts.

Local Arguments ok : simpl never.
Local Arguments append : simpl never.

Lemma nullish_autoGenerate (a : option bool) : a <> Some false -> nullish a true = true.
Proof. destruct a as [[|] |]; cbn; auto; intro H; now destruct H. Qed.

Lemma higgs_mount (HC : Higgs.HiggsAudioConfig) (cfg : Higgs.UseHiggsAudioConfig) :
  exists k,
    Higgs.step Higgs.unmounted (Higgs.Mount HC cfg)
    = Some {| Higgs.sched :=
                {| refs := HiggsAttempts.mounted_refs HC;
                   state := Higgs.initialState;
                   suspended := [OnFetch (HiggsAttempts.probe HC) k];
                   readers := [];
                   outbound := [HiggsAttempts.probe HC] |};
              Higgs.scope := Some (Higgs.render cfg Higgs.initialState) |}
    /\ forall x, k x = Modify (Higgs.setIsServerAvailable (HiggsRuns.health x)) (Ret tt).
Proof.
  eexists. split.
  - cbn. unfold Higgs.autoGenerateEffect, Higgs.autoGenerateCondition. cbn.
    rewrite !andb_false_r. reflexivity.
  - intros [e | resp]; reflexivity.
Qed.

End RetryFacts.

(** X3.  The cloud hook retries by itself.  With [autoGenerate] on, after
    an attempt that failed (here: the request was rejected) the next
    render finds [isGenerating] changed, no handle and a non-empty text,
    and its effect calls [generateSpeech] again: a second synthesis request
    is issued and the error of the first attempt is cleared. *)
Theorem X3_cloud_hook_retries_after_failure :
  forall (h : Speechify.Hook) (cfg : Speechify.UseSpeechifyTTSConfig) (e : Thrown),
    SpeechifyRuns.admitted h = true ->
    Speechify.autoGenerate cfg <> Some false ->
    truthy (Speechify.text cfg) = true ->
    truthy_opt (Speechify.narrationAudioPath (state (Speechify.sched h))) = false ->
    exists h1 h2 r1 r2,
      Speechify.run h [Speechify.Call; Speechify.Render cfg;
                       Speechify.FetchSettles (SpeechifyRuns.next_task h) (inl e)]
      = Some h1
      /\ Speechify.generationState h1 = Failed
      /\ outbound (Speechify.sched h1) = outbound (Speechify.sched h) ++ [r1]
      /\ Speechify.step h1 (Speechify.Render cfg) = Some h2
      /\ Speechify.generationState h2 = InFlight
      /\ Speechify.error (state (Speechify.sched h2)) = None
      /\ outbound (Speechify.sched h2) = (outbound (Speechify.sched h) ++ [r1]) ++ [r2]
      /\ Speechify.is_synthesize r1 = true
      /\ Speechify.is_synthesize r2 = true.
Proof.
  intros h [t v l a] e Ha Hauto Ht Hp. cbn in Hauto, Ht.
  apply RetryFacts.nullish_autoGenerate in Hauto.
  SpeechifyFacts.open_admitted h Ha. cbn in Hp.
  unfold Speechify.autoGenerateEffect, Speechify.autoGenerateCondition. cbn.
  rewrite !andb_false_r. cbn.
  destruct (Speechify.same_deps sc _); SpeechifyFacts.settle;
    (do 4 eexists; split; [reflexivity |]; split; [reflexivity |];
     split; [reflexivity |];
     unfold Speechify.same_deps; cbn; rewrite !andb_false_r; cbn;
     unfold Speechify.autoGenerateEffect, Speechify.autoGenerateCondition; cbn;
     repeat (progress (rewrite ?Hauto, ?Ht, ?Hp; cbn));
     repeat split).
Qed.

Lemma X3_witness :
  exists h1 h2 r1 r2,
    Speechify.run Examples.cloud
      [Speechify.Call; Speechify.Render MoreExamples.auto;
       Speechify.FetchSettles (SpeechifyRuns.next_task Examples.cloud)
         (inl (JsError "Failed to fetch"))]
    = Some h1
    /\ Speechify.generationState h1 = Failed
    /\ outbound (Speechify.sched h1) = outbound (Speechify.sched Examples.cloud) ++ [r1]
    /\ Speechify.step h1 (Speechify.Render MoreExamples.auto) = Some h2
    /\ Speechify.generationState h2 = InFlight
    /\ Speechify.error (state (Speechify.sched h2)) = None
    /\ outbound (Speechify.sched h2)
       = (outbound (Speechify.sched Examples.cloud) ++ [r1]) ++ [r2]
    /\ Speechify.is_synthesize r1 = true
    /\ Speechify.is_synthesize r2 = true.
Proof.
  apply (X3_cloud_hook_retries_after_failure Examples.cloud MoreExamples.auto
           (JsError "Failed to fetch"));
    [reflexivity | discriminate | reflexivity | reflexivity].
Defined.

(** X4.  The local hook waits for its liveness probe.  Its mount issues
    one request, [GET {base}/health], and starts no generation, even with
    [autoGenerate] on.  When that probe settles, [isServerAvailable] takes
    the answer of [checkHealth] (false for an error status and for a
    rejected request, which is not reported as an error) and nothing else
    changes.  The render that follows starts the first generation, by a
    probe of its own, when the answer was true, and does nothing when it
    was false. *)
Theorem X4_local_hook_waits_for_probe :
  forall (HC : Higgs.HiggsAudioConfig) (cfg : Higgs.UseHiggsAudioConfig)
         (x : Thrown + Response),
    truthy (Higgs.text cfg) = true ->
    Higgs.autoGenerate cfg <> Some false ->
    exists h0 h1 h2 probe,
      Higgs.step Higgs.unmounted (Higgs.Mount HC cfg) = Some h0
      /\ outbound (Higgs.sched h0) = [probe]
      /\ url probe
         = (or_default (Higgs.config_baseUrl HC) "http://localhost:8000" ++ "/health")%string
      /\ method probe = "GET"
      /\ state (Higgs.sched h0) = Higgs.initialState
      /\ Higgs.step h0 (Higgs.FetchSettles 0 x) = Some h1
      /\ state (Higgs.sched h1)
         = Higgs.setIsServerAvailable (HiggsRuns.health x) Higgs.initialState
      /\ outbound (Higgs.sched h1) = [probe]
      /\ Higgs.step h1 (Higgs.Render cfg) = Some h2
      /\ (if HiggsRuns.health x
          then Higgs.generationState h2 = InFlight
               /\ outbound (Higgs.sched h2) = [probe; probe]
          else Higgs.sched h2 = Higgs.sched h1).
Proof.
  intros HC cfg x Ht Hauto.
  apply RetryFacts.nullish_autoGenerate in Hauto.
  destruct (RetryFacts.higgs_mount HC cfg) as (k & E0 & Hk).
  eexists. eexists. rewrite E0. cbn [Higgs.sched outbound state].
  assert (forall b, exists h2,
            Higgs.step
              {| Higgs.sched :=
                   {| refs := HiggsAttempts.mounted_refs HC;
                      state := Higgs.setIsServerAvailable b Higgs.initialState;
                      suspended := []; readers := [];
                      outbound := [HiggsAttempts.probe HC] |};
                 Higgs.scope := Some (Higgs.render cfg Higgs.initialState) |}
              (Higgs.Render cfg) = Some h2
            /\ (if b
                then Higgs.generationState h2 = InFlight
                     /\ outbound (Higgs.sched h2)
                        = [HiggsAttempts.probe HC; HiggsAttempts.probe HC]
                else Higgs.sched h2
                     = {| refs := HiggsAttempts.mounted_refs HC;
                          state := Higgs.setIsServerAvailable false Higgs.initialState;
                          suspended := []; readers := [];
                          outbound := [HiggsAttempts.probe HC] |})) as Hrender.
  { intros [|]; eexists; (split; [reflexivity |]); cbn.
    - unfold Higgs.same_deps. cbn. rewrite !andb_false_r. cbn.
      unfold Higgs.autoGenerateEffect, Higgs.autoGenerateCondition. cbn.
      repeat (progress (rewrite ?Hauto, ?Ht; cbn)).
      split; reflexivity.
    - unfold Higgs.autoGenerateEffect, Higgs.autoGenerateCondition. cbn.
      rewrite !andb_false_r. cbn.
      now destruct (Higgs.same_deps _ _). }
  destruct (Hrender (HiggsRuns.health x)) as (h2 & E2 & H2).
  exists h2, (HiggsAttempts.probe HC).
  split; [reflexivity |]. split; [reflexivity |]. split; [reflexivity |].
  split; [reflexivity |]. split; [reflexivity |].
  split.
  { cbn. unfold fetch_settles. cbn. rewrite Hk. cbn. reflexivity. }
  cbn [Higgs.sched state outbound].
  split; [reflexivity |]. split; [reflexivity |].
  split; [exact E2 |].
  destruct (HiggsRuns.health x); exact H2.
Qed.

Lemma X4_witness :
  exists h0 h1 h2 probe,
    Higgs.step Higgs.unmounted (Higgs.Mount Examples.local_config MoreExamples.local_auto)
    = Some h0
    /\ outbound (Higgs.sched h0) = [probe]
    /\ url probe = "http://localhost:8000/health"
    /\ method probe = "GET"
    /\ state (Higgs.sched h0) = Higgs.initialState
    /\ Higgs.step h0 (Higgs.FetchSettles 0 (inr Examples.healthy)) = Some h1
    /\ state (Higgs.sched h1) = Higgs.setIsServerAvailable true Higgs.initialState
    /\ outbound (Higgs.sched h1) = [probe]
    /\ Higgs.step h1 (Higgs.Render MoreExamples.local_auto) = Some h2
    /\ Higgs.generationState h2 = InFlight
    /\ outbound (Higgs.sched h2) = [probe; probe].
Proof.
  destruct (X4_local_hook_waits_for_probe Examples.local_config MoreExamples.local_auto
              (inr Examples.healthy) eq_refl)
    as (h0 & h1 & h2 & probe & H0 & H1 & H2 & H3 & H4 & H5 & H6 & H7 & H8 & H9 & H10).
  - discriminate.
  - exists h0, h1, h2, probe. repeat split; assumption.
Defined.

(** X5.  However an admitted attempt of the cloud hook ends, it has issued
    exactly one synthesis request (nothing is retried inside an attempt),
    it leaves nothing suspended, [isGenerating] is false again, and
    [error] is null exactly when the request returned a 2xx response and
    its audio decoded; otherwise it holds the message of what was thrown:
    the rejection, the API error of the response, or the decode error
    (['Unknown error'] for a thrown value that is not an [Error]).  The
    handle is not touched by the attempt itself. *)
Theorem X5_cloud_attempt_outcomes :
  forall (h : Speechify.Hook) (x : Thrown + Response) (d : Thrown + AudioBuffer),
    SpeechifyRuns.reachable h ->
    SpeechifyRuns.admitted h = true ->
    exists h' req,
      Speechify.run h (SpeechifyAttempts.attempt h x d) = Some h'
      /\ outbound (Speechify.sched h') = outbound (Speechify.sched h) ++ [req]
      /\ Speechify.is_synthesize req = true
      /\ suspended (Speechify.sched h') = suspended (Speechify.sched h)
      /\ Speechify.isGenerating (state (Speechify.sched h')) = false
      /\ Speechify.error (state (Speechify.sched h')) = SpeechifyAttempts.caught x d
      /\ Speechify.narrationAudioPath (state (Speechify.sched h'))
         = Speechify.narrationAudioPath (state (Speechify.sched h)).
Proof.
  intros h x d Hr Ha. apply speechify_attempt_run; [exact Ha |].
  rewrite (SpeechifyFacts.speechify_reachable_audioContext h Hr
             (SpeechifyFacts.speechify_admitted_scope h Ha)).
  discriminate.
Qed.

Lemma X5_witness :
  exists h' req,
    Speechify.run Examples.cloud
      (SpeechifyAttempts.attempt Examples.cloud (inr Examples.audio) (inl JsOther)) = Some h'
    /\ outbound (Speechify.sched h') = outbound (Speechify.sched Examples.cloud) ++ [req]
    /\ Speechify.is_synthesize req = true
    /\ suspended (Speechify.sched h') = suspended (Speechify.sched Examples.cloud)
    /\ Speechify.isGenerating (state (Speechify.sched h')) = false
    /\ Speechify.error (state (Speechify.sched h')) = Some "Unknown error"
    /\ Speechify.narrationAudioPath (state (Speechify.sched h'))
       = Speechify.narrationAudioPath (state (Speechify.sched Examples.cloud)).
Proof.
  apply (X5_cloud_attempt_outcomes Examples.cloud (inr Examples.audio) (inl JsOther));
    [exact cloud_reachable | reflexivity].
Defined.

(** X6.  However an admitted attempt of the local hook ends, it has issued
    one liveness probe and, only when [checkHealth] returned true, one
    synthesis request after it; it leaves nothing suspended and
    [isGenerating] false; [error] holds what was thrown, if anything, and
    [isServerAvailable] is true exactly when nothing was thrown. *)
Theorem X6_local_attempt_outcomes :
  forall (h : Higgs.Hook) (p x : Thrown + Response) (d : Thrown + AudioBuffer),
    HiggsRuns.reachable h ->
    HiggsRuns.admitted h = true ->
    exists h' probe,
      Higgs.run h (HiggsAttempts.attempt h p x d) = Some h'
      /\ (if HiggsRuns.health p
          then exists req,
                 outbound (Higgs.sched h') = (outbound (Higgs.sched h) ++ [probe]) ++ [req]
                 /\ Higgs.is_synthesize req = true
          else outbound (Higgs.sched h') = outbound (Higgs.sched h) ++ [probe])
      /\ Higgs.is_synthesize probe = false
      /\ suspended (Higgs.sched h') = suspended (Higgs.sched h)
      /\ Higgs.isGenerating (state (Higgs.sched h')) = false
      /\ Higgs.error (state (Higgs.sched h')) = HiggsAttempts.caught p x d
      /\ Higgs.isServerAvailable (state (Higgs.sched h'))
         = negb (is_some (HiggsAttempts.caught p x d))
      /\ Higgs.narrationAudioPath (state (Higgs.sched h'))
         = Higgs.narrationAudioPath (state (Higgs.sched h)).
Proof.
  intros h p x d Hr Ha. apply higgs_attempt_run; [exact Ha |].
  rewrite (HiggsFacts.higgs_reachable_audioContext h Hr
             (HiggsFacts.higgs_admitted_scope h Ha)).
  discriminate.
Qed.

Lemma X6_witness :
  exists h' probe,
    Higgs.run Examples.local
      (HiggsAttempts.attempt Examples.local (inr Examples.healthy)
         (inr Examples.overloaded) (inl JsOther)) = Some h'
    /\ (exists req,
          outbound (Higgs.sched h')
          = (outbound (Higgs.sched Examples.local) ++ [probe]) ++ [req]
          /\ Higgs.is_synthesize req = true)
    /\ Higgs.is_synthesize probe = false
    /\ suspended (Higgs.sched h') = suspended (Higgs.sched Examples.local)
    /\ Higgs.isGenerating (state (Higgs.sched h')) = false
    /\ Higgs.error (state (Higgs.sched h'))
       = Some (HiggsRuns.api_error Examples.overloaded)
    /\ Higgs.isServerAvailable (state (Higgs.sched h')) = false
    /\ Higgs.narrationAudioPath (state (Higgs.sched h'))
       = Higgs.narrationAudioPath (state (Higgs.sched Examples.local)).
Proof.
  apply (X6_local_attempt_outcomes Examples.local (inr Examples.healthy)
           (inr Examples.overloaded) (inl JsOther));
    [exact local_reachable | reflexivity].
Defined.

Module RenderFacts.

(** A render whose effect finds its condition false changes nothing but
    the constants of the render. *)
Lemma speechify_render_quiet (h : Speechify.Hook) (cfg : Speechify.UseSpeechifyTTSConfig) :
  Speechify.scope h <> None ->
  Speechify.autoGenerateCondition (Speechify.render cfg (state (Speechify.sched h)))
    (refs (Speechify.sched h)) = false ->
  Speechify.step h (Speechify.Render cfg)
  = Some {| Speechify.sched := Speechify.sched h;
            Speechify.scope := Some (Speechify.render cfg (state (Speechify.sched h))) |}.
Proof.
  intros Hs Hc. unfold Speechify.step.
  destruct (Speechify.scope h) as [old |]; [| now destruct Hs].
  unfold Speechify.autoGenerateEffect. rewrite Hc.
  now destruct (Speechify.same_deps _ _).
Qed.

Lemma higgs_render_quiet (h : Higgs.Hook) (cfg : Higgs.UseHiggsAudioConfig) :
  Higgs.scope h <> None ->
  Higgs.autoGenerateCondition (Higgs.render cfg (state (Higgs.sched h)))
    (refs (Higgs.sched h)) = false ->
  Higgs.step h (Higgs.Render cfg)
  = Some {| Higgs.sched := Higgs.sched h;
            Higgs.scope := Some (Higgs.render cfg (state (Higgs.sched h))) |}.
Proof.
  intros Hs Hc. unfold Higgs.step.
  destruct (Higgs.scope h) as [old |]; [| now destruct Hs].
  unfold Higgs.autoGenerateEffect. rewrite Hc.
  now destruct (Higgs.same_deps _ _).
Qed.

Lemma speechify_renders_quiet (cfgs : list Speechify.UseSpeechifyTTSConfig) :
  forall h,
    Speechify.scope h <> None ->
    (forall cfg, In cfg cfgs ->
       Speechify.autoGenerateCondition (Speechify.render cfg (state (Speechify.sched h)))
         (refs (Speechify.sched h)) = false) ->
    exists h',
      Speechify.run h (map Speechify.Render cfgs) = Some h'
      /\ Speechify.sched h' = Speechify.sched h.
Proof.
  induction cfgs as [| cfg cfgs IH]; intros h Hs Hq.
  - exists h. split; reflexivity.
  - cbn [map Speechify.run].
    rewrite speechify_render_quiet by (auto; apply Hq; now left).
    match goal with |- context [Speechify.run ?h1 _] => destruct (IH h1) as (h' & Hr & Hs') end;
      [cbn; discriminate | intros c Hc; apply Hq; now right |].
    exists h'. split; [exact Hr | exact Hs'].
Qed.

Lemma higgs_renders_quiet (cfgs : list Higgs.UseHiggsAudioConfig) :
  forall h,
    Higgs.scope h <> None ->
    (forall cfg, In cfg cfgs ->
       Higgs.autoGenerateCondition (Higgs.render cfg (state (Higgs.sched h)))
         (refs (Higgs.sched h)) = false) ->
    exists h',
      Higgs.run h (map Higgs.Render cfgs) = Some h'
      /\ Higgs.sched h' = Higgs.sched h.
Proof.
  induction cfgs as [| cfg cfgs IH]; intros h Hs Hq.
  - exists h. split; reflexivity.
  - cbn [map Higgs.run].
    rewrite higgs_render_quiet by (auto; apply Hq; now left).
    match goal with |- context [Higgs.run ?h1 _] => destruct (IH h1) as (h' & Hr & Hs') end;
      [cbn; discriminate | intros c Hc; apply Hq; now right |].
    exists h'. split; [exact Hr | exact Hs'].
Qed.

End RenderFacts.

(** X7.  A file reader that fails is not reported.  When the request and
    the decode of an attempt succeeded and [readAsDataURL] then fails,
    [onloadend] runs with a null result: [narrationAudioPath] becomes null
    (a handle published earlier is dropped), [error] stays null,
    [isGenerating] is false and [speechDuration] holds the decoded
    duration; the consumer sees the state of a hook that never ran. *)
Theorem X7_failed_read_is_silent :
  (forall (h : Speechify.Hook) (resp : Response) (ab : AudioBuffer),
     SpeechifyRuns.reachable h ->
     SpeechifyRuns.admitted h = true ->
     ok resp = true ->
     exists h',
       Speechify.run h (SpeechifyRuns.decoded h resp ab
                          ++ [Speechify.LoadEnd (SpeechifyRuns.next_reader h) false])
       = Some h'
       /\ state (Speechify.sched h')
          = {| Speechify.narrationAudioPath := None;
               Speechify.isGenerating := false;
               Speechify.speechDuration := duration ab;
               Speechify.error := None |}
       /\ Speechify.generationState h' = Idle
       /\ readers (Speechify.sched h') = readers (Speechify.sched h))
  /\
  (forall (h : Higgs.Hook) (probe resp : Response) (ab : AudioBuffer),
     HiggsRuns.reachable h ->
     HiggsRuns.admitted h = true ->
     ok probe = true ->
     ok resp = true ->
     exists h',
       Higgs.run h (HiggsRuns.decoded h probe resp ab
                      ++ [Higgs.LoadEnd (HiggsRuns.next_reader h) false])
       = Some h'
       /\ state (Higgs.sched h')
          = {| Higgs.narrationAudioPath := None;
               Higgs.isGenerating := false;
               Higgs.speechDuration := duration ab;
               Higgs.error := None;
               Higgs.isServerAvailable := true |}
       /\ Higgs.generationState h' = Idle
       /\ readers (Higgs.sched h') = readers (Higgs.sched h)).
Proof.
  split.
  - intros h resp ab Hr Ha Hok.
    assert (Speechify.audioContextRef (refs (Speechify.sched h)) <> None) as Hc.
    { rewrite (SpeechifyFacts.speechify_reachable_audioContext h Hr
                 (SpeechifyFacts.speechify_admitted_scope h Ha)). discriminate. }
    SpeechifyFacts.open_admitted h Ha.
    destruct ctx as [ctx |]; [| now destruct Hc].
    unfold SpeechifyRuns.next_reader. cbn.
    rewrite ?Hgen, ?Htxt. SpeechifyFacts.settle. rewrite Hok. SpeechifyFacts.settle.
    eexists. repeat split.
  - intros h probe resp ab Hr Ha Hp Hok.
    assert (Higgs.audioContextRef (refs (Higgs.sched h)) <> None) as Hc.
    { rewrite (HiggsFacts.higgs_reachable_audioContext h Hr
                 (HiggsFacts.higgs_admitted_scope h Ha)). discriminate. }
    HiggsFacts.open_admitted h Ha.
    destruct ctx as [ctx |]; [| now destruct Hc].
    unfold HiggsRuns.next_reader. cbn.
    rewrite ?Hgen, ?Htxt. HiggsFacts.settle. rewrite Hp. HiggsFacts.settle.
    rewrite Hok. HiggsFacts.settle.
    eexists. repeat split.
Qed.

Lemma X7_witness :
  (exists h',
     Speechify.run Examples.cloud
       (SpeechifyRuns.decoded Examples.cloud Examples.audio Examples.two_seconds
          ++ [Speechify.LoadEnd (SpeechifyRuns.next_reader Examples.cloud) false])
     = Some h'
     /\ state (Speechify.sched h')
        = {| Speechify.narrationAudioPath := None;
             Speechify.isGenerating := false;
             Speechify.speechDuration := duration Examples.two_seconds;
             Speechify.error := None |}
     /\ Speechify.generationState h' = Idle
     /\ readers (Speechify.sched h') = readers (Speechify.sched Examples.cloud))
  /\
  (exists h',
     Higgs.run Examples.local
       (HiggsRuns.decoded Examples.local Examples.healthy Examples.audio
          Examples.two_seconds
          ++ [Higgs.LoadEnd (HiggsRuns.next_reader Examples.local) false])
     = Some h'
     /\ state (Higgs.sched h')
        = {| Higgs.narrationAudioPath := None;
             Higgs.isGenerating := false;
             Higgs.speechDuration := duration Examples.two_seconds;
             Higgs.error := None;
             Higgs.isServerAvailable := true |}
     /\ Higgs.generationState h' = Idle
     /\ readers (Higgs.sched h') = readers (Higgs.sched Examples.local)).
Proof.
  split.
  - apply (proj1 X7_failed_read_is_silent);
      [exact cloud_reachable | reflexivity | reflexivity].
  - apply (proj2 X7_failed_read_is_silent);
      [exact local_reachable | reflexivity | reflexivity | reflexivity].
Defined.

(** X8.  Once a handle is published the hooks never generate by
    themselves again.  While [narrationAudioPath] holds a non-empty
    string, any sequence of renders, with any arguments (a new text, a new
    voice, other options), leaves the instance as it is: no request, no
    state change.  Only a call of [generateSpeech] by the consumer
    replaces the audio of a text that changed. *)
Theorem X8_published_handle_stops_auto_generation :
  (forall (h : Speechify.Hook) (cfgs : list Speechify.UseSpeechifyTTSConfig),
     Speechify.scope h <> None ->
     truthy_opt (Speechify.narrationAudioPath (state (Speechify.sched h))) = true ->
     exists h',
       Speechify.run h (map Speechify.Render cfgs) = Some h'
       /\ Speechify.sched h' = Speechify.sched h)
  /\
  (forall (h : Higgs.Hook) (cfgs : list Higgs.UseHiggsAudioConfig),
     Higgs.scope h <> None ->
     truthy_opt (Higgs.narrationAudioPath (state (Higgs.sched h))) = true ->
     exists h',
       Higgs.run h (map Higgs.Render cfgs) = Some h'
       /\ Higgs.sched h' = Higgs.sched h).
Proof.
  split.
  - intros h cfgs Hs Hp. apply RenderFacts.speechify_renders_quiet; [exact Hs |].
    intros cfg _. unfold Speechify.autoGenerateCondition. cbn [Speechify.seen Speechify.render].
    rewrite Hp. cbn. now rewrite andb_false_r.
  - intros h cfgs Hs Hp. apply RenderFacts.higgs_renders_quiet; [exact Hs |].
    intros cfg _. unfold Higgs.autoGenerateCondition. cbn [Higgs.seen Higgs.render].
    rewrite Hp. cbn. now rewrite !andb_false_r.
Qed.

Lemma X8_witness :
  (exists h',
     Speechify.run Examples.cloud_ready (map Speechify.Render [MoreExamples.auto])
     = Some h'
     /\ Speechify.sched h' = Speechify.sched Examples.cloud_ready)
  /\
  (exists h',
     Higgs.run Examples.local_ready (map Higgs.Render [MoreExamples.local_auto])
     = Some h'
     /\ Higgs.sched h' = Higgs.sched Examples.local_ready).
Proof.
  split.
  - apply (proj1 X8_published_handle_stops_auto_generation);
      [vm_compute; discriminate | vm_compute; reflexivity].
  - apply (proj2 X8_published_handle_stops_auto_generation);
      [vm_compute; discriminate | vm_compute; reflexivity].
Defined.

(** X9.  With [autoGenerate: false], or with an empty text, the hooks
    generate nothing by themselves: after the mount and any sequence of
    renders with such arguments (and, for the local hook, whatever the
    probe of the mount answers), no synthesis request has been issued and
    the state is Idle.  The cloud hook has issued no request at all, the
    local hook only its probe. *)
Theorem X9_no_auto_generation_when_disabled :
  (forall (K : Speechify.SpeechifyConfig) (cfg : Speechify.UseSpeechifyTTSConfig)
          (cfgs : list Speechify.UseSpeechifyTTSConfig),
     truthy (Speechify.config_apiKey K) = true ->
     (forall c, In c (cfg :: cfgs) ->
        Speechify.autoGenerate c = Some false \/ truthy (Speechify.text c) = false) ->
     exists h,
       Speechify.run Speechify.unmounted
         (Speechify.Mount K cfg :: map Speechify.Render cfgs) = Some h
       /\ outbound (Speechify.sched h) = []
       /\ state (Speechify.sched h) = Speechify.initialState
       /\ Speechify.generationState h = Idle)
  /\
  (forall (HC : Higgs.HiggsAudioConfig) (cfg : Higgs.UseHiggsAudioConfig)
          (x : Thrown + Response) (cfgs : list Higgs.UseHiggsAudioConfig),
     (forall c, In c (cfg :: cfgs) ->
        Higgs.autoGenerate c = Some false \/ truthy (Higgs.text c) = false) ->
     exists h,
       Higgs.run Higgs.unmounted
         (Higgs.Mount HC cfg :: Higgs.FetchSettles 0 x :: map Higgs.Render cfgs) = Some h
       /\ Higgs.synthesize_calls h = []
       /\ state (Higgs.sched h)
          = Higgs.setIsServerAvailable (HiggsRuns.health x) Higgs.initialState
       /\ Higgs.generationState h = Idle).
Proof.
  split.
  - intros K cfg cfgs Hk Hoff.
    assert (forall c st r, In c (cfg :: cfgs) ->
              Speechify.autoGenerateCondition (Speechify.render c st) r = false) as Hc.
    { intros c st r Hin. unfold Speechify.autoGenerateCondition. cbn.
      destruct (Hoff c Hin) as [-> | ->]; cbn; [reflexivity |].
      now rewrite !andb_false_r. }
    cbn [Speechify.run]. unfold Speechify.step. cbn [Speechify.scope Speechify.unmounted].
    unfold Speechify.autoGenerateEffect. rewrite Hc by now left.
    match goal with |- context [Speechify.run ?h1 _] =>
      destruct (RenderFacts.speechify_renders_quiet cfgs h1) as (h' & Hr & Hs') end;
      [cbn; discriminate | intros c Hin; apply Hc; now right |].
    exists h'. split; [exact Hr |].
    unfold Speechify.generationState. rewrite Hs'. cbn.
    unfold Speechify.initEffect. rewrite Hk. cbn. repeat split.
  - intros HC cfg x cfgs Hoff.
    assert (forall c st r, In c (cfg :: cfgs) ->
              Higgs.autoGenerateCondition (Higgs.render c st) r = false) as Hc.
    { intros c st r Hin. unfold Higgs.autoGenerateCondition. cbn.
      destruct (Hoff c Hin) as [-> | ->]; cbn; [reflexivity |].
      now rewrite !andb_false_r. }
    cbn [Higgs.run].
    destruct (RetryFacts.higgs_mount HC cfg) as (k & E0 & Hk). rewrite E0.
    unfold Higgs.step at 1. cbn [Higgs.scope Higgs.sched]. unfold fetch_settles.
    cbn [suspended nth_error]. rewrite Hk. cbn [run_sync Higgs.on_sched].
    match goal with |- context [Higgs.run ?h1 _] =>
      destruct (RenderFacts.higgs_renders_quiet cfgs h1) as (h' & Hr & Hs') end;
      [cbn; discriminate | intros c Hin; apply Hc; now right |].
    exists h'. split; [exact Hr |].
    unfold Higgs.generationState, Higgs.synthesize_calls. rewrite Hs'. cbn.
    repeat split.
Qed.

Lemma X9_witness :
  (exists h,
     Speechify.run Speechify.unmounted
       (Speechify.Mount Examples.key Examples.manual
          :: map Speechify.Render [Examples.manual]) = Some h
     /\ outbound (Speechify.sched h) = []
     /\ state (Speechify.sched h) = Speechify.initialState
     /\ Speechify.generationState h = Idle)
  /\
  (exists h,
     Higgs.run Higgs.unmounted
       (Higgs.Mount Examples.local_config Examples.local_manual
          :: Higgs.FetchSettles 0 (inr Examples.healthy)
          :: map Higgs.Render [Examples.local_manual]) = Some h
     /\ Higgs.synthesize_calls h = []
     /\ state (Higgs.sched h)
        = Higgs.setIsServerAvailable (HiggsRuns.health (inr Examples.healthy))
            Higgs.initialState
     /\ Higgs.generationState h = Idle).
Proof.
  split.
  - apply (proj1 X9_no_auto_generation_when_disabled); [reflexivity |].
    intros c [<- | [<- | []]]; left; reflexivity.
  - apply (proj2 X9_no_auto_generation_when_disabled).
    intros c [<- | [<- | []]]; left; reflexivity.
Defined.

Module TrafficFacts.
Import Traffic.

Section Generic.

Context {St Refs : Type}.
Variable R : Refs -> Prop.
Variable Q : Request -> Prop.

Lemma sends_bind {A B : Type} (t : Task St Refs A) (k : A -> Task St Refs B) :
  sends R Q t -> (forall a, sends R Q (k a)) -> sends R Q (bind t k).
Proof.
  intros Ht Hk.
  induction t as [a | e | f t IH | t IH | req t IH | buf t IH | t IH | b h t IH];
    cbn in *; auto.
  destruct Ht; auto.
Qed.

Lemma sends_try_catch {A : Type} (t : Task St Refs A) (h : Thrown -> Task St Refs A) :
  sends R Q t -> (forall e, sends R Q (h e)) -> sends R Q (try_catch t h).
Proof.
  intros Ht Hh.
  induction t as [a | e | f t IH | t IH | req t IH | buf t IH | t IH | b g t IH];
    cbn in *; auto.
  destruct Ht; auto.
Qed.

Lemma sends_finally {A : Type} (t : Task St Refs A) (fin : Task St Refs unit) :
  sends R Q t -> sends R Q fin -> sends R Q (finally t fin).
Proof.
  intros Ht Hf. unfold finally.
  apply sends_bind.
  - apply sends_try_catch; [exact Ht |].
    intro e. apply sends_bind; [exact Hf | intros; exact I].
  - intro a. apply sends_bind; [exact Hf | intros; exact I].
Qed.

Lemma sends_try_catch_finally {A : Type}
    (t : Task St Refs A) (h : Thrown -> Task St Refs A) (fin : Task St Refs unit) :
  sends R Q t -> (forall e, sends R Q (h e)) -> sends R Q fin ->
  sends R Q (try_catch_finally t h fin).
Proof.
  intros. unfold try_catch_finally.
  apply sends_finally; [apply sends_try_catch |]; assumption.
Qed.

Lemma sends_settled {A : Type} (x : Thrown + A) :
  sends R Q (settled (St := St) (Refs := Refs) x).
Proof. destruct x; exact I. Qed.

Lemma sends_fetch (req : Request) :
  Q req -> sends R Q (fetch (St := St) (Refs := Refs) req).
Proof. intro H. split; [exact H | intro x; apply sends_settled]. Qed.

Lemma sends_decodeAudioData (buf : list byte) :
  sends R Q (decodeAudioData (St := St) (Refs := Refs) buf).
Proof. intro x. apply sends_settled. Qed.

(** A synchronous segment issues only what its task sends. *)
Lemma run_sync_Sends (t : Task St Refs unit) :
  sends R Q t -> forall s, Sends R Q s -> Sends R Q (run_sync t s).
Proof.
  induction t as [a | e | f k IH | k IH | req k IH | buf k IH | k IH | b h k IH];
    cbn; intros Ht s Hs; auto.
  - apply IH; [apply Ht; apply Hs | exact Hs].
  - destruct Ht as [Hq Hk]. destruct Hs as (H1 & H2 & H3). repeat split; cbn; auto.
    + apply Forall_app. split; [exact H2 | constructor; [exact Hq | constructor]].
    + apply Forall_app. split; [exact H3 | constructor; [exact Hk | constructor]].
  - destruct Hs as (H1 & H2 & H3). repeat split; cbn; auto.
    apply Forall_app. split; [exact H3 | constructor; [exact Ht | constructor]].
  - destruct Hs as (H1 & H2 & H3). repeat split; cbn; auto.
    apply Forall_app. split; [exact H3 | constructor; [exact Ht | constructor]].
Qed.

Lemma fetch_settles_Sends i x (s s' : Sched St Refs) :
  Sends R Q s -> fetch_settles i x s = Some s' -> Sends R Q s'.
Proof.
  intros Hs. unfold fetch_settles.
  destruct (nth_error (suspended s) i) as [[req k | buf k | k] |] eqn:E; try discriminate.
  intros [= <-]. destruct Hs as (H1 & H2 & H3).
  apply run_sync_Sends.
  - exact (Forall_nth_error _ _ _ _ H3 E x).
  - repeat split; cbn; auto using Forall_remove_nth.
Qed.

Lemma decode_settles_Sends i x (s s' : Sched St Refs) :
  Sends R Q s -> decode_settles i x s = Some s' -> Sends R Q s'.
Proof.
  intros Hs. unfold decode_settles.
  destruct (nth_error (suspended s) i) as [[req k | buf k | k] |] eqn:E; try discriminate.
  intros [= <-]. destruct Hs as (H1 & H2 & H3).
  apply run_sync_Sends.
  - exact (Forall_nth_error _ _ _ _ H3 E x).
  - repeat split; cbn; auto using Forall_remove_nth.
Qed.

Lemma resume_Sends i (s s' : Sched St Refs) :
  Sends R Q s -> resume i s = Some s' -> Sends R Q s'.
Proof.
  intros Hs. unfold resume.
  destruct (nth_error (suspended s) i) as [[req k | buf k | k] |] eqn:E; try discriminate.
  intros [= <-]. destruct Hs as (H1 & H2 & H3).
  apply run_sync_Sends.
  - exact (Forall_nth_error _ _ _ _ H3 E).
  - repeat split; cbn; auto using Forall_remove_nth.
Qed.

End Generic.

Local Arguments ok : simpl never.
Local Arguments append : simpl never.
Local Arguments truthy : simpl never.

Lemma truthy_or_default (a : option string) (b : string) :
  truthy b = true -> truthy (or_default a b) = true.
Proof.
  intro Hb. destruct a as [v |]; cbn; [| exact Hb].
  destruct (truthy v) eqn:E; [exact E | exact Hb].
Qed.

Section Cloud.
Import Speechify SpeechifyTraffic.

Variable key : string.

Lemma speechify_generateSpeech_sends (sc : Scope) :
  sends (service_of key) (stream_request key) (generateSpeech sc).
Proof.
  unfold generateSpeech. intros r Hr. unfold service_of in Hr.
  destruct (speechifyServiceRef r) as [svc |]; [| exact I].
  destruct Hr as [Hkey ->].
  destruct (isGenerating (seen sc)); cbn [orb]; [exact I |].
  destruct (truthy (r_text sc)) eqn:Ht; cbn [negb]; [| exact I].
  apply sends_bind; [exact I | intros _].
  apply sends_bind; [exact I | intros _].
  apply sends_try_catch_finally.
  - apply sends_bind.
    + unfold textToSpeech. apply sends_try_catch; [| intro; exact I].
      apply sends_bind.
      * apply sends_fetch. unfold stream_request. cbn.
        split; [exact Hkey |]. split; [reflexivity |]. split; [reflexivity |].
        split; [reflexivity |].
        do 3 eexists. split; [reflexivity |].
        split; [exact Ht |].
        split; [apply (truthy_or_default (Some (r_voiceId sc)))
               | apply (truthy_or_default (Some (r_language sc)))]; reflexivity.
      * intro response. destruct (negb (ok response)); cbn; auto.
    + intro audioBlob. apply sends_bind; [exact I | intro arrayBuffer].
      apply sends_bind.
      * intros r' _. destruct (audioContextRef r'); [| exact I].
        apply sends_bind; [apply sends_decodeAudioData | intro; exact I].
      * intros _. exact I.
  - intro e. exact I.
  - exact I.
Qed.

Lemma speechify_autoGenerateEffect_Sends (sc : Scope) (s : Sched State Refs) :
  Sends (service_of key) (stream_request key) s ->
  Sends (service_of key) (stream_request key) (autoGenerateEffect sc s).
Proof.
  intro H. unfold autoGenerateEffect.
  destruct (autoGenerateCondition sc (refs s)); [| exact H].
  apply run_sync_Sends; [apply speechify_generateSpeech_sends | exact H].
Qed.

Lemma speechify_load_end_Sends j success (s s' : Sched State Refs) :
  Sends (service_of key) (stream_request key) s -> load_end j success s = Some s' ->
  Sends (service_of key) (stream_request key) s'.
Proof.
  intros (H1 & H2 & H3). unfold load_end.
  destruct (nth_error (readers s) j) as [[b g] |] eqn:E; [| discriminate].
  intros [= <-]. repeat split; cbn; auto.
Qed.

Lemma speechify_step_Sends (h h' : Hook) (e : Event) :
  scope h <> None /\ Sends (service_of key) (stream_request key) (sched h) ->
  step h e = Some h' ->
  scope h' <> None /\ Sends (service_of key) (stream_request key) (sched h').
Proof.
  intros [Hsc IH] Hs. unfold step in Hs.
  destruct e, (scope h) as [sc |] eqn:Esc; try discriminate; try (now destruct Hsc).
  - inversion Hs; subst; clear Hs. cbn. split; [discriminate |].
    destruct (same_deps sc _); [exact IH | now apply speechify_autoGenerateEffect_Sends].
  - apply SpeechifyFacts.speechify_on_sched_inv in Hs as (s' & [= <-] & ->). cbn.
    rewrite Esc. split; [discriminate |].
    apply (run_sync_Sends _ _ (generateSpeech sc));
      [apply speechify_generateSpeech_sends | exact IH].
  - apply SpeechifyFacts.speechify_on_sched_inv in Hs as (s' & E & ->). cbn.
    rewrite Esc. split; [discriminate |].
    exact (fetch_settles_Sends _ _ _ _ _ _ IH E).
  - apply SpeechifyFacts.speechify_on_sched_inv in Hs as (s' & E & ->). cbn.
    rewrite Esc. split; [discriminate |].
    exact (decode_settles_Sends _ _ _ _ _ _ IH E).
  - apply SpeechifyFacts.speechify_on_sched_inv in Hs as (s' & E & ->). cbn.
    rewrite Esc. split; [discriminate |].
    exact (resume_Sends _ _ _ _ _ IH E).
  - apply SpeechifyFacts.speechify_on_sched_inv in Hs as (s' & E & ->). cbn.
    rewrite Esc. split; [discriminate |].
    exact (speechify_load_end_Sends _ _ _ _ IH E).
Qed.

End Cloud.

Lemma speechify_mount_Sends (K : Speechify.SpeechifyConfig)
    (cfg : Speechify.UseSpeechifyTTSConfig) (h : Speechify.Hook) :
  Speechify.step Speechify.unmounted (Speechify.Mount K cfg) = Some h ->
  Speechify.scope h <> None
  /\ Sends (SpeechifyTraffic.service_of (Speechify.config_apiKey K))
       (SpeechifyTraffic.stream_request (Speechify.config_apiKey K)) (Speechify.sched h).
Proof.
  cbn. intros [= <-]. cbn. split; [discriminate |].
  apply speechify_autoGenerateEffect_Sends.
  unfold Speechify.initEffect.
  destruct (truthy (Speechify.config_apiKey K)) eqn:Hk;
    repeat split; cbn; auto.
Qed.

Section Local.
Import Higgs HiggsTraffic.

Variable base : string.

Lemma higgs_checkHealth_sends (svc : HiggsAudioService) :
  baseUrl svc = base ->
  sends (service_of base) (local_request base)
    (checkHealth (St := State) (Refs := Refs) svc).
Proof.
  intro Hb. unfold checkHealth. apply sends_try_catch; [| intro; exact I].
  apply sends_bind; [| intro; exact I].
  apply sends_fetch. left. unfold probe_request. now rewrite Hb.
Qed.

Lemma higgs_generateSpeech_sends (sc : Scope) :
  sends (service_of base) (local_request base) (generateSpeech sc).
Proof.
  unfold generateSpeech. intros r Hr. unfold service_of in Hr.
  destruct (higgsServiceRef r) as [svc |]; [| exact I].
  destruct (isGenerating (seen sc)); cbn [orb]; [exact I |].
  destruct (truthy (r_text sc)) eqn:Ht; cbn [negb]; [| exact I].
  apply sends_bind; [exact I | intros _].
  apply sends_bind; [exact I | intros _].
  apply sends_try_catch_finally.
  - apply sends_bind; [now apply higgs_checkHealth_sends | intro isAvailable].
    apply sends_bind; [destruct (negb isAvailable); exact I | intros _].
    apply sends_bind; [exact I | intros _].
    apply sends_bind.
    + unfold textToSpeech. apply sends_try_catch; [| intro; exact I].
      apply sends_bind.
      * apply sends_fetch. right. unfold generate_request. cbn. rewrite Hr.
        split; [reflexivity |]. split; [reflexivity |]. split; [reflexivity |].
        do 6 eexists. split; [reflexivity | exact Ht].
      * intro response. destruct (negb (ok response)); cbn; auto.
    + intro audioBlob. apply sends_bind; [exact I | intro arrayBuffer].
      apply sends_bind.
      * intros r' _. destruct (audioContextRef r'); [| exact I].
        apply sends_bind; [apply sends_decodeAudioData | intro; exact I].
      * intros _. exact I.
  - intro e. exact I.
  - exact I.
Qed.

Lemma higgs_autoGenerateEffect_Sends (sc : Scope) (s : Sched State Refs) :
  Sends (service_of base) (local_request base) s ->
  Sends (service_of base) (local_request base) (autoGenerateEffect sc s).
Proof.
  intro H. unfold autoGenerateEffect.
  destruct (autoGenerateCondition sc (refs s)); [| exact H].
  apply run_sync_Sends; [apply higgs_generateSpeech_sends | exact H].
Qed.

Lemma higgs_load_end_Sends j success (s s' : Sched State Refs) :
  Sends (service_of base) (local_request base) s -> load_end j success s = Some s' ->
  Sends (service_of base) (local_request base) s'.
Proof.
  intros (H1 & H2 & H3). unfold load_end.
  destruct (nth_error (readers s) j) as [[b g] |] eqn:E; [| discriminate].
  intros [= <-]. repeat split; cbn; auto.
Qed.

Lemma higgs_step_Sends (h h' : Hook) (e : Event) :
  scope h <> None /\ Sends (service_of base) (local_request base) (sched h) ->
  step h e = Some h' ->
  scope h' <> None /\ Sends (service_of base) (local_request base) (sched h').
Proof.
  intros [Hsc IH] Hs. unfold step in Hs.
  destruct e, (scope h) as [sc |] eqn:Esc; try discriminate; try (now destruct Hsc).
  - inversion Hs; subst; clear Hs. cbn. split; [discriminate |].
    destruct (same_deps sc _); [exact IH | now apply higgs_autoGenerateEffect_Sends].
  - apply HiggsFacts.higgs_on_sched_inv in Hs as (s' & [= <-] & ->). cbn.
    rewrite Esc. split; [discriminate |].
    apply (run_sync_Sends _ _ (generateSpeech sc));
      [apply higgs_generateSpeech_sends | exact IH].
  - apply HiggsFacts.higgs_on_sched_inv in Hs as (s' & E & ->). cbn.
    rewrite Esc. split; [discriminate |].
    exact (fetch_settles_Sends _ _ _ _ _ _ IH E).
  - apply HiggsFacts.higgs_on_sched_inv in Hs as (s' & E & ->). cbn.
    rewrite Esc. split; [discriminate |].
    exact (decode_settles_Sends _ _ _ _ _ _ IH E).
  - apply HiggsFacts.higgs_on_sched_inv in Hs as (s' & E & ->). cbn.
    rewrite Esc. split; [discriminate |].
    exact (resume_Sends _ _ _ _ _ IH E).
  - apply HiggsFacts.higgs_on_sched_inv in Hs as (s' & E & ->). cbn.
    rewrite Esc. split; [discriminate |].
    exact (higgs_load_end_Sends _ _ _ _ IH E).
Qed.

End Local.

Lemma higgs_mount_Sends (HC : Higgs.HiggsAudioConfig)
    (cfg : Higgs.UseHiggsAudioConfig) (h : Higgs.Hook) :
  Higgs.step Higgs.unmounted (Higgs.Mount HC cfg) = Some h ->
  Higgs.scope h <> None
  /\ Sends (HiggsTraffic.service_of
              (or_default (Higgs.config_baseUrl HC) "http://localhost:8000"))
       (HiggsTraffic.local_request
          (or_default (Higgs.config_baseUrl HC) "http://localhost:8000"))
       (Higgs.sched h).
Proof.
  unfold Higgs.step. cbn [Higgs.scope Higgs.unmounted].
  intros [= <-]. cbn [Higgs.scope Higgs.sched]. split; [discriminate |].
  apply higgs_autoGenerateEffect_Sends.
  unfold Higgs.initEffect.
  apply run_sync_Sends.
  - apply sends_bind; [now apply higgs_checkHealth_sends | intro; exact I].
  - repeat split; cbn; auto.
Qed.

End TrafficFacts.

(** X10.  All the traffic of the cloud hook.  Whatever happens after the
    mount (renders with any arguments, calls, answers of the network, of
    the decoder and of the file reader, in any order), every request the
    hook has handed to [fetch] is a [POST] to
    [https://api.sws.speechify.com/v1/audio/stream] that carries the key
    of the configuration as bearer token, the key is non-empty, and the
    three fields of its body, [input], [voice_id] and [language], are
    non-empty strings: the hook never sends an empty text and never
    contacts another endpoint. *)
Theorem X10_cloud_hook_traffic :
  forall (K : Speechify.SpeechifyConfig) (cfg : Speechify.UseSpeechifyTTSConfig)
         (es : list Speechify.Event) (h : Speechify.Hook),
    Speechify.run Speechify.unmounted (Speechify.Mount K cfg :: es) = Some h ->
    Forall (SpeechifyTraffic.stream_request (Speechify.config_apiKey K))
      (outbound (Speechify.sched h)).
Proof.
  intros K cfg es h Hrun. cbn [Speechify.run] in Hrun.
  destruct (Speechify.step Speechify.unmounted (Speechify.Mount K cfg)) as [h0 |] eqn:E0;
    [| discriminate].
  apply TrafficFacts.speechify_mount_Sends in E0.
  pose proof (speechify_run_invariant _
                (fun a e b => TrafficFacts.speechify_step_Sends
                                (Speechify.config_apiKey K) a b e)
                es h0 h E0 Hrun) as [_ (_ & H & _)].
  exact H.
Qed.

Lemma X10_witness :
  Forall (SpeechifyTraffic.stream_request (Speechify.config_apiKey Examples.key))
    (outbound (Speechify.sched Examples.cloud_ready)).
Proof.
  apply (X10_cloud_hook_traffic Examples.key Examples.manual
           (SpeechifyRuns.success Examples.cloud Examples.audio Examples.two_seconds
              ++ [Speechify.Render Examples.manual])
           Examples.cloud_ready).
  vm_compute. reflexivity.
Defined.




(** X13.  [checkHealth] never throws and sends one request, [GET
    {base}/health], without headers.  Its promise resolves to [true]
    exactly when the request is answered with a status from 200 to 299:
    a rejection, a redirect or an error status all give [false]. *)
Theorem X13_checkHealth_never_throws :
  forall (this : Higgs.HiggsAudioService) (x : Thrown + Response),
    (exists k,
       Higgs.checkHealth (St := Higgs.State) (Refs := Higgs.Refs) this
       = Fetch {| url := Higgs.baseUrl this ++ "/health"; method := "GET";
                  headers := []; body := None |} k
       /\ forall y, no_fetch (k y))
    /\ (exists b,
          Completion.completion x
            (Higgs.checkHealth (St := Higgs.State) (Refs := Higgs.Refs) this)
          = Some (inr b)
          /\ (b = true <->
              exists resp, x = inr resp /\ (200 <= status resp <= 299)%nat)).
Proof.
  intros this x. split.
  - eexists. split; [reflexivity |]. intros [e | resp]; exact I.
  - destruct x as [e | resp]; cbn.
    + exists false. split; [reflexivity |]. split; [discriminate |].
      intros (resp & H & _). discriminate H.
    + exists (ok resp). split; [reflexivity |]. unfold ok. split.
      * intro H. apply andb_true_iff in H as [H1 H2].
        apply Nat.leb_le in H1, H2. exists resp. split; [reflexivity | lia].
      * intros (r & [= <-] & H1 & H2).
        apply andb_true_iff. split; apply Nat.leb_le; assumption.
Qed.

(** X14.  [getVoices] sends one request, [GET {base}/v1/voices] with the
    bearer key.  A rejection is rethrown; a response outside 200-299
    throws [Failed to fetch voices: <status> - <body>] (without the status
    text); a body that does not parse throws the error of the parser, and
    so does the property read when the body is [null].  Otherwise the
    method returns the parsed body when it is an array, its [voices]
    property when the body is an object with a truthy one, and the empty
    array in every other case.  What it returns is therefore never falsy,
    and it is an array unless [voices] holds a truthy value that is not
    one. *)
Theorem X14_getVoices_settles :
  forall (json : Response -> Thrown + Voices.Json) (TypeError_null : Thrown)
         (this : Speechify.SpeechifyService),
    (exists k,
       Voices.getVoices (St := Speechify.State) (Refs := Speechify.Refs)
         json TypeError_null this
       = Fetch {| url := Speechify.baseUrl this ++ "/v1/voices";
                  method := "GET";
                  headers := [ ("Authorization", ("Bearer " ++ Speechify.apiKey this)%string);
                               ("Content-Type", "application/json") ];
                  body := None |} k
       /\ forall y, no_fetch (k y))
    /\ (forall e,
          Completion.completion (inl e)
            (Voices.getVoices (St := Speechify.State) (Refs := Speechify.Refs)
               json TypeError_null this)
          = Some (inl e))
    /\ (forall resp,
          ok resp = false ->
          Completion.completion (inr resp)
            (Voices.getVoices (St := Speechify.State) (Refs := Speechify.Refs)
               json TypeError_null this)
          = Some (inl (JsError ("Failed to fetch voices: "
                                ++ Number_toString (status resp)
                                ++ " - " ++ text_of resp)%string)))
    /\ (forall resp,
          ok resp = true ->
          Completion.completion (inr resp)
            (Voices.getVoices (St := Speechify.State) (Refs := Speechify.Refs)
               json TypeError_null this)
          = Some (match json resp with
                  | inl e => inl e
                  | inr Voices.JsonNull => inl TypeError_null
                  | inr (Voices.JsonArray items) => inr (Voices.JsonArray items)
                  | inr (Voices.JsonObject members) =>
                      match find (fun kv => String.eqb (fst kv) "voices") members with
                      | Some (_, v) =>
                          inr (if Voices.json_truthy v then v else Voices.JsonArray [])
                      | None => inr (Voices.JsonArray [])
                      end
                  | inr _ => inr (Voices.JsonArray [])
                  end))
    /\ (forall x v,
          Completion.completion x
            (Voices.getVoices (St := Speechify.State) (Refs := Speechify.Refs)
               json TypeError_null this)
          = Some (inr v) ->
          Voices.json_truthy v = true).
Proof.
  intros json TypeError_null this.
  assert (forall resp,
            ok resp = true ->
            Completion.completion (inr resp)
              (Voices.getVoices (St := Speechify.State) (Refs := Speechify.Refs)
                 json TypeError_null this)
            = Some (match json resp with
                    | inl e => inl e
                    | inr Voices.JsonNull => inl TypeError_null
                    | inr (Voices.JsonArray items) => inr (Voices.JsonArray items)
                    | inr (Voices.JsonObject members) =>
                        match find (fun kv => String.eqb (fst kv) "voices") members with
                        | Some (_, v) =>
                            inr (if Voices.json_truthy v then v else Voices.JsonArray [])
                        | None => inr (Voices.JsonArray [])
                        end
                    | inr _ => inr (Voices.JsonArray [])
                    end)) as Hok.
  { intros resp H. cbn. rewrite H. cbn.
    destruct (json resp) as [e | [| b | q | s | items | members]]; cbn; try reflexivity.
    destruct (find _ members) as [[name v] |]; cbn; reflexivity. }
  split.
  { eexists. split; [reflexivity |].
    intros [e | resp]; cbn; [exact I |].
    destruct (negb (ok resp)); cbn; [exact I |].
    destruct (json resp) as [e | [| b | q | s | items | members]]; cbn; try exact I.
    all: try (destruct (find _ members) as [[name v] |]; cbn; exact I). }
  split; [reflexivity |].
  split.
  { intros resp H. cbn. rewrite H. reflexivity. }
  split; [exact Hok |].
  intros [e | resp] v; [discriminate |].
  destruct (ok resp) eqn:E.
  - rewrite (Hok resp E).
    destruct (json resp) as [e | [| b | q | s | items | members]];
      try discriminate; try (intros [= <-]; reflexivity).
    destruct (find _ members) as [[name w] |]; [| intros [= <-]; reflexivity].
    destruct (Voices.json_truthy w) eqn:Ew; intros [= <-]; [exact Ew | reflexivity].
  - cbn. rewrite E. discriminate.
Qed.

Lemma X14_witness :
  Completion.completion (inr Examples.healthy)
    (Voices.getVoices (St := Speechify.State) (Refs := Speechify.Refs)
       (fun _ => inr (Voices.JsonObject
                        [("voices", Voices.JsonArray [Voices.JsonString "oliver"])]))
       JsOther (Speechify.new_SpeechifyService Examples.key))
  = Some (inr (Voices.JsonArray [Voices.JsonString "oliver"])).
Proof.
  exact (proj1 (proj2 (proj2 (proj2
           (X14_getVoices_settles
              (fun _ => inr (Voices.JsonObject
                               [("voices", Voices.JsonArray [Voices.JsonString "oliver"])]))
              JsOther (Speechify.new_SpeechifyService Examples.key)))))
           Examples.healthy eq_refl).
Defined.

Module SegmentFacts.
Import Segments Invariant StatusCells.

Section Generic.

Context {St Refs : Type}.
Variable P : St -> Prop.

Lemma wp_mono {A : Type} (t : Task St Refs A)
    (Qr Qr' : A -> St -> Prop) (Qt Qt' : Thrown -> St -> Prop) :
  (forall a st, Qr a st -> Qr' a st) ->
  (forall e st, Qt e st -> Qt' e st) ->
  forall st, wp P t Qr Qt st -> wp P t Qr' Qt' st.
Proof.
  intros Hr Ht.
  induction t as [a | e | f t IH | t IH | req t IH | buf t IH | t IH | b h t IH];
    cbn; intros st H; auto.
  - destruct H as [H1 H2]. split; auto.
  - destruct H as [H1 H2]. split; auto.
  - destruct H as [H1 H2]. split; auto.
  - destruct H as [H1 H2]. split; auto.
Qed.

Lemma wp_bind {A B : Type} (t : Task St Refs A) (k : A -> Task St Refs B)
    (Qr : B -> St -> Prop) (Qt : Thrown -> St -> Prop) :
  forall st,
    wp P t (fun a st' => wp P (k a) Qr Qt st') Qt st ->
    wp P (bind t k) Qr Qt st.
Proof.
  induction t as [a | e | f t IH | t IH | req t IH | buf t IH | t IH | b h t IH];
    cbn; intros st H; auto.
  - destruct H as [H1 H2]. split; auto.
  - destruct H as [H1 H2]. split; auto.
  - destruct H as [H1 H2]. split; auto.
  - destruct H as [H1 H2]. split; auto.
Qed.

Lemma wp_try_catch {A : Type} (t : Task St Refs A) (h : Thrown -> Task St Refs A)
    (Qr : A -> St -> Prop) (Qt : Thrown -> St -> Prop) :
  forall st,
    wp P t Qr (fun e st' => wp P (h e) Qr Qt st') st ->
    wp P (try_catch t h) Qr Qt st.
Proof.
  induction t as [a | e | f t IH | t IH | req t IH | buf t IH | t IH | b g t IH];
    cbn; intros st H; auto.
  - destruct H as [H1 H2]. split; auto.
  - destruct H as [H1 H2]. split; auto.
  - destruct H as [H1 H2]. split; auto.
  - destruct H as [H1 H2]. split; auto.
Qed.

(** A task all of whose setters keep [P] keeps it at every point. *)
Lemma stable_wp {A : Type} (t : Task St Refs A) :
  stable P t -> forall st, P st -> wp P t (fun _ => P) (fun _ => P) st.
Proof.
  induction t as [a | e | f t IH | t IH | req t IH | buf t IH | t IH | b h t IH];
    cbn; intros Hs st Hp; auto.
  - destruct Hs as [Hf Hk]. auto.
  - destruct Hs as [Hh Hk]. auto.
Qed.

(** [try { t } catch (e) { h e } finally { fin }] where [fin] restores
    [P] from any state: [t] has to keep [P] only up to its last
    suspension point. *)
Lemma wp_try_catch_finally (t : Task St Refs unit)
    (h : Thrown -> Task St Refs unit) (f : St -> St) :
  (forall st, P (f st)) ->
  (forall e st, wp P (h e) (fun _ _ => True) (fun _ _ => True) st) ->
  forall st,
    wp P t (fun _ _ => True) (fun _ _ => True) st ->
    keeps P (try_catch_finally t h (set f)) st.
Proof.
  intros Hf Hh st Ht. unfold keeps, try_catch_finally, finally.
  apply wp_bind. apply wp_try_catch. apply wp_try_catch.
  eapply wp_mono; [| | exact Ht].
  - intros a st' _. cbn. apply Hf.
  - intros e st' _. eapply wp_mono; [| | apply Hh].
    + intros a st'' _. cbn. apply Hf.
    + intros e' st'' _. cbn. apply Hf.
Qed.

Lemma run_sync_Kept (t : Task St Refs unit) :
  forall s,
    Forall (keeps_suspended P) (suspended s) ->
    Forall (stable_reader P) (readers s) ->
    keeps P t (state s) ->
    Kept P (run_sync t s).
Proof.
  unfold keeps.
  induction t as [a | e | f k IH | k IH | req k IH | buf k IH | k IH | b h k IH];
    cbn; intros s Hsus Hrd Ht.
  - repeat split; assumption.
  - repeat split; assumption.
  - apply IH; cbn; assumption.
  - apply IH; auto.
  - destruct Ht as [Hp Hk]. repeat split; cbn; auto.
    apply Forall_app. split; [exact Hsus | constructor; [exact Hk | constructor]].
  - destruct Ht as [Hp Hk]. repeat split; cbn; auto.
    apply Forall_app. split; [exact Hsus | constructor; [exact Hk | constructor]].
  - destruct Ht as [Hp Hk]. repeat split; cbn; auto.
    apply Forall_app. split; [exact Hsus | constructor; [exact Hk | constructor]].
  - destruct Ht as [Hh Hk]. apply IH; cbn; auto.
    apply Forall_app. split; [exact Hrd | constructor; [exact Hh | constructor]].
Qed.

Lemma fetch_settles_Kept i x (s s' : Sched St Refs) :
  Kept P s -> fetch_settles i x s = Some s' -> Kept P s'.
Proof.
  intros (H1 & H2 & H3). unfold fetch_settles.
  destruct (nth_error (suspended s) i) as [[req k | buf k | k] |] eqn:E; try discriminate.
  intros [= <-]. apply run_sync_Kept; cbn; auto using Forall_remove_nth.
  exact (Forall_nth_error _ _ _ _ H2 E x _ H1).
Qed.

Lemma decode_settles_Kept i x (s s' : Sched St Refs) :
  Kept P s -> decode_settles i x s = Some s' -> Kept P s'.
Proof.
  intros (H1 & H2 & H3). unfold decode_settles.
  destruct (nth_error (suspended s) i) as [[req k | buf k | k] |] eqn:E; try discriminate.
  intros [= <-]. apply run_sync_Kept; cbn; auto using Forall_remove_nth.
  exact (Forall_nth_error _ _ _ _ H2 E x _ H1).
Qed.

Lemma resume_Kept i (s s' : Sched St Refs) :
  Kept P s -> resume i s = Some s' -> Kept P s'.
Proof.
  intros (H1 & H2 & H3). unfold resume.
  destruct (nth_error (suspended s) i) as [[req k | buf k | k] |] eqn:E; try discriminate.
  intros [= <-]. apply run_sync_Kept; cbn; auto using Forall_remove_nth.
  exact (Forall_nth_error _ _ _ _ H2 E _ H1).
Qed.

End Generic.

Local Arguments ok : simpl never.
Local Arguments append : simpl never.
Local Arguments truthy : simpl never.
Local Arguments duration : simpl never.

Section Cloud.
Import Speechify.

Let P := speechify_no_error_in_flight.

Lemma speechify_generateSpeech_keeps (sc : Scope) (st : State) :
  P st -> keeps P (generateSpeech sc) st.
Proof.
  intro Hp. unfold keeps, generateSpeech. intro r.
  destruct (speechifyServiceRef r) as [svc |]; [| exact Hp].
  destruct (isGenerating (seen sc) || negb (truthy (r_text sc))); [exact Hp |].
  apply wp_bind. cbn [set wp]. apply wp_bind. cbn [set wp].
  apply wp_try_catch_finally.
  - intros st' H. discriminate H.
  - intros e st'. exact I.
  - eapply wp_mono; [intros; exact I | intros; exact I |].
    apply stable_wp; [| intros _; reflexivity].
    apply stable_bind;
      [apply SpeechifyFacts.speechify_textToSpeech_stable | intro audioBlob].
    apply stable_bind; [exact I | intro arrayBuffer].
    apply stable_bind.
    + intro r'. destruct (audioContextRef r'); [| exact I].
      apply stable_bind; [apply stable_decodeAudioData | intro audioBuffer].
      apply stable_set. intros st' H. exact H.
    + intros _. split; [| exact I]. intros result st' H. exact H.
Qed.

Lemma speechify_autoGenerateEffect_Kept (sc : Scope) (s : Sched State Refs) :
  Kept P s -> Kept P (autoGenerateEffect sc s).
Proof.
  intro H. unfold autoGenerateEffect.
  destruct (autoGenerateCondition sc (refs s)); [| exact H].
  destruct H as (H1 & H2 & H3).
  apply (run_sync_Kept _ (generateSpeech sc)); auto.
  now apply speechify_generateSpeech_keeps.
Qed.

Lemma speechify_load_end_Kept j success (s s' : Sched State Refs) :
  Kept P s -> load_end j success s = Some s' -> Kept P s'.
Proof.
  intros (H1 & H2 & H3). unfold load_end.
  destruct (nth_error (readers s) j) as [[b g] |] eqn:E; [| discriminate].
  intros [= <-]. repeat split; cbn; auto using Forall_remove_nth.
  exact (Forall_nth_error _ _ _ _ H3 E _ _ H1).
Qed.

Lemma speechify_reachable_Kept (h : Hook) :
  SpeechifyRuns.reachable h -> Kept P (sched h).
Proof.
  intro Hr.
  enough (Kept P (sched h)
          /\ (scope h = None -> isGenerating (state (sched h)) = false)) as [H _]
    by exact H.
  revert h Hr. apply SpeechifyFacts.speechify_reachable_ind.
  - split; [| reflexivity]. repeat split; cbn; auto.
  - intros h e h' [IH Hgen] Hs. unfold step in Hs.
    destruct e, (scope h) as [sc |] eqn:Esc; try discriminate.
    + inversion Hs; subst; clear Hs. cbn [sched scope].
      split; [| discriminate].
      apply speechify_autoGenerateEffect_Kept.
      destruct IH as (H1 & H2 & H3). unfold initEffect.
      destruct (truthy (config_apiKey SPEECHIFY_CONFIG)); repeat split; cbn; auto.
      intro H. cbn in H. rewrite Hgen in H by reflexivity. discriminate H.
    + inversion Hs; subst; clear Hs. cbn [sched scope].
      split; [| discriminate].
      destruct (same_deps sc _); [exact IH | now apply speechify_autoGenerateEffect_Kept].
    + apply SpeechifyFacts.speechify_on_sched_inv in Hs as (s' & [= <-] & ->).
      cbn [sched scope]. rewrite Esc. split; [| discriminate].
      destruct IH as (H1 & H2 & H3).
      apply (run_sync_Kept _ (generateSpeech sc)); auto.
      now apply speechify_generateSpeech_keeps.
    + apply SpeechifyFacts.speechify_on_sched_inv in Hs as (s' & E & ->).
      cbn [sched scope]. rewrite Esc. split; [| discriminate].
      exact (fetch_settles_Kept _ _ _ _ _ IH E).
    + apply SpeechifyFacts.speechify_on_sched_inv in Hs as (s' & E & ->).
      cbn [sched scope]. rewrite Esc. split; [| discriminate].
      exact (decode_settles_Kept _ _ _ _ _ IH E).
    + apply SpeechifyFacts.speechify_on_sched_inv in Hs as (s' & E & ->).
      cbn [sched scope]. rewrite Esc. split; [| discriminate].
      exact (resume_Kept _ _ _ _ IH E).
    + apply SpeechifyFacts.speechify_on_sched_inv in Hs as (s' & E & ->).
      cbn [sched scope]. rewrite Esc. split; [| discriminate].
      exact (speechify_load_end_Kept _ _ _ _ IH E).
Qed.

End Cloud.

Section Local.
Import Higgs.

Let P := higgs_no_error_in_flight.

Lemma higgs_generateSpeech_keeps (sc : Scope) (st : State) :
  P st -> keeps P (generateSpeech sc) st.
Proof.
  intro Hp. unfold keeps, generateSpeech. intro r.
  destruct (higgsServiceRef r) as [svc |]; [| exact Hp].
  destruct (isGenerating (seen sc) || negb (truthy (r_text sc))); [exact Hp |].
  apply wp_bind. cbn [set wp]. apply wp_bind. cbn [set wp].
  apply wp_try_catch_finally.
  - intros st' H. discriminate H.
  - intros e st'. exact I.
  - eapply wp_mono; [intros; exact I | intros; exact I |].
    apply stable_wp; [| intros _; reflexivity].
    apply stable_bind; [apply HiggsFacts.higgs_checkHealth_stable | intro isAvailable].
    apply stable_bind; [destruct (negb isAvailable); exact I | intros _].
    apply stable_bind; [apply stable_set; intros st' H; exact H | intros _].
    apply stable_bind; [apply HiggsFacts.higgs_textToSpeech_stable | intro audioBlob].
    apply stable_bind; [exact I | intro arrayBuffer].
    apply stable_bind.
    + intro r'. destruct (audioContextRef r'); [| exact I].
      apply stable_bind; [apply stable_decodeAudioData | intro audioBuffer].
      apply stable_set. intros st' H. exact H.
    + intros _. split; [| exact I]. intros result st' H. exact H.
Qed.

Lemma higgs_autoGenerateEffect_Kept (sc : Scope) (s : Sched State Refs) :
  Kept P s -> Kept P (autoGenerateEffect sc s).
Proof.
  intro H. unfold autoGenerateEffect.
  destruct (autoGenerateCondition sc (refs s)); [| exact H].
  destruct H as (H1 & H2 & H3).
  apply (run_sync_Kept _ (generateSpeech sc)); auto.
  now apply higgs_generateSpeech_keeps.
Qed.

Lemma higgs_load_end_Kept j success (s s' : Sched State Refs) :
  Kept P s -> load_end j success s = Some s' -> Kept P s'.
Proof.
  intros (H1 & H2 & H3). unfold load_end.
  destruct (nth_error (readers s) j) as [[b g] |] eqn:E; [| discriminate].
  intros [= <-]. repeat split; cbn; auto using Forall_remove_nth.
  exact (Forall_nth_error _ _ _ _ H3 E _ _ H1).
Qed.

Lemma higgs_reachable_Kept (h : Hook) :
  HiggsRuns.reachable h -> Kept P (sched h).
Proof.
  revert h. apply HiggsFacts.higgs_reachable_ind.
  - repeat split; cbn; auto.
  - intros h e h' IH Hs. unfold step in Hs.
    destruct e, (scope h) as [sc |] eqn:Esc; try discriminate.
    + inversion Hs; subst; clear Hs. cbn [sched].
      apply higgs_autoGenerateEffect_Kept.
      unfold initEffect. destruct IH as (H1 & H2 & H3).
      match goal with |- Kept _ (run_sync ?t _) => apply (run_sync_Kept _ t) end;
        cbn [suspended readers state with_refs]; auto.
      apply stable_wp; [| exact H1].
      apply stable_bind; [apply HiggsFacts.higgs_checkHealth_stable | intro b].
      apply stable_set. intros st' H. exact H.
    + inversion Hs; subst; clear Hs. cbn [sched].
      destruct (same_deps sc _); [exact IH | now apply higgs_autoGenerateEffect_Kept].
    + apply HiggsFacts.higgs_on_sched_inv in Hs as (s' & [= <-] & ->). cbn [sched].
      destruct IH as (H1 & H2 & H3).
      apply (run_sync_Kept _ (generateSpeech sc)); auto.
      now apply higgs_generateSpeech_keeps.
    + apply HiggsFacts.higgs_on_sched_inv in Hs as (s' & E & ->). cbn [sched].
      exact (fetch_settles_Kept _ _ _ _ _ IH E).
    + apply HiggsFacts.higgs_on_sched_inv in Hs as (s' & E & ->). cbn [sched].
      exact (decode_settles_Kept _ _ _ _ _ IH E).
    + apply HiggsFacts.higgs_on_sched_inv in Hs as (s' & E & ->). cbn [sched].
      exact (resume_Kept _ _ _ _ IH E).
    + apply HiggsFacts.higgs_on_sched_inv in Hs as (s' & E & ->). cbn [sched].
      exact (higgs_load_end_Kept _ _ _ _ IH E).
Qed.

End Local.

End SegmentFacts.

(** X15.  [isGenerating] and [error] are never set together.  In every
    state a consumer can observe (between two tasks of the event loop,
    whatever the order of calls, renders and answers, also with several
    attempts in flight), [isGenerating = true] implies [error = null]:
    the entry clears the error in the batch that sets the flag, and the
    one place that stores an error is followed, in the same batch, by the
    [finally] that clears the flag. *)
Theorem X15_no_error_while_generating :
  (forall h : Speechify.Hook,
     SpeechifyRuns.reachable h ->
     Speechify.isGenerating (state (Speechify.sched h)) = true ->
     Speechify.error (state (Speechify.sched h)) = None)
  /\
  (forall h : Higgs.Hook,
     HiggsRuns.reachable h ->
     Higgs.isGenerating (state (Higgs.sched h)) = true ->
     Higgs.error (state (Higgs.sched h)) = None).
Proof.
  split.
  - intros h Hr. exact (proj1 (SegmentFacts.speechify_reachable_Kept h Hr)).
  - intros h Hr. exact (proj1 (SegmentFacts.higgs_reachable_Kept h Hr)).
Qed.

Lemma X15_witness :
  (exists h,
     Speechify.run Examples.cloud [Speechify.Call] = Some h
     /\ Speechify.isGenerating (state (Speechify.sched h)) = true
     /\ Speechify.error (state (Speechify.sched h)) = None)
  /\
  (exists h,
     Higgs.run Examples.local [Higgs.Call] = Some h
     /\ Higgs.isGenerating (state (Higgs.sched h)) = true
     /\ Higgs.error (state (Higgs.sched h)) = None).
Proof.
  split.
  - eexists. split; [vm_compute; reflexivity |]. split; [reflexivity |].
    apply (proj1 X15_no_error_while_generating); [| reflexivity].
    exists [Speechify.Mount Examples.key Examples.manual; Speechify.Call].
    vm_compute. reflexivity.
  - eexists. split; [vm_compute; reflexivity |]. split; [reflexivity |].
    apply (proj2 X15_no_error_while_generating); [| reflexivity].
    exists (Examples.local_mount ++ [Higgs.Call]).
    vm_compute. reflexivity.
Defined.

(** X16.  [TTSTestAnimation] shows at most one of its three status
    elements.  The generate button, the loading indicator and the error
    display all sit at the same place (top 40, right 40); in every state
    of the hook that the component can render, at most one of them is
    shown, and the button is never shown beside the audio element. *)
Theorem X16_status_elements_exclusive :
  forall h : Speechify.Hook,
    SpeechifyRuns.reachable h ->
    (Nat.b2n (TTSTestAnimation.generateButton
                (TTSTestAnimation.overlays (state (Speechify.sched h))))
     + Nat.b2n (TTSTestAnimation.loadingIndicator
                  (TTSTestAnimation.overlays (state (Speechify.sched h))))
     + Nat.b2n (TTSTestAnimation.errorDisplay
                  (TTSTestAnimation.overlays (state (Speechify.sched h)))) <= 1)%nat
    /\ (TTSTestAnimation.audio (TTSTestAnimation.overlays (state (Speechify.sched h)))
        = true ->
        TTSTestAnimation.generateButton
          (TTSTestAnimation.overlays (state (Speechify.sched h))) = false).
Proof.
  intros h Hr. pose proof (proj1 (SegmentFacts.speechify_reachable_Kept h Hr)) as H.
  unfold StatusCells.speechify_no_error_in_flight in H.
  cbn. destruct (state (Speechify.sched h)) as [p g d e]. cbn in *.
  destruct g.
  - rewrite (H eq_refl). cbn. rewrite andb_false_r. cbn. split; [lia |].
    intros _. reflexivity.
  - destruct (truthy_opt p), (truthy_opt e); cbn; split; auto; discriminate.
Qed.

Lemma X16_witness :
  (Nat.b2n (TTSTestAnimation.generateButton
              (TTSTestAnimation.overlays (state (Speechify.sched Examples.cloud_ready))))
   + Nat.b2n (TTSTestAnimation.loadingIndicator
                (TTSTestAnimation.overlays (state (Speechify.sched Examples.cloud_ready))))
   + Nat.b2n (TTSTestAnimation.errorDisplay
                (TTSTestAnimation.overlays (state (Speechify.sched Examples.cloud_ready))))
   <= 1)%nat
  /\ (TTSTestAnimation.audio
        (TTSTestAnimation.overlays (state (Speechify.sched Examples.cloud_ready))) = true ->
      TTSTestAnimation.generateButton
        (TTSTestAnimation.overlays (state (Speechify.sched Examples.cloud_ready))) = false).
Proof.
  apply (X16_status_elements_exclusive Examples.cloud_ready).
  exact cloud_ready_reachable.
Defined.
